(** * Sparsifier notebooks: custom sparsifier, custom schedulers and the
      sparsifier life cycle (prepare / step / squash_mask)

    The repository is a set of notebooks.  Its own code is
    - [ClosestToMeanSparsifier.update_mask] and [OnOffSchedulerSL.get_sl]
      (notebook "Customizing the Sparsity Workflow"),
    - [stepping_lambda] (notebook "Sparsifying while Training"),
    and scripts that drive the framework's sparsifier
    ([prepare], [step], [squash_mask]).

    Numbers.  The notebooks compute with floats: float32 in the tensors,
    Python floats (binary64) for the sparsity levels.  A finite float is
    a rational number and is modelled by that number, in [Q].  Where the
    code's arithmetic rounds, the model rounds: the product
    [sparsity_level * len(sorted_idx)] is rounded to the nearest
    binary64 float and the differences [weight_flat - weight_mean] to the
    nearest float32, ties to even ([float_round]).  The reduction
    [mean()], whose order of summation belongs to the framework, is a
    parameter, as [torch.sort] is.  What is exact on floats is computed
    exactly: [0 * x], [1 * x], [abs], comparisons, and the count of zero
    entries; the level of sparsity that the notebooks print is taken as
    the fraction of zero entries.  Infinite and NaN tensor entries are
    outside the model. *)

From Stdlib Require Import ZArith QArith Qround Qabs Qpower Lia Lqa.
From stdpp Require Import base option list gmap strings.

(** ** Python built-ins used by the notebooks *)

Module Py.

(** [round(x)] on a float: nearest integer, ties go to the even one. *)
Definition round (x : Q) : Z :=
  let f := Qfloor x in
  match (x - inject_Z f ?= 1 # 2)%Q with
  | Lt => f
  | Gt => (f + 1)%Z
  | Eq => if Z.even f then f else (f + 1)%Z
  end.

(** [l[i]]: a negative index counts from the end; out of range raises
    IndexError ([None]). *)
Definition index {A} (l : list A) (i : Z) : option A :=
  if (0 <=? i)%Z then l !! Z.to_nat i
  else if (- Z.of_nat (length l) <=? i)%Z
       then l !! Z.to_nat (Z.of_nat (length l) + i)
       else None.

(** [l[:stop]]: never raises; a [stop] beyond the length is clipped, a
    negative [stop] counts from the end. *)
Definition slice_to {A} (l : list A) (stop : Z) : list A :=
  if (0 <=? stop)%Z then take (Z.to_nat stop) l
  else take (length l - Z.to_nat (- stop)) l.

End Py.

(** ** Floats *)

(** [2 ** e] *)
Definition pow2 (e : Z) : Q :=
  match e with
  | Z0 => 1
  | Zpos p => inject_Z (2 ^ Zpos p)
  | Zneg p => 1 # (2 ^ p)
  end.

(** The binade of a non-zero [x]: the [e] with [2**e <= |x| < 2**(e+1)]. *)
Definition ilog2 (x : Q) : Z :=
  let d := (Z.log2 (Z.abs (Qnum x)) - Z.log2 (Zpos (Qden x)))%Z in
  if Qle_bool (pow2 d) (Qabs x) then d else (d - 1)%Z.

(** Rounding of a real number to the nearest number [m * 2**e] with a
    significand [m] of at most [prec] bits and [e >= emin], ties to the
    even significand: the rounding of IEEE 754 arithmetic, before the
    check for overflow.  The quantum [2**e] is that of the binade of
    [x], or the smallest one for subnormal [x]. *)
Definition float_round (prec emin : Z) (x : Q) : Q :=
  if Qeq_bool x 0 then 0
  else
    let e := Z.max (ilog2 x - (prec - 1)) emin in
    inject_Z (Py.round (x / pow2 e)) * pow2 e.

(** The Python float (binary64) nearest to [x]; [None] when the rounded
    value is beyond the largest float: the result is infinite. *)
Definition fl64 (x : Q) : option Q :=
  let y := float_round 53 (-1074) x in
  if Qle_bool (pow2 1024) (Qabs y) then None else Some y.

(** The float32 nearest to [x].  A result beyond the largest float32,
    infinite in the code, is kept as [2**128], above every float32:
    what is done with it below is comparing. *)
Definition fl32 (x : Q) : Q :=
  let y := float_round 24 (-149) x in
  if Qle_bool (pow2 128) (Qabs y)
  then (if Qle_bool 0 y then pow2 128 else - pow2 128)
  else y.

(** ** Tensors *)

(** A tensor is its shape and its entries in row-major order. *)
Record tensor := Tensor { shape : list nat; data : list Q }.

Definition numel_of (s : list nat) : nat := foldr Nat.mul 1 s.
Definition numel (t : tensor) : nat := numel_of (shape t).

(** Well-formed tensor: as many entries as the shape says. *)
Definition tensor_wf (t : tensor) : Prop := length (data t) = numel t.

(** [t.flatten()], as the list of entries. *)
Definition flatten (t : tensor) : list Q := data t.

(** [torch.ones_like(t)] *)
Definition ones_like (t : tensor) : tensor :=
  Tensor (shape t) (replicate (numel t) 1%Q).

(** [v.reshape(s)] of a flat tensor: the element counts must agree. *)
Definition reshape (v : list Q) (s : list nat) : option tensor :=
  if decide (length v = numel_of s) then Some (Tensor s v) else None.

(** [t[:stop]] on a tensor of indices, for a Python integer [stop].
    From -2**62 on this is the slice of Python: a [stop] beyond the
    length, however large, is clipped.  A [stop] below -2**62 does not
    fit the index type of tensors (the symbolic integer of PyTorch 2):
    an exception ([None]).  PyTorch versions differ on such bounds;
    nothing that is proved below to return uses a bound outside
    [-2**62, 2**63). *)
Definition tensor_slice_to (t : list nat) (stop : Z) : option (list nat) :=
  if (stop <? - 2 ^ 62)%Z then None else Some (Py.slice_to t stop).

(** [a * b], entry by entry, for tensors of one shape; the shape is the
    right operand's. *)
Definition mul (a b : tensor) : tensor :=
  Tensor (shape b) (zip_with Qmult (data a) (data b)).

(** [x == 0] on one entry. *)
Definition is_zero (x : Q) : bool := Qeq_bool x 0.

(** [(t == 0).sum()] *)
Definition count_zeros (v : list Q) : nat := length (filter (λ x, is_zero x = true) v).

(** [(t == 0).float().mean()]: the observed level of sparsity. *)
Definition sparsity_of (t : tensor) : Q :=
  (inject_Z (Z.of_nat (count_zeros (data t))) / inject_Z (Z.of_nat (length (data t))))%Q.

(** [v[idx] = 0] for a tensor of indices: every index must be in range. *)
Fixpoint index_put_zero (v : list Q) (idx : list nat) : option (list Q) :=
  match idx with
  | [] => Some v
  | i :: rest =>
      if decide (i < length v) then index_put_zero (<[i := 0%Q]> v) rest
      else None
  end.

(** Entry [i] of a flat tensor (0 outside, never used outside). *)
Definition entry (v : list Q) (i : nat) : Q := default 0%Q (v !! i).

(** *** torch.sort

    [torch.sort] belongs to the framework.  The sparsifier below takes it
    as a parameter [torch_sort]; what a sort has to satisfy on an input
    [v] is [is_sort_of v]: the indices are a rearrangement of
    [0 .. len(v)-1], and the entries of [v], read in that order, ascend.
    Ties may be broken either way.  (The sorted values, the first
    component, are discarded by the caller.) *)

Fixpoint ascending (v : list Q) : bool :=
  match v with
  | x :: (y :: _) as rest => Qle_bool x y && ascending rest
  | _ => true
  end.

Definition is_sort_of (v : list Q) (r : list Q * list nat) : bool :=
  bool_decide (length r.2 = length v)
  && forallb (λ i, bool_decide (i ∈ r.2)) (seq 0 (length v))
  && ascending (map (entry v) r.2).

(** One such sort: stable insertion sort of the indices. *)
Fixpoint insert_index (v : list Q) (i : nat) (sorted : list nat) : list nat :=
  match sorted with
  | [] => [i]
  | j :: rest =>
      if Qle_bool (entry v i) (entry v j) then i :: sorted
      else j :: insert_index v i rest
  end.

Definition stable_argsort (v : list Q) : list nat :=
  foldr (insert_index v) [] (seq 0 (length v)).

Definition stable_sort (v : list Q) : list Q * list nat :=
  (map (entry v) (stable_argsort v), stable_argsort v).

(** *** mean

    [t.mean()] on a float32 tensor is a reduction of the framework: the
    order in which it adds the entries, and so the rounding of the sum,
    is not fixed by the code that calls it.  The sparsifier below takes
    it as a parameter [torch_mean], and nothing is assumed about it.
    One such mean, for the examples: the entries are added from left to
    right and the sum is divided by their number, each step rounded to
    float32. *)
Definition sequential_mean (v : list Q) : Q :=
  fl32 (foldl (λ acc x, fl32 (acc + x)) 0%Q v / inject_Z (Z.of_nat (length v))).

(** ** Layers *)

(** A linear layer.  [original] is the stored weight parameter: the
    layer's weight when it is not parametrized, and
    [layer.parametrizations.weight.original] when it is.
    [parametrizations] is [layer.parametrizations.weight], the list of
    masks of the attached [FakeSparsity] wrappers; the attribute
    [parametrizations] exists when the list is not empty. *)
Record Linear := mkLinear {
  in_features : nat;
  out_features : nat;
  bias : option tensor;
  original : tensor;
  parametrizations : list tensor
}.

Definition has_parametrizations (l : Linear) : bool :=
  match parametrizations l with [] => false | _ => true end.

(** Modelled from the spec: [layer.weight] of a parametrized layer
    (framework code, absent from the repository).  "Mask: a
    same-shape-as-weight tensor of 0/1 applied multiplicatively to a
    layer's weight before use": every attached mask is multiplied into
    the stored weight. *)
Definition weight (l : Linear) : tensor :=
  foldl (λ w m, mul m w) (original l) (parametrizations l).

Definition set_mask (l : Linear) (m : tensor) : Linear :=
  mkLinear (in_features l) (out_features l) (bias l) (original l)
           (<[0 := m]> (parametrizations l)).

(** ** ClosestToMeanSparsifier *)

Section ClosestToMeanSparsifier.

Variable torch_mean : list Q → Q.
Variable torch_sort : list Q → list Q * list nat.

(** [(weight_flat - weight_mean).abs()], in float32: each difference is
    rounded, its absolute value is exact. *)
Definition distance_to_mean (weight_flat : list Q) : list Q :=
  let weight_mean := torch_mean weight_flat in
  map (λ w, Qabs (fl32 (w - weight_mean))) weight_flat.

(** [len(sorted_idx)] as the float that the product takes it as.  The
    conversion changes lengths above 2**53 only; a length stays far
    below 2**1024, where it would overflow. *)
Definition float_of_len (n : nat) : Q :=
  float_round 53 (-1074) (inject_Z (Z.of_nat n)).

(** [int(round(sparsity_level * len(sorted_idx)))]: the product of two
    floats, rounded to a float, then rounded to an integer, ties to
    even.  The level is given by its value; of a value that is not a
    float the nearest float is taken, as Python reads a literal.  [None]
    is the exception that [round] raises when the level or the product
    is infinite (OverflowError; ValueError for the NaN that an infinite
    level gives with a length of 0). *)
Definition threshold_idx (sparsity_level : Q) (n : nat) : option Z :=
  sparsity_level ← fl64 sparsity_level;
  product ← fl64 (sparsity_level * float_of_len n);
  Some (Py.round product).

(** [update_mask(self, layer, sparsity_level, **kwargs)].  [None] is a
    raised exception: the layer has no parametrization, the threshold
    cannot be computed or does not fit a tensor index, or an index does
    not fit the mask.  The mask of the first wrapper is replaced; nothing
    else of the layer changes. *)
Definition update_mask (layer : Linear) (sparsity_level : Q) : option Linear :=
  mask ← parametrizations layer !! 0;
  let weight := original layer in
  let weight_flat := flatten weight in
  let weight_distance_to_mean := distance_to_mean weight_flat in
  let sorted_idx := (torch_sort weight_distance_to_mean).2 in
  threshold ← threshold_idx sparsity_level (length sorted_idx);
  sorted_idx ← tensor_slice_to sorted_idx threshold;
  let new_mask := flatten (ones_like mask) in
  new_mask ← index_put_zero new_mask sorted_idx;
  new_mask ← reshape new_mask (shape mask);
  Some (set_mask layer new_mask).

(** The indices that a call sets to 0, [sorted_idx[:threshold_idx]]. *)
Definition selected_idx (layer : Linear) (sparsity_level : Q) : option (list nat) :=
  let sorted_idx := (torch_sort (distance_to_mean (flatten (original layer)))).2 in
  threshold ← threshold_idx sparsity_level (length sorted_idx);
  tensor_slice_to sorted_idx threshold.

End ClosestToMeanSparsifier.

(** ** Schedules *)

(** [stepping_lambda(epoch)], notebook "Sparsifying while Training".
    [None] is the IndexError of [steps[epoch]]. *)
Definition stepping_lambda (epoch : Z) : option Q :=
  let steps := [0; 1 # 2; 3 # 4; 1]%Q in
  if (Z.of_nat (length steps) <=? epoch)%Z then Some 1%Q
  else Py.index steps epoch.

(** The state of an [OnOffSchedulerSL] that [get_sl] reads. *)
Record OnOffSchedulerSL := mkOnOff {
  last_epoch : Z;
  base_sl : list Q;
  epoch_points : list Z
}.

(** The chained comparison [a <= x < b]: [b] is only evaluated, and can
    only raise, when [a <= x] holds. *)
Definition chain_le_lt (a x : Z) (b : option Z) : option bool :=
  if (a <=? x)%Z then b' ← b; Some (x <? b')%Z else Some false.

(** [OnOffSchedulerSL.get_sl(self)].  [None] is an IndexError of one of
    the accesses [self.epoch_points[i]]. *)
Definition get_sl (self : OnOffSchedulerSL) : option (list Q) :=
  let zeros := replicate (length (base_sl self)) 0%Q in
  let point := Py.index (epoch_points self) in
  e0 ← point 0%Z;
  if (last_epoch self <? e0)%Z then Some zeros
  else
    e0 ← point 0%Z;
    c ← chain_le_lt e0 (last_epoch self) (point 1%Z);
    if c : bool then Some (base_sl self)
    else
      e1 ← point 1%Z;
      c ← chain_le_lt e1 (last_epoch self) (point 2%Z);
      if c : bool then Some zeros
      else Some (base_sl self).

(** ** Models *)

#[local] Set Warnings "-register-all".

(** A model is an ordered composition of linear layers and non-parametric
    layers (ReLU, QuantStub, DeQuantStub), possibly nested. *)
Inductive module :=
| MLinear (l : Linear)
| MActivation (kind : string)
| MSequential (children : list module).

(** The position of a submodule: [[0; 2]] is [model[0][2]], which
    [named_modules] calls '0.2'. *)
Definition fqn := list nat.

Fixpoint get_submodule (m : module) (p : fqn) : option module :=
  match p with
  | [] => Some m
  | i :: rest =>
      match m with
      | MSequential children => c ← children !! i; get_submodule c rest
      | _ => None
      end
  end.

Definition get_linear (m : module) (p : fqn) : option Linear :=
  match get_submodule m p with
  | Some (MLinear l) => Some l
  | _ => None
  end.

(** Assignment to the submodule at [p] (nothing happens when there is no
    such submodule). *)
Fixpoint set_submodule (m : module) (p : fqn) (x : module) : module :=
  match p with
  | [] => x
  | i :: rest =>
      match m with
      | MSequential children =>
          match children !! i with
          | Some c => MSequential (<[i := set_submodule c rest x]> children)
          | None => m
          end
      | _ => m
      end
  end.

(** The names of the linear layers, in the order of [named_modules]. *)
Fixpoint named_linears (m : module) : list fqn :=
  match m with
  | MLinear _ => [[]]
  | MActivation _ => []
  | MSequential children =>
      mjoin (zip_with (λ i names, cons i <$> names)
                      (seq 0 (length children)) (named_linears <$> children))
  end.

(** What printing a model shows: the composition and each layer's
    dimensions, without weights and wrappers. *)
Inductive structure :=
| SLinear (in_f out_f : nat) (has_bias : bool)
| SActivation (kind : string)
| SSequential (children : list structure).

Fixpoint structure_of (m : module) : structure :=
  match m with
  | MLinear l => SLinear (in_features l) (out_features l) (bool_decide (is_Some (bias l)))
  | MActivation k => SActivation k
  | MSequential children => SSequential (structure_of <$> children)
  end.

(** Python objects live in a store, by identity; a variable such as
    [model] holds a key of it.  Mutation in place is an update of the
    store at that key. *)
Definition objid := nat.

(** [copy.deepcopy(model)]: a new object with the same contents. *)
Definition deepcopy (h : gmap objid module) (o : objid) : option (objid * gmap objid module) :=
  m ← h !! o;
  let c := fresh (dom h) in
  Some (c, <[c := m]> h).

(** Loops over the groups stop at the first exception. *)
Fixpoint foldM {A B} (f : A → B → option A) (a : A) (l : list B) : option A :=
  match l with
  | [] => Some a
  | b :: rest => a' ← f a b; foldM f a' rest
  end.

(** Replace the linear layer at [p] by what [f] makes of it. *)
Definition update_at (f : Linear → option Linear) (m : module) (p : fqn) : option module :=
  l ← get_linear m p;
  l' ← f l;
  Some (set_submodule m p (MLinear l')).

(** [for g in groups: F(g, g['module'])], on the model ... *)
Definition for_each_group {B} (F : B → Linear → option Linear) (path : B → fqn)
    (m : module) (groups : list B) : option module :=
  foldM (λ m g, update_at (F g) m (path g)) m groups.

(** ... and seen from one layer: the groups that name the layer at [p]
    act on it, in order. *)
Definition on_layer {B} (F : B → Linear → option Linear) (path : B → fqn)
    (p : fqn) (l : Linear) (groups : list B) : option Linear :=
  foldM (λ l g, F g l) l (filter (λ g, path g = p) groups).

(** ** The sparsifier of the framework

    The base class of the sparsifiers ([prepare], [step], [squash_mask])
    is the framework's, not the repository's: the notebooks only call it.
    It is modelled below from the specification; where the specification
    is silent or at odds with the runs recorded in the notebooks, the
    recorded runs decide, and the definition says so. *)

(** Values of the configuration dictionaries. *)
Inductive value :=
| VFloat (q : Q)
| VInt (n : Z)
| VTuple (a b : nat).

(** An element of the [config] list: a dictionary
    [{'module': m, 'sparsity_level': .., ..}] for a customized layer, or
    the bare layer [m]. *)
Inductive config_entry :=
| ConfigDict (module_ref : fqn) (args : gmap string value)
| ConfigModule (module_ref : fqn).

Definition config_module (c : config_entry) : fqn :=
  match c with ConfigDict p _ => p | ConfigModule p => p end.

(** An element of [sparsifier.module_groups]. *)
Record group := mkGroup {
  group_fqn : fqn;
  group_args : gmap string value
}.

Record BaseSparsifier := mkSparsifier {
  defaults : gmap string value;
  model : objid;
  module_groups : list group
}.

(** Modelled from the spec: the group that [prepare] makes of a
    configuration entry (framework code, absent from the repository).
    "Sparsity configuration group: a mapping from target layer reference,
    sparsity level, block shape, zeros-per-block - one entry per
    customized layer, plus a default group".  The keys an entry sets
    override the defaults; a bare layer takes the defaults (the notebooks
    list such layers under "The following layers will take default
    parameters"). *)
Definition make_group (dflt : gmap string value) (c : config_entry) : group :=
  match c with
  | ConfigDict p args => mkGroup p (args ∪ dflt)
  | ConfigModule p => mkGroup p dflt
  end.

(** Modelled from the spec: the wrapper that [prepare] attaches to a layer
    (framework code, absent from the repository).  "Mask: a
    same-shape-as-weight tensor of 0/1 applied multiplicatively to a
    layer's weight before use; created on prepare"; "before the first
    step, masks are all-ones". *)
Definition attach_mask (l : Linear) : Linear :=
  mkLinear (in_features l) (out_features l) (bias l) (original l)
           (parametrizations l ++ [ones_like (weight l)]).

(** Modelled from the spec: the entries that [prepare] works on (framework
    code, absent from the repository): the list it is given, or, with
    [config=None], every linear layer of the model as a bare entry. *)
Definition config_list (m : module) (config : option (list config_entry)) : list config_entry :=
  match config with
  | Some c => c
  | None => ConfigModule <$> named_linears m
  end.

(** Modelled from the spec: [sparsifier.prepare(model, config)] (framework
    code, absent from the repository).  "Model: mutated in place when
    sparsity is attached."  The groups are the entries of [config]; with
    [config=None] every linear layer of the model gets the default group.
    On which layers get a group the specification ("a default group
    applied to any layer not explicitly listed") and the recorded runs
    differ: in the notebooks that pass a list, the linear layer that the
    list leaves out stays at 0.00% through every step.  The model
    follows the runs: a layer that a list leaves out gets no group.
    [None] is an exception: an entry that is not a linear layer of the
    model. *)
Definition prepare (dflt : gmap string value) (h : gmap objid module) (model : objid)
    (config : option (list config_entry)) : option (BaseSparsifier * gmap objid module) :=
  m ← h !! model;
  let groups := make_group dflt <$> config_list m config in
  m' ← for_each_group (λ _ l, Some (attach_mask l)) group_fqn m groups;
  Some (mkSparsifier dflt model groups, <[model := m']> h).

Section BaseSparsifier.

(** The method that a sparsifier class supplies:
    [update_mask(self, layer, **config)]. *)
Variable update_mask_kw : Linear → gmap string value → option Linear.

(** Modelled from the spec: [sparsifier.step()] (framework code, absent
    from the repository).  "Mask: updated on each step": every group's
    layer goes through [update_mask] with the group's arguments. *)
Definition step (self : BaseSparsifier) (h : gmap objid module) : option (gmap objid module) :=
  m ← h !! model self;
  m' ← for_each_group (λ g l, update_mask_kw l (group_args g)) group_fqn
                      m (module_groups self);
  Some (<[model self := m']> h).

End BaseSparsifier.

(** Modelled from the spec: what [squash_mask] does to one layer (framework
    code, absent from the repository).  "Mask squashing: the act of
    permanently multiplying a mask into its weight tensor and discarding
    the mask"; "deleted (squashed) by multiplying into the weight and
    removing the wrapper". *)
Definition squash_layer (l : Linear) : Linear :=
  mkLinear (in_features l) (out_features l) (bias l) (weight l) [].

(** Modelled from the spec: [sparsifier.squash_mask()] (framework code,
    absent from the repository): every group's layer is squashed. *)
Definition squash_mask (self : BaseSparsifier) (h : gmap objid module) : option (gmap objid module) :=
  m ← h !! model self;
  m' ← for_each_group (λ _ l, Some (squash_layer l)) group_fqn m (module_groups self);
  Some (<[model self := m']> h).

(** [ClosestToMeanSparsifier.update_mask] as [step] calls it: the
    keyword [sparsity_level] is taken from the group, the other keywords
    land in [**kwargs] and are ignored.  A group without the keyword is a
    TypeError. *)
Definition closest_to_mean_update (torch_mean : list Q → Q) (torch_sort : list Q → list Q * list nat)
    (layer : Linear) (kwargs : gmap string value) : option Linear :=
  match kwargs !! "sparsity_level" with
  | Some (VFloat sparsity_level) => update_mask torch_mean torch_sort layer sparsity_level
  | _ => None
  end.

(** [ClosestToMeanSparsifier(sparsity_level)]: the defaults it hands to
    the base class. *)
Definition closest_to_mean_defaults (sparsity_level : Q) : gmap string value :=
  {[ "sparsity_level" := VFloat sparsity_level ]}.

(** The defaults of the notebooks' [WeightNormSparsifier]. *)
Definition weight_norm_defaults (sparsity_level : Q) (block : nat * nat) (zeros : Z)
    : gmap string value :=
  {[ "sparsity_level" := VFloat sparsity_level;
     "sparse_block_shape" := VTuple block.1 block.2;
     "zeros_per_block" := VInt zeros ]}.

(** The observed level of sparsity of the layer at [p]. *)
Definition layer_sparsity (h : gmap objid module) (o : objid) (p : fqn) : option Q :=
  m ← h !! o; l ← get_linear m p; Some (sparsity_of (weight l)).


(** The whole life cycle with a [ClosestToMeanSparsifier]:
    [prepare], one [step], [squash_mask]. *)
Definition prepare_step_squash (torch_mean : list Q → Q) (torch_sort : list Q → list Q * list nat)
    (sparsity_level : Q) (h : gmap objid module) (model : objid)
    (config : option (list config_entry)) : option (gmap objid module) :=
  '(self, h) ← prepare (closest_to_mean_defaults sparsity_level) h model config;
  h ← step (closest_to_mean_update torch_mean torch_sort) self h;
  squash_mask self h.

(** ** Properties of masks *)

(** Every entry is 0 or 1. *)
Definition binary_mask (m : tensor) : Prop :=
  Forall (λ x, x = 0%Q ∨ x = 1%Q) (data m).

(** The first wrapper's mask has the shape of the weight it parametrizes,
    as many entries as its shape says, and entries in 0/1. *)
Definition mask_invariant (l : Linear) : Prop :=
  ∃ mask rest, parametrizations l = mask :: rest ∧
    shape mask = shape (original l) ∧ tensor_wf mask ∧ binary_mask mask.

(** A group is ready for a step of the [ClosestToMeanSparsifier]: it
    names a linear layer with one wrapper whose mask has as many entries
    as the weight, its level is in [0, 1], the sort sorts the layer's
    distances, and the weight has at most 2**53 entries, so that its
    length is a float. *)
Definition group_ready (torch_mean : list Q → Q) (torch_sort : list Q → list Q * list nat)
    (m : module) (g : group) : Prop :=
  ∃ l mask s,
    get_linear m (group_fqn g) = Some l ∧
    parametrizations l = [mask] ∧
    numel mask = length (data (original l)) ∧
    group_args g !! "sparsity_level" = Some (VFloat s) ∧
    (0 <= s)%Q ∧ (s <= 1)%Q ∧
    is_sort_of (distance_to_mean torch_mean (data (original l)))
               (torch_sort (distance_to_mean torch_mean (data (original l)))) = true ∧
    (Z.of_nat (length (data (original l))) ≤ 2 ^ 53)%Z.

(** ** Inputs of the examples *)

(** A prepared [Linear(4, 1)] with weight [[1, 2, 3, 6]] and a fresh mask. *)
Definition layer_1x4 : Linear :=
  mkLinear 4 1 None (Tensor [1; 4] [1; 2; 3; 6]%Q) [Tensor [1; 4] [1; 1; 1; 1]%Q].

(** The scheduler of the notebook: [epoch_points=[3, 6, 9]], one group
    with target level 0.8 (written 4/5). *)
Definition on_off_at (epoch : Z) : OnOffSchedulerSL :=
  mkOnOff epoch [4 # 5] [3; 6; 9]%Z.

(** A [Linear(i, o)] with zero bias and the given weight. *)
Definition linear (i o : nat) (w : list Q) : Linear :=
  mkLinear i o (Some (Tensor [o] (replicate o 0%Q))) (Tensor [o; i] w) [].

(** A two-layer model whose first layer is prepared and stepped (mask
    [[0, 0, 0, 1]]), with the sparsifier that holds it. *)
Definition stepped_model : module :=
  MSequential
    [MLinear (set_mask (attach_mask (linear 4 1 [1; 2; 3; 6]%Q)) (Tensor [1; 4] [0; 0; 0; 1]%Q));
     MActivation "ReLU";
     MLinear (linear 1 4 [1; 2; 6; 7]%Q)].

Definition stepped_sparsifier : BaseSparsifier :=
  mkSparsifier (closest_to_mean_defaults (3 # 4)) 0
               [mkGroup [0] (closest_to_mean_defaults (3 # 4))].

(** A fresh two-layer model, and a configuration that lists its first
    layer only. *)
Definition two_layers : module :=
  MSequential [MLinear (linear 4 1 [1; 2; 3; 6]%Q); MActivation "ReLU";
               MLinear (linear 1 4 [1; 2; 6; 7]%Q)].

Definition first_layer_only : list config_entry := [ConfigModule [0]].

(** A model of one [Linear(3, 1)] with weight [[1, 2, 6]]. *)
Definition one_layer : module := MSequential [MLinear (linear 3 1 [1; 2; 6]%Q)].

(** The model of the notebook "Sparsifying while Training", four linear
    layers with ReLU in between, in small: every weight has four
    entries.  The configuration lists the first three linear layers,
    the third as a bare layer, as the notebook does; levels are 3/4 and
    1/4 for the customized layers and 1/2 by default. *)
Definition four_layers : module :=
  MSequential
    [MLinear (linear 4 1 [1; 2; 3; 6]%Q); MActivation "ReLU";
     MLinear (linear 1 4 [1; 2; 6; -1]%Q); MActivation "ReLU";
     MLinear (linear 4 1 [1; 3; 5; 11]%Q); MActivation "ReLU";
     MLinear (linear 1 4 [1; 2; 6; 7]%Q)].

Definition three_of_four : list config_entry :=
  [ConfigDict [0] {[ "sparsity_level" := VFloat (3 # 4) ]};
   ConfigDict [2] {[ "sparsity_level" := VFloat (1 # 4) ]};
   ConfigModule [4]].

(** The run recorded in that notebook: the configuration, the defaults,
    and the sparsity printed per linear layer after [squash_mask]
    (69.64%, 90.04%, 79.98%, 0.00%). *)
Definition recorded_config : list config_entry :=
  [ConfigDict [0] {[ "sparsity_level" := VFloat (7 # 10);
                     "sparse_block_shape" := VTuple 4 1; "zeros_per_block" := VInt 4 ]};
   ConfigDict [2] {[ "sparsity_level" := VFloat (9 # 10);
                     "sparse_block_shape" := VTuple 1 8; "zeros_per_block" := VInt 8 ]};
   ConfigModule [4]].

Definition recorded_defaults : gmap string value :=
  weight_norm_defaults (8 # 10) (1, 4) 4.

Definition recorded_sparsity : list (fqn * Q) :=
  [([0], (6964 # 10000)%Q); ([2], (9004 # 10000)%Q); ([4], (7998 # 10000)%Q);
   ([6], 0%Q)].

(** ** The reports of the notebooks *)

(** The target that the notebook "Sparsifying a Pre-Trained Model" prints
    beside each layer:
    [[mg['sparsity_level'] for mg in sparsifier.module_groups
      if mg['fqn'] == name][0]].
    [None] is an exception: the KeyError of a group of that name without
    the key, or the IndexError of the empty list. *)
Definition sparsity_target (module_groups : list group) (name : fqn) : option value :=
  levels ← mapM (λ mg, group_args mg !! "sparsity_level")
                (filter (λ mg, group_fqn mg = name) module_groups);
  Py.index levels 0.

(** ** More inputs of the examples *)

(** [layer_1x4] with a mask of three entries only. *)
Definition layer_short_mask : Linear :=
  mkLinear 4 1 None (Tensor [1; 4] [1; 2; 3; 6]%Q) [Tensor [3] [1; 1; 1]%Q].

(** Two groups of one name, the second without a level, and a group of
    another name. *)
Definition groups_with_a_gap : list group :=
  [mkGroup [0] (closest_to_mean_defaults (3 # 4)); mkGroup [0] ∅;
   mkGroup [2] (closest_to_mean_defaults (1 # 2))].

(** The weight of [layer_1x4] after a step at level 3/4. *)
Definition weight_after_step : tensor := Tensor [1; 4] [0; 0; 0; 6]%Q.

(** * Proofs *)

(** ** Python built-ins *)

Lemma round_cases (x : Q) : Py.round x = Qfloor x ∨ Py.round x = (Qfloor x + 1)%Z.
Proof.
  unfold Py.round.
  destruct (x - inject_Z (Qfloor x) ?= 1 # 2)%Q; [destruct (Z.even _)| |]; auto.
Qed.

Lemma round_bounds (x : Q) (n : Z) :
  (0 <= x)%Q → (x <= inject_Z n)%Q → (0 ≤ Py.round x ≤ n)%Z.
Proof.
  intros H0 Hn.
  assert (Hf0 : (0 ≤ Qfloor x)%Z).
  { change 0%Z with (Qfloor (inject_Z 0)). rewrite Qfloor_Z. 
    rewrite <- (Qfloor_Z 0). by apply Qfloor_resp_le. }
  assert (Hfn : (Qfloor x ≤ n)%Z).
  { rewrite <- (Qfloor_Z n). by apply Qfloor_resp_le. }
  destruct (decide (Qfloor x = n)) as [Heq|Hne].
  - unfold Py.round. rewrite Heq.
    assert (Hlt : (x - inject_Z n < 1 # 2)%Q).
    { apply Qle_lt_trans with 0%Q; [|reflexivity].
      apply (Qplus_le_l _ _ (inject_Z n)). ring_simplify. done. }
    assert (Hc : (x - inject_Z n ?= 1 # 2)%Q = Lt) by (by apply Qlt_alt).
    rewrite Hc. lia.
  - destruct (round_cases x) as [-> | ->]; lia.
Qed.

Lemma round_integer (x : Q) (z : Z) : (x == inject_Z z)%Q → Py.round x = z.
Proof.
  intros Hx. unfold Py.round.
  rewrite (Qfloor_comp _ _ Hx), Qfloor_Z.
  assert (Hlt : (x - inject_Z z < 1 # 2)%Q).
  { rewrite Hx. apply Qle_lt_trans with 0%Q; [|reflexivity].
    apply Qle_minus_iff. ring_simplify. apply Qle_refl. }
  assert (Hc : (x - inject_Z z ?= 1 # 2)%Q = Lt) by (by apply Qlt_alt).
  by rewrite Hc.
Qed.

Lemma round_at_least (x : Q) (n : Z) : (inject_Z n <= x)%Q → (n ≤ Py.round x)%Z.
Proof.
  intros Hx.
  assert (Hf : (n ≤ Qfloor x)%Z).
  { rewrite <- (Qfloor_Z n). by apply Qfloor_resp_le. }
  destruct (round_cases x) as [-> | ->]; lia.
Qed.

(** ** Floats *)

Lemma pow2_pos (e : Z) : (0 < pow2 e)%Q.
Proof.
  destruct e as [|p|p]; simpl; [done| |done].
  change 0%Q with (inject_Z 0). rewrite <- Zlt_Qlt. lia.
Qed.

Lemma pow2_of_nonneg (e : Z) : (0 ≤ e)%Z → pow2 e = inject_Z (2 ^ e).
Proof. by destruct e as [|p|p]; [| |lia]. Qed.

Lemma pow2_le_frac (e a : Z) (b : positive) :
  (pow2 e <= a # b)%Q ↔ (2 ^ Z.max e 0 * Zpos b ≤ a * 2 ^ Z.max (- e) 0)%Z.
Proof.
  destruct e as [|p|p]; unfold Qle; simpl pow2; cbn [Qnum Qden inject_Z].
  - rewrite !Z.max_l by lia. change (- 0)%Z with 0%Z. rewrite !Z.pow_0_r. lia.
  - rewrite Z.max_l, Z.max_r by lia. rewrite Z.pow_0_r. lia.
  - rewrite Z.max_r, Z.max_l by lia. rewrite Z.pow_0_r.
    rewrite Pos2Z.inj_pow. change (- Z.neg p)%Z with (Z.pos p). lia.
Qed.

Lemma pow2_gt_frac (e a : Z) (b : positive) :
  (a # b < pow2 e)%Q ↔ (a * 2 ^ Z.max (- e) 0 < 2 ^ Z.max e 0 * Zpos b)%Z.
Proof.
  destruct e as [|p|p]; unfold Qlt; simpl pow2; cbn [Qnum Qden inject_Z].
  - rewrite !Z.max_l by lia. change (- 0)%Z with 0%Z. rewrite !Z.pow_0_r. lia.
  - rewrite Z.max_r, Z.max_l by lia. rewrite Z.pow_0_r. lia.
  - rewrite Z.max_l, Z.max_r by lia. rewrite Z.pow_0_r.
    rewrite Pos2Z.inj_pow. change (- Z.neg p)%Z with (Z.pos p). lia.
Qed.

(** [ilog2] is the binade. *)
Lemma ilog2_spec (x : Q) :
  ¬ (x == 0)%Q → (pow2 (ilog2 x) <= Qabs x)%Q ∧ (Qabs x < pow2 (ilog2 x + 1))%Q.
Proof.
  intros Hx. destruct x as [n b].
  assert (Ha : (0 < Z.abs n)%Z).
  { destruct (decide (n = 0%Z)) as [->|]; [|lia]. by destruct Hx. }
  unfold ilog2. cbn [Qnum Qden].
  change (Qabs (n # b)) with (Z.abs n # b).
  set (a := Z.abs n) in *.
  destruct (Z.log2_spec a Ha) as [Hla Hua].
  destruct (Z.log2_spec (Zpos b) (Pos2Z.is_pos b)) as [Hlb Hub].
  pose proof (Z.log2_nonneg a) as Hla0.
  pose proof (Z.log2_nonneg (Zpos b)) as Hlb0.
  set (la := Z.log2 a) in *. set (lb := Z.log2 (Zpos b)) in *.
  assert (Hpow : ∀ u v, (0 ≤ u)%Z → (0 ≤ v)%Z → (2 ^ (u + v) = 2 ^ u * 2 ^ v)%Z).
  { intros u v Hu Hv. by apply Z.pow_add_r. }
  assert (Hp0 : ∀ u, (0 ≤ u)%Z → (0 < 2 ^ u)%Z) by (intros u Hu; by apply Z.pow_pos_nonneg).
  destruct (Qle_bool (pow2 (la - lb)) (a # b)) eqn:Hle.
  - split; [by apply Qle_bool_iff|].
    apply pow2_gt_frac.
    destruct (Z.le_gt_cases 0 (la - lb + 1)) as [He|He].
    + rewrite Z.max_r, Z.max_l, Z.pow_0_r by lia.
      replace (Z.succ la) with ((la - lb + 1) + lb)%Z in Hua by lia.
      rewrite Hpow in Hua by lia.
      pose proof (Hp0 (la - lb + 1)%Z He). nia.
    + rewrite Z.max_l, Z.max_r, Z.pow_0_r by lia.
      replace lb with (Z.succ la + - (la - lb + 1))%Z in Hlb by lia.
      rewrite Hpow in Hlb by lia.
      pose proof (Hp0 (- (la - lb + 1))%Z ltac:(lia)). nia.
  - split.
    + apply pow2_le_frac.
      destruct (Z.le_gt_cases 0 (la - lb - 1)) as [He|He].
      * rewrite Z.max_l, Z.max_r, Z.pow_0_r by lia.
        replace la with ((la - lb - 1) + Z.succ lb)%Z in Hla by lia.
        rewrite Hpow in Hla by lia.
        pose proof (Hp0 (la - lb - 1)%Z He). nia.
      * rewrite Z.max_r, Z.max_l, Z.pow_0_r by lia.
        replace (Z.succ lb) with (la + - (la - lb - 1))%Z in Hub by lia.
        rewrite Hpow in Hub by lia.
        pose proof (Hp0 (- (la - lb - 1))%Z ltac:(lia)). nia.
    + replace (la - lb - 1 + 1)%Z with (la - lb)%Z by lia.
      apply Qnot_le_lt. intros H. apply Qle_bool_iff in H. congruence.
Qed.

(** An integer is a multiple of every quantum [2**e], [e <= 0]. *)
Lemma pow2_multiple (e z : Z) :
  (e ≤ 0)%Z → (inject_Z z == inject_Z (z * 2 ^ (- e)) * pow2 e)%Q.
Proof.
  intros He. destruct e as [|p|p]; [| lia |].
  - simpl. rewrite Z.mul_1_r. ring.
  - simpl pow2. unfold Qeq, Qmult, inject_Z. cbn [Qnum Qden].
    change (- Z.neg p)%Z with (Z.pos p).
    rewrite Pos2Z.inj_mul, Pos2Z.inj_pow. lia.
Qed.

(** Rounding to a quantum does not cross a multiple of the quantum. *)
Lemma round_quantum_le (x : Q) (e j : Z) :
  (0 <= x)%Q → (x <= inject_Z j * pow2 e)%Q →
  (inject_Z (Py.round (x / pow2 e)) * pow2 e <= inject_Z j * pow2 e)%Q.
Proof.
  intros H0 Hj. pose proof (pow2_pos e) as Hq.
  apply Qmult_le_compat_r; [|by apply Qlt_le_weak].
  rewrite <- Zle_Qle. apply round_bounds.
  - apply Qle_shift_div_l; [done|]. by rewrite Qmult_0_l.
  - by apply Qle_shift_div_r.
Qed.

Lemma round_quantum_ge (x : Q) (e j : Z) :
  (inject_Z j * pow2 e <= x)%Q →
  (inject_Z j * pow2 e <= inject_Z (Py.round (x / pow2 e)) * pow2 e)%Q.
Proof.
  intros Hj. pose proof (pow2_pos e) as Hq.
  apply Qmult_le_compat_r; [|by apply Qlt_le_weak].
  rewrite <- Zle_Qle. apply round_at_least.
  by apply Qle_shift_div_l.
Qed.

Section FloatRound.

Variables prec emin : Z.
Hypothesis Hprec : (1 ≤ prec)%Z.
Hypothesis Hemin : (emin ≤ 0)%Z.

(** Rounding to a float does not cross an integer of at most [prec] bits. *)
Lemma float_round_le_int (x : Q) (z : Z) :
  (0 <= x)%Q → (x <= inject_Z z)%Q → (z ≤ 2 ^ prec)%Z →
  (float_round prec emin x <= inject_Z z)%Q.
Proof.
  intros H0 Hz Hzp. unfold float_round.
  destruct (Qeq_bool x 0) eqn:Hx0.
  { by apply Qle_trans with x. }
  apply Qeq_bool_neq in Hx0.
  destruct (ilog2_spec x Hx0) as [Hlow _].
  rewrite (Qabs_pos x H0) in Hlow.
  set (E := ilog2 x) in *.
  assert (HE : (E ≤ prec)%Z).
  { destruct (Z.le_gt_cases E prec) as [|Hgt]; [done|]. exfalso.
    rewrite pow2_of_nonneg in Hlow by lia.
    assert (Hc : (inject_Z (2 ^ E) <= inject_Z z)%Q) by (by apply Qle_trans with x).
    rewrite <- Zle_Qle in Hc.
    assert (2 ^ prec < 2 ^ E)%Z by (apply Z.pow_lt_mono_r; lia). lia. }
  destruct (Z.le_gt_cases (Z.max (E - (prec - 1)) emin) 0) as [He|He].
  - rewrite (pow2_multiple _ z He). apply round_quantum_le; [done|].
    by rewrite <- (pow2_multiple _ z He).
  - assert (HEp : E = prec) by lia.
    assert (Hmax : Z.max (E - (prec - 1)) emin = 1%Z) by lia.
    rewrite Hmax. rewrite HEp in Hlow.
    rewrite pow2_of_nonneg in Hlow by lia.
    assert (Hc : (inject_Z (2 ^ prec) <= inject_Z z)%Q) by (by apply Qle_trans with x).
    rewrite <- Zle_Qle in Hc.
    assert (Hzeq : z = (2 ^ (prec - 1) * 2)%Z).
    { assert (Hp2 : (2 ^ prec = 2 ^ (prec - 1) * 2)%Z); [|lia].
      replace prec with (Z.succ (prec - 1)) at 1 by lia.
      rewrite Z.pow_succ_r by lia. lia. }
    assert (Hzq : (inject_Z z == inject_Z (2 ^ (prec - 1)) * pow2 1)%Q).
    { rewrite Hzeq. simpl pow2. by rewrite inject_Z_mult. }
    rewrite Hzq. apply round_quantum_le; [done|]. by rewrite <- Hzq.
Qed.

Lemma float_round_ge_int (x : Q) (z : Z) :
  (0 ≤ z)%Z → (z ≤ 2 ^ prec)%Z → (inject_Z z <= x)%Q →
  (inject_Z z <= float_round prec emin x)%Q.
Proof.
  intros Hz0 Hzp Hz. unfold float_round.
  assert (H0 : (0 <= x)%Q).
  { apply Qle_trans with (inject_Z z); [|done].
    change 0%Q with (inject_Z 0). by rewrite <- Zle_Qle. }
  destruct (Qeq_bool x 0) eqn:Hx0.
  { apply Qeq_bool_iff in Hx0. by rewrite <- Hx0. }
  apply Qeq_bool_neq in Hx0.
  destruct (ilog2_spec x Hx0) as [Hlow _].
  rewrite (Qabs_pos x H0) in Hlow.
  set (E := ilog2 x) in *.
  destruct (Z.le_gt_cases (Z.max (E - (prec - 1)) emin) 0) as [He|He].
  - rewrite (pow2_multiple _ z He) at 1. apply round_quantum_ge.
    by rewrite <- (pow2_multiple _ z He).
  - assert (Hmax : Z.max (E - (prec - 1)) emin = (E - (prec - 1))%Z) by lia.
    rewrite Hmax.
    assert (HE : (2 ^ E = 2 ^ (prec - 1) * 2 ^ (E - (prec - 1)))%Z).
    { rewrite <- Z.pow_add_r by lia. f_equal. lia. }
    assert (Hq : (inject_Z (2 ^ E) == inject_Z (2 ^ (prec - 1)) * pow2 (E - (prec - 1)))%Q).
    { rewrite pow2_of_nonneg by lia. by rewrite <- inject_Z_mult, HE. }
    rewrite pow2_of_nonneg in Hlow by lia.
    apply Qle_trans with (inject_Z (2 ^ E)).
    + rewrite <- Zle_Qle.
      assert (2 ^ prec ≤ 2 ^ E)%Z by (apply Z.pow_le_mono_r; lia). lia.
    + rewrite Hq. apply round_quantum_ge. by rewrite <- Hq.
Qed.

End FloatRound.

(** ** Rounding is monotone and symmetric *)

Lemma floor_unique (x : Q) (n : Z) :
  (inject_Z n <= x)%Q → (x < inject_Z (n + 1))%Q → Qfloor x = n.
Proof.
  intros Hl Hu.
  assert (H1 : (n ≤ Qfloor x)%Z).
  { rewrite <- (Qfloor_Z n). by apply Qfloor_resp_le. }
  assert (H2 : (Qfloor x < n + 1)%Z).
  { rewrite Zlt_Qlt. apply Qle_lt_trans with x; [apply Qfloor_le|done]. }
  lia.
Qed.

Lemma inject_Z_minus (a b : Z) : (inject_Z (a - b) == inject_Z a - inject_Z b)%Q.
Proof. unfold Z.sub. by rewrite inject_Z_plus, inject_Z_opp. Qed.

Lemma round_comp (x y : Q) : (x == y)%Q → Py.round x = Py.round y.
Proof.
  intros H. unfold Py.round. rewrite (Qfloor_comp _ _ H).
  assert (Hc : (x - inject_Z (Qfloor y) ?= 1 # 2)%Q = (y - inject_Z (Qfloor y) ?= 1 # 2)%Q)
    by (by rewrite H).
  by rewrite Hc.
Qed.

(** [round] is within a half of its argument. *)
Lemma round_half (x : Q) :
  (inject_Z (Py.round x) - (1 # 2) <= x)%Q ∧ (x <= inject_Z (Py.round x) + (1 # 2))%Q.
Proof.
  pose proof (Qfloor_le x) as Hl. pose proof (Qlt_floor x) as Hu.
  unfold Py.round. set (f := Qfloor x) in *.
  rewrite inject_Z_plus in Hu. change (inject_Z 1) with 1%Q in Hu.
  destruct (x - inject_Z f ?= 1 # 2)%Q eqn:Hc.
  - apply (proj2 (Qeq_alt _ _)) in Hc.
    destruct (Z.even f); rewrite ?inject_Z_plus; change (inject_Z 1) with 1%Q;
      split; lra.
  - apply (proj2 (Qlt_alt _ _)) in Hc. split; lra.
  - apply (proj2 (Qgt_alt _ _)) in Hc. rewrite inject_Z_plus. change (inject_Z 1) with 1%Q.
    split; lra.
Qed.

Lemma round_monotone (x y : Q) : (x <= y)%Q → (Py.round x ≤ Py.round y)%Z.
Proof.
  intros Hxy.
  destruct (Z.le_gt_cases (Py.round x) (Py.round y)) as [|Hgt]; [done|]. exfalso.
  destruct (round_half x) as [Hx _]. destruct (round_half y) as [_ Hy].
  assert (H1 : (inject_Z (Py.round y) + 1 <= inject_Z (Py.round x))%Q).
  { change 1%Q with (inject_Z 1). rewrite <- inject_Z_plus, <- Zle_Qle. lia. }
  assert (Heq : (x == y)%Q) by lra.
  rewrite (round_comp x y Heq) in Hgt. lia.
Qed.

(** Strictly inside a half of an integer, [round] is that integer; at a
    half above an integer it is the even neighbour. *)
Lemma round_unique (x : Q) (n : Z) :
  (inject_Z n - (1 # 2) < x)%Q → (x < inject_Z n + (1 # 2))%Q → Py.round x = n.
Proof.
  intros Hl Hu.
  destruct (Qlt_le_dec x (inject_Z n)) as [Hlt|Hge].
  - assert (Hf : Qfloor x = (n - 1)%Z).
    { apply floor_unique.
      - rewrite inject_Z_minus. change (inject_Z 1) with 1%Q. lra.
      - replace (n - 1 + 1)%Z with n by lia. done. }
    unfold Py.round. rewrite Hf.
    assert (Hc : (x - inject_Z (n - 1) ?= 1 # 2)%Q = Gt).
    { apply (proj1 (Qgt_alt _ _)). rewrite inject_Z_minus. change (inject_Z 1) with 1%Q. lra. }
    rewrite Hc. lia.
  - assert (Hf : Qfloor x = n).
    { apply floor_unique; [done|]. rewrite inject_Z_plus.
      change (inject_Z 1) with 1%Q. lra. }
    unfold Py.round. rewrite Hf.
    assert (Hc : (x - inject_Z n ?= 1 # 2)%Q = Lt) by (apply (proj1 (Qlt_alt _ _)); lra).
    by rewrite Hc.
Qed.

Lemma round_tie (x : Q) (n : Z) :
  (x == inject_Z n + (1 # 2))%Q → Py.round x = if Z.even n then n else (n + 1)%Z.
Proof.
  intros Hx.
  assert (Hf : Qfloor x = n).
  { apply floor_unique; [lra|]. rewrite inject_Z_plus.
    change (inject_Z 1) with 1%Q. lra. }
  unfold Py.round. rewrite Hf.
  assert (Hc : (x - inject_Z n ?= 1 # 2)%Q = Eq) by (apply (proj1 (Qeq_alt _ _)); lra).
  by rewrite Hc.
Qed.

Lemma round_opp (x : Q) : Py.round (- x) = (- Py.round x)%Z.
Proof.
  pose proof (Qfloor_le x) as Hl. pose proof (Qlt_floor x) as Hu.
  rewrite inject_Z_plus in Hu. change (inject_Z 1) with 1%Q in Hu.
  unfold Py.round at 2. set (f := Qfloor x) in *.
  destruct (x - inject_Z f ?= 1 # 2)%Q eqn:Hc.
  - apply (proj2 (Qeq_alt _ _)) in Hc.
    rewrite (round_tie (- x) (- f - 1)).
    + rewrite Z.even_sub, Z.even_opp. simpl.
      destruct (Z.even f); simpl; lia.
    + rewrite inject_Z_minus, inject_Z_opp. change (inject_Z 1) with 1%Q. lra.
  - apply (proj2 (Qlt_alt _ _)) in Hc. apply round_unique; rewrite inject_Z_opp; lra.
  - apply (proj2 (Qgt_alt _ _)) in Hc.
    apply round_unique; rewrite inject_Z_opp, inject_Z_plus;
      change (inject_Z 1) with 1%Q; lra.
Qed.

(** ** Powers of two *)

Lemma pow2_Qpower (e : Z) : (pow2 e == 2 ^ e)%Q.
Proof.
  destruct e as [|p|p]; simpl pow2.
  - reflexivity.
  - by rewrite Zpower_Qpower.
  - change (2 ^ Z.neg p)%Q with (/ (inject_Z 2 ^ Z.pos p))%Q.
    rewrite <- Zpower_Qpower by done.
    by rewrite <- Pos2Z.inj_pow.
Qed.

Lemma pow2_add (a b : Z) : (pow2 (a + b) == pow2 a * pow2 b)%Q.
Proof. rewrite !pow2_Qpower. by apply Qpower_plus. Qed.

Lemma pow2_le (a b : Z) : (a ≤ b)%Z → (pow2 a <= pow2 b)%Q.
Proof. intros H. rewrite !pow2_Qpower. by apply Qpower_le_compat_l. Qed.

Lemma pow2_lt_inv (a b : Z) : (pow2 a < pow2 b)%Q → (a < b)%Z.
Proof. rewrite !pow2_Qpower. intros H. by apply (Qpower_lt_compat_l_inv 2). Qed.

Lemma ilog2_unique (x : Q) (e : Z) :
  ¬ (x == 0)%Q → (pow2 e <= Qabs x)%Q → (Qabs x < pow2 (e + 1))%Q → ilog2 x = e.
Proof.
  intros Hx Hl Hu. destruct (ilog2_spec x Hx) as [Hl' Hu'].
  assert (ilog2 x < e + 1)%Z by (apply pow2_lt_inv; by eapply Qle_lt_trans).
  assert (e < ilog2 x + 1)%Z by (apply pow2_lt_inv; by eapply Qle_lt_trans).
  lia.
Qed.

Lemma ilog2_comp (x y : Q) : (x == y)%Q → ¬ (x == 0)%Q → ilog2 x = ilog2 y.
Proof.
  intros Hxy Hx.
  assert (Hy : ¬ (y == 0)%Q) by (by rewrite <- Hxy).
  destruct (ilog2_spec y Hy) as [Hl Hu].
  apply ilog2_unique; [done| |]; by rewrite Hxy.
Qed.

Lemma ilog2_opp (x : Q) : ¬ (x == 0)%Q → ilog2 (- x) = ilog2 x.
Proof.
  intros Hx. destruct (ilog2_spec x Hx) as [Hl Hu].
  apply ilog2_unique; [|by rewrite Qabs_opp..].
  intros H. apply Hx. lra.
Qed.

Lemma Qeq_bool_false (x y : Q) : ¬ (x == y)%Q → Qeq_bool x y = false.
Proof.
  intros H. destruct (Qeq_bool x y) eqn:Hb; [|done].
  by apply Qeq_bool_iff in Hb.
Qed.

Section FloatRoundOrder.

Variables prec emin : Z.
Hypothesis Hprec : (1 ≤ prec)%Z.
Hypothesis Hemin : (emin ≤ 0)%Z.

Lemma float_round_comp (x y : Q) :
  (x == y)%Q → (float_round prec emin x == float_round prec emin y)%Q.
Proof.
  intros Hxy. unfold float_round.
  destruct (Qeq_bool x 0) eqn:Hx0.
  - apply Qeq_bool_iff in Hx0.
    by rewrite (proj2 (Qeq_bool_iff y 0)) by (by rewrite <- Hxy).
  - apply Qeq_bool_neq in Hx0.
    assert (Hy0 : Qeq_bool y 0 = false).
    { destruct (Qeq_bool y 0) eqn:Hy0; [|done].
      apply Qeq_bool_iff in Hy0. destruct Hx0. by rewrite Hxy. }
    rewrite Hy0, <- (ilog2_comp x y Hxy Hx0).
    set (q := pow2 _).
    assert (Hq : (x / q == y / q)%Q) by (by rewrite Hxy).
    by rewrite (round_comp _ _ Hq).
Qed.

Lemma float_round_opp (x : Q) :
  (float_round prec emin (- x) == - float_round prec emin x)%Q.
Proof.
  unfold float_round.
  destruct (Qeq_bool x 0) eqn:Hx0.
  - apply Qeq_bool_iff in Hx0.
    by rewrite (proj2 (Qeq_bool_iff (- x) 0)) by lra.
  - apply Qeq_bool_neq in Hx0.
    assert (Hy0 : Qeq_bool (- x) 0 = false).
    { destruct (Qeq_bool (- x) 0) eqn:Hy0; [|done].
      apply Qeq_bool_iff in Hy0. destruct Hx0. lra. }
    rewrite Hy0, (ilog2_opp x Hx0).
    set (q := pow2 _).
    assert (Hq : (- x / q == - (x / q))%Q) by (unfold Qdiv; ring).
    rewrite (round_comp _ _ Hq), round_opp, inject_Z_opp. ring.
Qed.

Lemma float_round_nonneg (x : Q) : (0 <= x)%Q → (0 <= float_round prec emin x)%Q.
Proof.
  intros Hx. apply (float_round_ge_int prec emin Hprec Hemin x 0); [done| |done].
  apply Z.pow_nonneg. lia.
Qed.

(** Rounding to a float keeps the order. *)
Lemma float_round_monotone (x y : Q) :
  (0 <= x)%Q → (x <= y)%Q → (float_round prec emin x <= float_round prec emin y)%Q.
Proof.
  intros H0 Hxy.
  assert (Hy0 : (0 <= y)%Q) by lra.
  destruct (Qeq_bool x 0) eqn:Hx0.
  { unfold float_round at 1. rewrite Hx0. by apply float_round_nonneg. }
  apply Qeq_bool_neq in Hx0.
  assert (Hyn : ¬ (y == 0)%Q) by (intros H; apply Hx0; lra).
  destruct (ilog2_spec x Hx0) as [Hxl Hxu].
  destruct (ilog2_spec y Hyn) as [Hyl Hyu].
  rewrite (Qabs_pos x H0) in Hxl, Hxu. rewrite (Qabs_pos y Hy0) in Hyl, Hyu.
  unfold float_round.
  rewrite (Qeq_bool_false x 0), (Qeq_bool_false y 0) by done.
  set (Ex := ilog2 x) in *. set (Ey := ilog2 y) in *.
  assert (HE : (Ex ≤ Ey)%Z).
  { assert (Ex < Ey + 1)%Z; [|lia]. apply pow2_lt_inv. lra. }
  set (ex := Z.max (Ex - (prec - 1)) emin). set (ey := Z.max (Ey - (prec - 1)) emin).
  destruct (Z.eq_dec ex ey) as [Heq|Hne].
  - rewrite <- Heq. pose proof (pow2_pos ex) as Hq.
    apply Qmult_le_compat_r; [|lra].
    rewrite <- Zle_Qle. apply round_monotone.
    apply Qmult_le_compat_r; [done|]. apply Qlt_le_weak. by apply Qinv_lt_0_compat.
  - assert (Hey : ey = (Ey - (prec - 1))%Z) by lia.
    assert (Hlt : (ex < ey)%Z) by lia.
    assert (Hup : (pow2 (Ex + 1) <= pow2 (prec + ex))%Q) by (apply pow2_le; lia).
    assert (Hmid : (pow2 (prec + ex) <= pow2 Ey)%Q) by (apply pow2_le; lia).
    assert (Hx2 : (pow2 (prec + ex) == inject_Z (2 ^ prec) * pow2 ex)%Q).
    { by rewrite pow2_add, (pow2_of_nonneg prec) by lia. }
    assert (Hy2 : (pow2 Ey == inject_Z (2 ^ (prec - 1)) * pow2 ey)%Q).
    { replace Ey with ((prec - 1) + ey)%Z at 1 by lia.
      by rewrite pow2_add, (pow2_of_nonneg (prec - 1)) by lia. }
    apply Qle_trans with (pow2 (prec + ex)).
    + rewrite Hx2. apply round_quantum_le; [done|]. rewrite <- Hx2. lra.
    + apply Qle_trans with (pow2 Ey); [done|].
      rewrite Hy2. apply round_quantum_ge. by rewrite <- Hy2.
Qed.

Lemma float_round_abs (x : Q) :
  (Qabs (float_round prec emin x) == float_round prec emin (Qabs x))%Q.
Proof.
  destruct (Qlt_le_dec x 0) as [Hneg|Hpos].
  - assert (Hx : (Qabs x == - x)%Q) by (apply Qabs_neg; lra).
    rewrite (float_round_comp _ _ Hx), float_round_opp.
    apply Qabs_neg.
    assert (H : (0 <= float_round prec emin (- x))%Q) by (apply float_round_nonneg; lra).
    rewrite float_round_opp in H. lra.
  - rewrite (float_round_comp _ _ (Qabs_pos x Hpos)).
    apply Qabs_pos. by apply float_round_nonneg.
Qed.

Lemma float_round_abs_monotone (a b : Q) :
  (Qabs a <= Qabs b)%Q →
  (Qabs (float_round prec emin a) <= Qabs (float_round prec emin b))%Q.
Proof.
  intros H. rewrite !float_round_abs.
  apply float_round_monotone; [apply Qabs_nonneg|done].
Qed.

End FloatRoundOrder.

(** The float32 of a difference of smaller size is not of larger size. *)
Lemma fl32_abs_monotone (a b : Q) :
  (Qabs a <= Qabs b)%Q → (Qabs (fl32 a) <= Qabs (fl32 b))%Q.
Proof.
  intros H.
  pose proof (float_round_abs_monotone 24 (-149) ltac:(done) ltac:(done) a b H) as Hm.
  pose proof (pow2_pos 128) as HP.
  assert (Habs : ∀ y, (Qabs (if Qle_bool 0 y then pow2 128 else - pow2 128) == pow2 128)%Q).
  { intros y. destruct (Qle_bool 0 y).
    - apply Qabs_pos. lra.
    - rewrite Qabs_opp. apply Qabs_pos. lra. }
  unfold fl32.
  set (ya := float_round 24 (-149) a) in *. set (yb := float_round 24 (-149) b) in *.
  destruct (Qle_bool (pow2 128) (Qabs ya)) eqn:Ha, (Qle_bool (pow2 128) (Qabs yb)) eqn:Hb;
    rewrite ?Habs.
  - lra.
  - apply Qle_bool_iff in Ha.
    assert (Hb' : ¬ (pow2 128 <= Qabs yb)%Q).
    { intros Hc. apply Qle_bool_iff in Hc. congruence. }
    destruct Hb'. lra.
  - assert (Ha' : ¬ (pow2 128 <= Qabs ya)%Q).
    { intros Hc. apply Qle_bool_iff in Hc. congruence. }
    apply Qnot_le_lt in Ha'. lra.
  - done.
Qed.

Lemma fl64_zero (x : Q) : (x == 0)%Q → fl64 x = Some 0%Q.
Proof.
  intros Hx. unfold fl64, float_round.
  by rewrite (proj2 (Qeq_bool_iff x 0) Hx).
Qed.

(** A non-negative product below an integer of at most 53 bits does not
    overflow, and its float stays below that integer. *)
Lemma fl64_bounds (x : Q) (z : Z) :
  (0 <= x)%Q → (x <= inject_Z z)%Q → (z ≤ 2 ^ 53)%Z →
  ∃ y, fl64 x = Some y ∧ (0 <= y)%Q ∧ (y <= inject_Z z)%Q.
Proof.
  intros H0 Hz Hz53. unfold fl64.
  set (y := float_round 53 (-1074) x).
  assert (Hy0 : (0 <= y)%Q).
  { by apply (float_round_ge_int 53 (-1074) ltac:(done) ltac:(done) x 0). }
  assert (Hyz : (y <= inject_Z z)%Q).
  { by apply (float_round_le_int 53 (-1074) ltac:(done) ltac:(done)). }
  exists y. split; [|done].
  destruct (Qle_bool (pow2 1024) (Qabs y)) eqn:Hov; [|done]. exfalso.
  apply Qle_bool_iff in Hov. rewrite (Qabs_pos y Hy0) in Hov.
  assert (Hbig : (inject_Z (2 ^ 53) < pow2 1024)%Q) by reflexivity.
  apply (Qlt_not_le _ _ Hbig).
  apply Qle_trans with y; [done|].
  apply Qle_trans with (inject_Z z); [done|]. by rewrite <- Zle_Qle.
Qed.

Lemma fl64_at_least (x y : Q) (z : Z) :
  (0 ≤ z)%Z → (z ≤ 2 ^ 53)%Z → (inject_Z z <= x)%Q →
  fl64 x = Some y → (inject_Z z <= y)%Q.
Proof.
  intros Hz0 Hz53 Hz. unfold fl64.
  destruct (Qle_bool _ _); [done|]. intros [= <-].
  by apply (float_round_ge_int 53 (-1074) ltac:(done) ltac:(done)).
Qed.

(** A length of at most 2**53 is a float. *)
Lemma float_of_len_exact (n : nat) :
  (Z.of_nat n ≤ 2 ^ 53)%Z → (float_of_len n == inject_Z (Z.of_nat n))%Q.
Proof.
  intros Hn. unfold float_of_len.
  assert (H0 : (0 <= inject_Z (Z.of_nat n))%Q).
  { change 0%Q with (inject_Z 0). rewrite <- Zle_Qle. lia. }
  apply Qle_antisym.
  - apply (float_round_le_int 53 (-1074) ltac:(done) ltac:(done)); [done| |done].
    apply Qle_refl.
  - apply (float_round_ge_int 53 (-1074) ltac:(done) ltac:(done)); [lia|done|].
    apply Qle_refl.
Qed.

(** float32 at work: 0.1 is not a float32, 2**24 + 1 is rounded to the
    even neighbour, and a value beyond the largest float32 is kept as
    2**128. *)
Lemma fl32_examples :
  (fl32 (1 # 10) == 13421773 # 134217728)%Q ∧
  (fl32 (inject_Z (2 ^ 24 + 1)) == inject_Z (2 ^ 24))%Q ∧
  (fl32 (inject_Z (2 ^ 24 + 3)) == inject_Z (2 ^ 24 + 4))%Q ∧
  (fl32 (inject_Z (4 * 10 ^ 38)) == pow2 128)%Q.
Proof. vm_compute. by repeat split. Qed.

(** ** The threshold *)

Lemma threshold_idx_zero (n : nat) : threshold_idx 0 n = Some 0%Z.
Proof.
  assert (H1 : fl64 0 = Some 0%Q) by (by apply fl64_zero).
  assert (H2 : fl64 (0 * float_of_len n) = Some 0%Q) by apply fl64_zero, Qmult_0_l.
  unfold threshold_idx. rewrite H1. cbn [mbind option_bind]. by rewrite H2.
Qed.

(** A level in [0, 1] gives a threshold between 0 and the length. *)
Lemma threshold_idx_bounds (s : Q) (n : nat) :
  (0 <= s)%Q → (s <= 1)%Q → (Z.of_nat n ≤ 2 ^ 53)%Z →
  ∃ k, threshold_idx s n = Some k ∧ (0 ≤ k ≤ Z.of_nat n)%Z.
Proof.
  intros H0 H1 Hn. unfold threshold_idx.
  destruct (fl64_bounds s 1 H0 H1 ltac:(done)) as (s' & -> & Hs0 & Hs1).
  cbn [mbind option_bind].
  pose proof (float_of_len_exact n Hn) as HL.
  assert (HL0 : (0 <= float_of_len n)%Q).
  { rewrite HL. change 0%Q with (inject_Z 0). rewrite <- Zle_Qle. lia. }
  destruct (fl64_bounds (s' * float_of_len n) (Z.of_nat n)) as (p & -> & Hp0 & Hpn);
    [by apply Qmult_le_0_compat| |done|].
  { apply Qle_trans with (1 * float_of_len n)%Q; [by apply Qmult_le_compat_r|].
    rewrite Qmult_1_l, HL. apply Qle_refl. }
  cbn [mbind option_bind]. eexists. split; [done|]. by apply round_bounds.
Qed.

(** A level of 1 or more gives a threshold of at least the length. *)
Lemma threshold_idx_at_least (s : Q) (n : nat) (k : Z) :
  (1 <= s)%Q → (Z.of_nat n ≤ 2 ^ 53)%Z →
  threshold_idx s n = Some k → (Z.of_nat n ≤ k)%Z.
Proof.
  intros H1 Hn. unfold threshold_idx.
  destruct (fl64 s) as [s'|] eqn:Hs'; [|done]. cbn [mbind option_bind].
  apply (fl64_at_least s s' 1 ltac:(done) ltac:(done) H1) in Hs'.
  pose proof (float_of_len_exact n Hn) as HL.
  assert (HL0 : (0 <= float_of_len n)%Q).
  { rewrite HL. change 0%Q with (inject_Z 0). rewrite <- Zle_Qle. lia. }
  destruct (fl64 (s' * float_of_len n)) as [p|] eqn:Hp; [|done].
  cbn [mbind option_bind].
  intros [= <-]. apply round_at_least.
  apply (fl64_at_least (s' * float_of_len n) p (Z.of_nat n)); [lia|done| |done].
  apply Qle_trans with (1 * float_of_len n)%Q; [|by apply Qmult_le_compat_r].
  rewrite Qmult_1_l, HL. apply Qle_refl.
Qed.

(** The threshold on float products that differ from the products of
    the decimal levels: 0.7 * 45 is 31.499999999999996 and gives 31, not
    32; 0.1 * 5 is 0.5 and gives 0; 0.8333333333333334 * 3 is 2.5 and
    gives 2, not 3; 1e308 * 4 is infinite, and [round] raises. *)
Lemma threshold_idx_float_products :
  threshold_idx (7 # 10) 45 = Some 31%Z ∧
  threshold_idx (1 # 10) 5 = Some 0%Z ∧
  threshold_idx (8333333333333334 # 10000000000000000) 3 = Some 2%Z ∧
  threshold_idx (inject_Z (10 ^ 308)) 4 = None.
Proof. vm_compute. by repeat split. Qed.

(** An exact product: when the level, as a float, times the length is
    an integer, the threshold is that integer. *)
Lemma threshold_idx_exact (s s' : Q) (n : nat) (z : Z) :
  (Z.of_nat n ≤ 2 ^ 53)%Z → (0 ≤ z ≤ Z.of_nat n)%Z →
  fl64 s = Some s' → (s' * inject_Z (Z.of_nat n) == inject_Z z)%Q →
  threshold_idx s n = Some z.
Proof.
  intros Hn Hz Hs' Hprod. unfold threshold_idx. rewrite Hs'.
  cbn [mbind option_bind].
  pose proof (float_of_len_exact n Hn) as HL.
  assert (Hx : (s' * float_of_len n == inject_Z z)%Q) by (by rewrite HL).
  assert (Hz0 : (0 <= inject_Z z)%Q).
  { change 0%Q with (inject_Z 0). rewrite <- Zle_Qle. lia. }
  destruct (fl64_bounds (s' * float_of_len n) z) as (p & Hp & _ & Hpz);
    [by rewrite Hx|rewrite Hx; apply Qle_refl|lia|].
  rewrite Hp. cbn [mbind option_bind]. f_equal. apply round_integer.
  apply Qle_antisym; [done|].
  apply (fl64_at_least (s' * float_of_len n) p z); [lia|lia| |done].
  rewrite Hx. apply Qle_refl.
Qed.

Lemma slice_to_take {A} (l : list A) (k : Z) :
  (0 ≤ k)%Z → Py.slice_to l k = take (Z.to_nat k) l.
Proof. intros Hk. unfold Py.slice_to. by rewrite (proj2 (Z.leb_le 0 k) Hk). Qed.

Lemma slice_to_sublist {A} (l : list A) (k : Z) : Py.slice_to l k `sublist_of` l.
Proof. unfold Py.slice_to. destruct (0 <=? k)%Z; apply sublist_take. Qed.

(** ** Index assignment *)

Lemma index_put_zero_Some (idx : list nat) : ∀ v,
  Forall (λ i, i < length v) idx → is_Some (index_put_zero v idx).
Proof.
  induction idx as [|i idx IH]; intros v Hv; simpl; [by eexists|].
  inversion_clear Hv as [|? ? Hi Hrest].
  rewrite decide_True by done.
  apply IH. by rewrite length_insert.
Qed.

Lemma index_put_zero_length (idx : list nat) : ∀ v v',
  index_put_zero v idx = Some v' → length v' = length v.
Proof.
  induction idx as [|i idx IH]; intros v v' Hv; simpl in Hv; [congruence|].
  case_decide; [|done].
  apply IH in Hv. by rewrite length_insert in Hv.
Qed.

Lemma index_put_zero_in_range (idx : list nat) : ∀ v v',
  index_put_zero v idx = Some v' → Forall (λ i, i < length v) idx.
Proof.
  induction idx as [|i idx IH]; intros v v' Hv; simpl in Hv; [constructor|].
  case_decide; [|done].
  constructor; [done|].
  apply IH in Hv. by rewrite length_insert in Hv.
Qed.

Lemma index_put_zero_lookup (idx : list nat) : ∀ v v' i,
  index_put_zero v idx = Some v' →
  v' !! i = if decide (i ∈ idx) then (λ _, 0%Q) <$> v !! i else v !! i.
Proof.
  induction idx as [|j idx IH]; intros v v' i Hv; simpl in Hv.
  - injection Hv as <-. rewrite decide_False; [done | apply not_elem_of_nil].
  - case_decide as Hj; [|done].
    rewrite (IH _ _ i Hv).
    destruct (decide (i = j)) as [->|Hne].
    + rewrite list_lookup_insert_eq by done.
      rewrite (decide_True (P := j ∈ j :: idx)) by apply list_elem_of_here.
      apply lookup_lt_is_Some_2 in Hj as [x ->]. by case_decide.
    + rewrite list_lookup_insert_ne by done.
      destruct (decide (i ∈ idx)) as [Hin|Hin].
      * by rewrite decide_True by (by apply list_elem_of_further).
      * rewrite decide_False; [done|].
        rewrite elem_of_cons. tauto.
Qed.

Lemma index_put_zero_binary (idx : list nat) : ∀ v v',
  index_put_zero v idx = Some v' →
  Forall (λ x, x = 0%Q ∨ x = 1%Q) v → Forall (λ x, x = 0%Q ∨ x = 1%Q) v'.
Proof.
  induction idx as [|j idx IH]; intros v v' Hv Hb; simpl in Hv.
  - by injection Hv as <-.
  - case_decide; [|done].
    apply (IH _ _ Hv).
    apply Forall_insert; auto.
Qed.

Lemma count_zeros_insert (v : list Q) : ∀ i x,
  v !! i = Some x → is_zero x = false →
  count_zeros (<[i := 0%Q]> v) = S (count_zeros v).
Proof.
  unfold count_zeros.
  induction v as [|y v IH]; intros [|i] x Hx Hz; try done.
  - injection Hx as ->.
    change (<[0:=0%Q]> (x :: v)) with (0%Q :: v).
    rewrite filter_cons_True by done.
    rewrite filter_cons_False by (by rewrite Hz). done.
  - change (<[S i:=0%Q]> (y :: v)) with (y :: <[i:=0%Q]> v).
    change ((y :: v) !! S i) with (v !! i) in Hx.
    rewrite !filter_cons. specialize (IH _ _ Hx Hz).
    case_decide; simpl; by rewrite IH.
Qed.

Lemma index_put_zero_count (idx : list nat) : ∀ v v',
  NoDup idx →
  (∀ i, i ∈ idx → ∃ x, v !! i = Some x ∧ is_zero x = false) →
  index_put_zero v idx = Some v' →
  count_zeros v' = count_zeros v + length idx.
Proof.
  induction idx as [|j idx IH]; intros v v' Hnd Hnz Hv; simpl in Hv.
  - injection Hv as <-. simpl. lia.
  - case_decide; [|done].
    apply NoDup_cons in Hnd as [Hj Hnd].
    rewrite (IH _ _ Hnd) with (2 := Hv).
    + destruct (Hnz j) as (x & Hx & Hz); [apply list_elem_of_here|].
      rewrite (count_zeros_insert _ _ _ Hx Hz). simpl. lia.
    + intros i Hi.
      destruct (Hnz i) as (x & Hx & Hz); [by apply list_elem_of_further|].
      exists x. split; [|done].
      rewrite list_lookup_insert_ne; [done|].
      intros ->. done.
Qed.

Lemma count_zeros_ones (n : nat) : count_zeros (replicate n 1%Q) = 0.
Proof.
  unfold count_zeros. induction n as [|n IH]; [done|].
  simpl. by rewrite filter_cons_False.
Qed.

(** ** Sorting *)

Lemma ascending_cons (x : Q) (v : list Q) :
  ascending (x :: v) = true ↔
  match v with [] => True | y :: _ => (x <= y)%Q end ∧ ascending v = true.
Proof.
  destruct v as [|y v]; simpl; [tauto|].
  rewrite andb_true_iff, Qle_bool_iff. tauto.
Qed.

Lemma ascending_head (x : Q) (v : list Q) :
  ascending (x :: v) = true → Forall (λ y, (x <= y)%Q) v.
Proof.
  revert x. induction v as [|y v IH]; intros x Hx; [constructor|].
  apply ascending_cons in Hx as [Hxy Hv].
  constructor; [done|].
  eapply Forall_impl; [by apply IH|].
  intros z Hz. simpl in Hz. by apply Qle_trans with y.
Qed.

Lemma ascending_lookup (v : list Q) : ∀ i j x y,
  ascending v = true → i ≤ j → v !! i = Some x → v !! j = Some y → (x <= y)%Q.
Proof.
  induction v as [|z v IH]; intros i j x y Hv Hij Hi Hj; [done|].
  destruct i as [|i].
  - injection Hi as ->. destruct j as [|j].
    + injection Hj as ->. apply Qle_refl.
    + apply ascending_head in Hv.
      rewrite Forall_forall in Hv. apply Hv.
      by eapply list_elem_of_lookup_2.
  - destruct j as [|j]; [lia|].
    apply ascending_cons in Hv as [_ Hv].
    eapply (IH i j); eauto with lia.
Qed.

Lemma is_sort_of_spec (v : list Q) (r : list Q * list nat) :
  is_sort_of v r = true →
  r.2 ≡ₚ seq 0 (length v) ∧ ascending (map (entry v) r.2) = true.
Proof.
  unfold is_sort_of. rewrite !andb_true_iff.
  intros [[Hlen Hall] Hasc]. split; [|done].
  apply bool_decide_eq_true in Hlen.
  symmetry. apply submseteq_length_Permutation.
  - apply NoDup_submseteq; [apply NoDup_seq|].
    intros i Hi. rewrite forallb_forall in Hall.
    specialize (Hall i). rewrite bool_decide_eq_true in Hall.
    apply Hall. by apply list_elem_of_In.
  - rewrite length_seq. lia.
Qed.

Lemma insert_index_perm (v : list Q) (i : nat) (l : list nat) :
  insert_index v i l ≡ₚ i :: l.
Proof.
  induction l as [|j l IH]; simpl; [done|].
  destruct (Qle_bool _ _); [done|].
  rewrite IH. apply perm_swap.
Qed.

Lemma insert_index_ascending (v : list Q) (i : nat) (l : list nat) :
  ascending (map (entry v) l) = true →
  ascending (map (entry v) (insert_index v i l)) = true.
Proof.
  induction l as [|j l IH]; intros Hl; [done|].
  simpl. destruct (Qle_bool (entry v i) (entry v j)) eqn:Hij.
  - change (ascending (entry v i :: map (entry v) (j :: l)) = true).
    apply ascending_cons. split; [|done].
    by apply Qle_bool_iff.
  - change (ascending (entry v j :: map (entry v) (insert_index v i l)) = true).
    change (ascending (entry v j :: map (entry v) l) = true) in Hl.
    apply ascending_cons in Hl as [Hhd Hl].
    apply ascending_cons. split; [|by apply IH].
    assert (Hji : (entry v j <= entry v i)%Q).
    { apply Qlt_le_weak, Qnot_le_lt. intros Hle.
      apply Qle_bool_iff in Hle. congruence. }
    destruct l as [|k l]; simpl; [done|].
    by destruct (Qle_bool (entry v i) (entry v k)).
Qed.

(** The insertion sort is a sort: the assumption made on [torch_sort]
    can be met on every input. *)
Lemma stable_sort_is_sort (v : list Q) : is_sort_of v (stable_sort v) = true.
Proof.
  assert (Hperm : ∀ l, foldr (insert_index v) [] l ≡ₚ l).
  { induction l as [|i l IH]; simpl; [done|].
    by rewrite insert_index_perm, IH. }
  assert (Hasc : ∀ l, ascending (map (entry v) (foldr (insert_index v) [] l)) = true).
  { induction l as [|i l IH]; simpl; [done|].
    by apply insert_index_ascending. }
  unfold is_sort_of, stable_sort, stable_argsort. simpl.
  rewrite !andb_true_iff. split; [split|].
  - apply bool_decide_eq_true. by rewrite Hperm, length_seq.
  - apply forallb_forall. intros i Hi.
    apply bool_decide_eq_true. rewrite Hperm. by apply list_elem_of_In.
  - apply Hasc.
Qed.

(** ** ClosestToMeanSparsifier.update_mask *)

Section UpdateMask.

Variable torch_mean : list Q → Q.
Variable torch_sort : list Q → list Q * list nat.

(** The selected indices are a slice of the sorted indices, at a
    threshold that tensor indexing takes. *)
Lemma selected_idx_Some (layer : Linear) (s : Q) (selected : list nat) :
  selected_idx torch_mean torch_sort layer s = Some selected ↔
  ∃ t,
    threshold_idx s (length (torch_sort (distance_to_mean torch_mean (data (original layer)))).2)
      = Some t ∧
    (- 2 ^ 62 ≤ t)%Z ∧
    selected = Py.slice_to (torch_sort (distance_to_mean torch_mean (data (original layer)))).2 t.
Proof.
  unfold selected_idx, tensor_slice_to, flatten. split.
  - destruct (threshold_idx s _) as [t|]; [|done]. simpl.
    destruct (Z.ltb_spec t (- 2 ^ 62)); [done|].
    intros [= <-]. by exists t.
  - intros (t & -> & Ht & ->). simpl.
    by rewrite (proj2 (Z.ltb_ge t (- 2 ^ 62)) Ht).
Qed.

(** What a call that returns did. *)
Lemma update_mask_inv (layer layer' : Linear) (s : Q) :
  update_mask torch_mean torch_sort layer s = Some layer' →
  ∃ mask rest selected v,
    parametrizations layer = mask :: rest ∧
    selected_idx torch_mean torch_sort layer s = Some selected ∧
    index_put_zero (replicate (numel mask) 1%Q) selected = Some v ∧
    length v = numel mask ∧
    layer' = set_mask layer (Tensor (shape mask) v).
Proof.
  unfold update_mask, selected_idx, flatten, ones_like. simpl.
  destruct (parametrizations layer) as [|mask rest] eqn:Hp; [done|].
  simpl.
  destruct (threshold_idx s _) as [t|]; [|done]. simpl.
  destruct (tensor_slice_to _ t) as [selected|]; [|done]. simpl.
  intros H.
  destruct (index_put_zero _ _) as [v|] eqn:Hv; [|done].
  simpl in H. unfold reshape in H.
  pose proof (index_put_zero_length _ _ _ Hv) as Hlen.
  rewrite length_replicate in Hlen.
  case_decide; [|done]. simpl in H. injection H as <-.
  by exists mask, rest, selected, v.
Qed.

(** The same, read the other way: when the indices fit, the call
    returns. *)
Lemma update_mask_intro (layer : Linear) (s : Q) mask rest selected v :
  parametrizations layer = mask :: rest →
  selected_idx torch_mean torch_sort layer s = Some selected →
  index_put_zero (replicate (numel mask) 1%Q) selected = Some v →
  update_mask torch_mean torch_sort layer s = Some (set_mask layer (Tensor (shape mask) v)).
Proof.
  intros Hp Hsel Hv. revert Hsel.
  unfold update_mask, selected_idx, flatten, ones_like. rewrite Hp. simpl.
  destruct (threshold_idx s _) as [t|]; [|done]. simpl.
  intros ->. simpl.
  rewrite Hv. simpl. unfold reshape.
  pose proof (index_put_zero_length _ _ _ Hv) as Hlen.
  rewrite length_replicate in Hlen.
  by rewrite decide_True.
Qed.

(** A call raises when no index list is selected. *)
Lemma update_mask_no_selection (layer : Linear) (s : Q) :
  selected_idx torch_mean torch_sort layer s = None →
  update_mask torch_mean torch_sort layer s = None.
Proof.
  unfold update_mask, selected_idx, flatten.
  destruct (parametrizations layer !! 0) as [mask|]; [|done]. simpl.
  destruct (threshold_idx s _) as [t|]; [|done]. simpl.
  by intros ->.
Qed.

(** The lengths on which a call works are the number of weight entries. *)
Lemma sorted_idx_length (layer : Linear) :
  let d := distance_to_mean torch_mean (data (original layer)) in
  is_sort_of d (torch_sort d) = true →
  length d = length (data (original layer)) ∧
  length (torch_sort d).2 = length (data (original layer)).
Proof.
  intros d Hsort. apply is_sort_of_spec in Hsort as [Hperm _].
  assert (Hdn : length d = length (data (original layer))).
  { unfold d, distance_to_mean. by rewrite length_map. }
  split; [done|]. by rewrite Hperm, length_seq, Hdn.
Qed.

(** The mask that a call computes from a threshold that indexing takes:
    the selected indices are the slice of the sorted indices, each of
    them is set to 0 once, everything else is 1. *)
Lemma update_mask_selected (layer : Linear) (mask : tensor) (rest : list tensor)
    (s : Q) (t : Z) :
  let d := distance_to_mean torch_mean (data (original layer)) in
  let n := length (data (original layer)) in
  let selected := Py.slice_to (torch_sort d).2 t in
  parametrizations layer = mask :: rest →
  numel mask = n →
  is_sort_of d (torch_sort d) = true →
  threshold_idx s n = Some t →
  (- 2 ^ 62 ≤ t)%Z →
  ∃ v,
    update_mask torch_mean torch_sort layer s
      = Some (set_mask layer (Tensor (shape mask) v)) ∧
    length v = n ∧
    (∀ i, i < n → v !! i = Some (if decide (i ∈ selected) then 0%Q else 1%Q)) ∧
    count_zeros v = length selected.
Proof.
  intros d n selected Hp Hnum Hsort Ht Hrange.
  destruct (sorted_idx_length layer Hsort) as [Hdn Hlen].
  apply is_sort_of_spec in Hsort as [Hperm _].
  fold d in Hdn, Hlen. fold n in Hdn, Hlen.
  set (idx := (torch_sort d).2) in *.
  rewrite Hdn in Hperm.
  assert (Hnd : NoDup idx) by (rewrite Hperm; apply NoDup_seq).
  assert (Hsub : ∀ i, i ∈ selected → i < n).
  { intros i Hi.
    assert (Hin : i ∈ idx) by (eapply elem_of_sublist; [done|apply slice_to_sublist]).
    rewrite Hperm, elem_of_seq in Hin. lia. }
  destruct (index_put_zero_Some selected (replicate (numel mask) 1%Q)) as [v Hv].
  { apply Forall_forall. intros i Hi. rewrite length_replicate, Hnum. auto. }
  pose proof (index_put_zero_length _ _ _ Hv) as Hvlen.
  rewrite length_replicate, Hnum in Hvlen.
  exists v. split; [|split; [done|split]].
  - apply (update_mask_intro _ _ _ rest selected); [done| |done].
    apply selected_idx_Some. exists t. fold d idx. by rewrite Hlen.
  - intros i Hi. rewrite (index_put_zero_lookup _ _ _ i Hv).
    rewrite lookup_replicate_2 by lia. by case_decide.
  - assert (Hones : ∀ i, i ∈ selected →
              ∃ x, replicate (numel mask) 1%Q !! i = Some x ∧ is_zero x = false).
    { intros i Hi. exists 1%Q. split; [|done].
      apply lookup_replicate_2. rewrite Hnum. auto. }
    rewrite (index_put_zero_count _ _ _
               (sublist_NoDup _ _ Hnd (slice_to_sublist _ _)) Hones Hv).
    by rewrite count_zeros_ones.
Qed.

(** The mask that a call computes when the sort is a sort, the mask has
    as many entries as the weight, the level is in [0, 1] and the
    length is a float. *)
Lemma update_mask_sorted (layer : Linear) (mask : tensor) (rest : list tensor) (s : Q) :
  let d := distance_to_mean torch_mean (data (original layer)) in
  let n := length (data (original layer)) in
  parametrizations layer = mask :: rest →
  numel mask = n →
  is_sort_of d (torch_sort d) = true →
  (0 <= s)%Q → (s <= 1)%Q →
  (Z.of_nat n ≤ 2 ^ 53)%Z →
  ∃ v k,
    update_mask torch_mean torch_sort layer s
      = Some (set_mask layer (Tensor (shape mask) v)) ∧
    threshold_idx s n = Some (Z.of_nat k) ∧ k ≤ n ∧
    length v = n ∧
    count_zeros v = k ∧
    (∀ i, i < n → v !! i = Some 0%Q ∨ v !! i = Some 1%Q) ∧
    (∀ i j, v !! i = Some 0%Q → v !! j = Some 1%Q → (entry d i <= entry d j)%Q).
Proof.
  intros d n Hp Hnum Hsort H0 H1 Hn.
  destruct (threshold_idx_bounds s n H0 H1 Hn) as (t & Ht & Ht0 & Htn).
  destruct (update_mask_selected layer mask rest s t Hp Hnum Hsort Ht ltac:(lia))
    as (v & Hupd & Hvlen & Hlook & Hcount).
  destruct (sorted_idx_length layer Hsort) as [Hdn Hlen].
  apply is_sort_of_spec in Hsort as [Hperm Hasc].
  fold d in Hdn, Hlen, Hlook, Hcount. fold n in Hdn, Hlen, Hvlen, Hlook.
  set (idx := (torch_sort d).2) in *.
  rewrite Hdn in Hperm.
  assert (Hin : ∀ i, i ∈ idx ↔ i < n).
  { intros i. rewrite Hperm, elem_of_seq. lia. }
  set (k := Z.to_nat t).
  assert (Hslice : Py.slice_to idx t = take k idx) by (by apply slice_to_take).
  rewrite Hslice in Hlook, Hcount.
  exists v, k. split; [done|]. split; [|split; [|split; [|split; [|split]]]].
  - rewrite Ht. f_equal. unfold k. lia.
  - unfold k. lia.
  - done.
  - rewrite Hcount, length_take. unfold k. lia.
  - intros i Hi. rewrite (Hlook i Hi). case_decide; auto.
  - intros i j Hi Hj.
    assert (Hi' : i < n) by (rewrite <- Hvlen; by eapply lookup_lt_Some).
    assert (Hj' : j < n) by (rewrite <- Hvlen; by eapply lookup_lt_Some).
    rewrite (Hlook i Hi') in Hi. rewrite (Hlook j Hj') in Hj.
    destruct (decide (i ∈ take k idx)) as [Hit|]; [|done].
    destruct (decide (j ∈ take k idx)) as [|Hjt]; [done|].
    apply elem_of_take in Hit as (a & Ha & Hak).
    assert (Hjd : j ∈ drop k idx).
    { apply Hin in Hj'. rewrite <- (take_drop k idx) in Hj'.
      apply elem_of_app in Hj' as [|]; done. }
    apply list_elem_of_lookup in Hjd as (b & Hb).
    rewrite lookup_drop in Hb.
    apply (ascending_lookup _ a (k + b) _ _ Hasc); [lia| |];
      rewrite list_lookup_fmap; fold idx; [by rewrite Ha|by rewrite Hb].
Qed.

End UpdateMask.

(** An entry of the computed distances: the float32 difference between
    the entry and the mean that [mean()] returned, without its sign. *)
Lemma distance_entry (torch_mean : list Q → Q) (w : list Q) (i : nat) :
  i < length w →
  entry (distance_to_mean torch_mean w) i = Qabs (fl32 (entry w i - torch_mean w)).
Proof.
  intros Hi. unfold entry, distance_to_mean.
  rewrite list_lookup_fmap.
  apply lookup_lt_is_Some_2 in Hi as [x ->]. done.
Qed.

(** C8. For a layer whose weight has n entries, n at most 2**53, and a
    level s in [0, 1], [update_mask] returns, and in the new mask exactly
    int(round(s * n)) entries are 0, the product being the float product
    of the code, every other entry is 1, and every position set to 0 is
    at least as close to the mean as every position left at 1: the
    entries closest to the mean are removed.  The distances are the
    code's: the float32 differences to the mean that [mean()] returned,
    without their signs.  In real numbers: a position set to 0 is at
    least as close to that mean as a position left at 1, unless the two
    distances are the same float32. *)
Theorem update_mask_zeroes_closest_to_mean
    (torch_mean : list Q → Q) (torch_sort : list Q → list Q * list nat)
    (layer : Linear) (mask : tensor) (rest : list tensor) (s : Q) :
  let w := flatten (original layer) in
  let n := length w in
  parametrizations layer = mask :: rest →
  numel mask = n →
  is_sort_of (distance_to_mean torch_mean w) (torch_sort (distance_to_mean torch_mean w)) = true →
  (0 <= s)%Q → (s <= 1)%Q →
  (Z.of_nat n ≤ 2 ^ 53)%Z →
  ∃ new_mask k,
    update_mask torch_mean torch_sort layer s = Some (set_mask layer new_mask) ∧
    threshold_idx s n = Some k ∧
    Z.of_nat (count_zeros (data new_mask)) = k ∧
    length (data new_mask) = n ∧
    (∀ i, i < n → data new_mask !! i = Some 0%Q ∨ data new_mask !! i = Some 1%Q) ∧
    (∀ i j, data new_mask !! i = Some 0%Q → data new_mask !! j = Some 1%Q →
       (Qabs (fl32 (entry w i - torch_mean w)) <= Qabs (fl32 (entry w j - torch_mean w)))%Q ∧
       ((Qabs (entry w i - torch_mean w) <= Qabs (entry w j - torch_mean w))%Q ∨
        (Qabs (fl32 (entry w i - torch_mean w))
         == Qabs (fl32 (entry w j - torch_mean w)))%Q)).
Proof.
  intros w n Hp Hnum Hsort H0 H1 Hn.
  destruct (update_mask_sorted torch_mean torch_sort layer mask rest s Hp Hnum Hsort H0 H1 Hn)
    as (v & k & Hupd & Hk & Hkn & Hlen & Hcount & Hbin & Hord).
  exists (Tensor (shape mask) v), (Z.of_nat k). cbn [data shape].
  split; [done|]. split; [done|]. split; [by rewrite Hcount|]. split; [done|].
  split; [done|].
  intros i j Hi Hj.
  assert (Hfl : (Qabs (fl32 (entry w i - torch_mean w))
                 <= Qabs (fl32 (entry w j - torch_mean w)))%Q).
  { rewrite <- !distance_entry.
    - by apply Hord.
    - apply lookup_lt_Some in Hj. unfold w, flatten. by rewrite <- Hlen.
    - apply lookup_lt_Some in Hi. unfold w, flatten. by rewrite <- Hlen. }
  split; [done|].
  destruct (Qlt_le_dec (Qabs (entry w j - torch_mean w)) (Qabs (entry w i - torch_mean w)))
    as [Hlt|Hle]; [right|by left].
  apply Qle_antisym; [done|].
  apply fl32_abs_monotone. by apply Qlt_le_weak.
Qed.

Lemma update_mask_zeroes_closest_to_mean_witness :
  ∃ new_mask k,
    update_mask sequential_mean stable_sort layer_1x4 (3 # 4)
      = Some (set_mask layer_1x4 new_mask) ∧
    threshold_idx (3 # 4) 4 = Some k ∧
    Z.of_nat (count_zeros (data new_mask)) = k ∧
    length (data new_mask) = 4 ∧
    (∀ i, i < 4 → data new_mask !! i = Some 0%Q ∨ data new_mask !! i = Some 1%Q) ∧
    (∀ i j, data new_mask !! i = Some 0%Q → data new_mask !! j = Some 1%Q →
       (Qabs (fl32 (entry [1; 2; 3; 6] i - sequential_mean [1; 2; 3; 6]))
        <= Qabs (fl32 (entry [1; 2; 3; 6] j - sequential_mean [1; 2; 3; 6])))%Q ∧
       ((Qabs (entry [1; 2; 3; 6] i - sequential_mean [1; 2; 3; 6])
         <= Qabs (entry [1; 2; 3; 6] j - sequential_mean [1; 2; 3; 6]))%Q ∨
        (Qabs (fl32 (entry [1; 2; 3; 6] i - sequential_mean [1; 2; 3; 6]))
         == Qabs (fl32 (entry [1; 2; 3; 6] j - sequential_mean [1; 2; 3; 6])))%Q)).
Proof.
  apply (update_mask_zeroes_closest_to_mean sequential_mean stable_sort layer_1x4
           (Tensor [1; 4] [1; 1; 1; 1]%Q) [] (3 # 4));
    [reflexivity | reflexivity | vm_compute; reflexivity | discriminate | discriminate
    | vm_compute; discriminate].
Defined.

(** C5. A mask update keeps the mask a 0/1 tensor of the same shape: the
    mask that [update_mask] assigns is a ones tensor with selected
    entries set to 0, reshaped to the old mask's shape; the original
    weight is not touched, so a mask that had the shape of the weight
    still has it. *)
Theorem update_mask_preserves_mask_invariant
    (torch_mean : list Q → Q) (torch_sort : list Q → list Q * list nat)
    (layer layer' : Linear) (mask : tensor) (rest : list tensor) (s : Q) :
  parametrizations layer = mask :: rest →
  update_mask torch_mean torch_sort layer s = Some layer' →
  ∃ (new_mask : tensor) (selected : list nat),
    parametrizations layer' = new_mask :: rest ∧
    original layer' = original layer ∧
    shape new_mask = shape mask ∧
    tensor_wf new_mask ∧
    binary_mask new_mask ∧
    (∀ i, i < numel mask →
       data new_mask !! i = Some (if decide (i ∈ selected) then 0%Q else 1%Q)) ∧
    (shape mask = shape (original layer) → mask_invariant layer').
Proof.
  intros Hp Hupd.
  apply update_mask_inv in Hupd as (mask' & rest' & selected & v & Hp' & _ & Hv & Hlen & ->).
  rewrite Hp in Hp'. injection Hp' as <- <-.
  assert (Hbin : binary_mask (Tensor (shape mask) v)).
  { unfold binary_mask. simpl. apply (index_put_zero_binary _ _ _ Hv).
    apply Forall_replicate. auto. }
  exists (Tensor (shape mask) v), selected.
  simpl. rewrite Hp. simpl.
  assert (Hwf : tensor_wf (Tensor (shape mask) v)) by exact Hlen.
  split; [done|]. split; [done|]. split; [done|]. split; [done|]. split; [done|].
  split.
  - intros i Hi. rewrite (index_put_zero_lookup _ _ _ i Hv).
    rewrite lookup_replicate_2 by done. by case_decide.
  - intros Hshape. exists (Tensor (shape mask) v), rest. simpl. by rewrite Hp.
Qed.

Lemma update_mask_preserves_mask_invariant_witness :
  ∃ (new_mask : tensor) (selected : list nat),
    parametrizations (set_mask layer_1x4 (Tensor [1; 4] [0; 0; 0; 1]%Q)) = new_mask :: [] ∧
    original (set_mask layer_1x4 (Tensor [1; 4] [0; 0; 0; 1]%Q)) = original layer_1x4 ∧
    shape new_mask = [1; 4] ∧
    tensor_wf new_mask ∧
    binary_mask new_mask ∧
    (∀ i, i < 4 →
       data new_mask !! i = Some (if decide (i ∈ selected) then 0%Q else 1%Q)) ∧
    (([1; 4] : list nat) = [1; 4] →
     mask_invariant (set_mask layer_1x4 (Tensor [1; 4] [0; 0; 0; 1]%Q))).
Proof.
  apply (update_mask_preserves_mask_invariant sequential_mean stable_sort layer_1x4 _
           (Tensor [1; 4] [1; 1; 1; 1]%Q) [] (3 # 4));
    [reflexivity | reflexivity].
Defined.

(** C9. [update_mask] is idempotent: the mask is computed from the
    original weight and the shape of the old mask only, so a second call
    with the same level on the layer that the first call left returns
    that same layer, mask included. *)
Theorem update_mask_idempotent
    (torch_mean : list Q → Q) (torch_sort : list Q → list Q * list nat) (layer layer' : Linear) (s : Q) :
  update_mask torch_mean torch_sort layer s = Some layer' →
  update_mask torch_mean torch_sort layer' s = Some layer'.
Proof.
  intros Hupd.
  apply update_mask_inv in Hupd as (mask & rest & selected & v & Hp & Hsel & Hv & Hlen & ->).
  rewrite (update_mask_intro torch_mean torch_sort _ s (Tensor (shape mask) v) rest
             selected v).
  - unfold set_mask. simpl. by rewrite Hp.
  - simpl. by rewrite Hp.
  - exact Hsel.
  - simpl. exact Hv.
Qed.

Lemma update_mask_idempotent_witness :
  update_mask sequential_mean stable_sort (set_mask layer_1x4 (Tensor [1; 4] [0; 0; 0; 1]%Q)) (3 # 4)
  = Some (set_mask layer_1x4 (Tensor [1; 4] [0; 0; 0; 1]%Q)).
Proof.
  apply (update_mask_idempotent sequential_mean stable_sort layer_1x4); reflexivity.
Defined.

(** ** Schedules *)

Lemma scale_within_target (target f : Q) :
  (0 <= target)%Q → (0 <= f)%Q → (f <= 1)%Q →
  (0 <= target * f)%Q ∧ (target * f <= target)%Q.
Proof.
  intros Ht Hf0 Hf1. split.
  - by apply Qmult_le_0_compat.
  - rewrite <- (Qmult_1_r target) at 2.
    rewrite (Qmult_comm target f), (Qmult_comm target 1).
    by apply Qmult_le_compat_r.
Qed.

Lemma stepping_lambda_values (epoch : Z) :
  (0 ≤ epoch)%Z →
  stepping_lambda epoch =
    Some (if (epoch =? 0)%Z then 0%Q
          else if (epoch =? 1)%Z then (1 # 2)%Q
          else if (epoch =? 2)%Z then (3 # 4)%Q
          else 1%Q).
Proof.
  intros Hepoch. unfold stepping_lambda.
  destruct (decide (epoch = 0)%Z) as [->|]; [done|].
  destruct (decide (epoch = 1)%Z) as [->|]; [done|].
  destruct (decide (epoch = 2)%Z) as [->|]; [done|].
  destruct (decide (epoch = 3)%Z) as [->|]; [done|].
  rewrite (proj2 (Z.eqb_neq epoch 0)), (proj2 (Z.eqb_neq epoch 1)),
    (proj2 (Z.eqb_neq epoch 2)) by done.
  rewrite (proj2 (Z.leb_le _ epoch)); [done|]. simpl. lia.
Qed.

Lemma get_sl_cases (self : OnOffSchedulerSL) (sl : list Q) :
  get_sl self = Some sl →
  sl = replicate (length (base_sl self)) 0%Q ∨ sl = base_sl self.
Proof.
  unfold get_sl, chain_le_lt. intros H.
  repeat match type of H with
         | context [Py.index ?l ?i] => destruct (Py.index l i); simpl in H
         | context [if ?b then _ else _] => destruct b; simpl in H
         end;
    try discriminate; injection H as <-; auto.
Qed.

(** C6. The schedule functions keep the effective level between 0 and
    the target.  [stepping_lambda] returns, for every epoch >= 0, a factor
    in [0, 1] (0 at epoch 0, 1/2 at epoch 1, 3/4 at epoch 2, 1 from epoch
    3 on), so a target >= 0 scaled by it stays between 0 and the target;
    [get_sl], when it returns, returns one level per group, each either 0
    or the group's base level, hence between 0 and a base level >= 0. *)
Theorem schedules_within_target (epoch : Z) (self : OnOffSchedulerSL) (sl : list Q) :
  (0 ≤ epoch)%Z →
  get_sl self = Some sl →
  (∃ f, stepping_lambda epoch = Some f ∧
        f = (if (epoch =? 0)%Z then 0%Q
             else if (epoch =? 1)%Z then (1 # 2)%Q
             else if (epoch =? 2)%Z then (3 # 4)%Q
             else 1%Q) ∧
        (0 <= f)%Q ∧ (f <= 1)%Q ∧
        ∀ target, (0 <= target)%Q → (0 <= target * f)%Q ∧ (target * f <= target)%Q) ∧
  Forall2 (λ x b, x = 0%Q ∨ x = b) sl (base_sl self) ∧
  (Forall (λ b, (0 <= b)%Q) (base_sl self) →
   Forall2 (λ x b, (0 <= x)%Q ∧ (x <= b)%Q) sl (base_sl self)).
Proof.
  intros Hepoch Hsl. split; [|split].
  - eexists. split; [by apply stepping_lambda_values|]. split; [done|].
    assert (H01 : ∀ f : Q, f = (if (epoch =? 0)%Z then 0%Q
             else if (epoch =? 1)%Z then (1 # 2)%Q
             else if (epoch =? 2)%Z then (3 # 4)%Q
             else 1%Q) → (0 <= f)%Q ∧ (f <= 1)%Q).
    { intros f ->.
      destruct (epoch =? 0)%Z; [by split|].
      destruct (epoch =? 1)%Z; [by split|].
      destruct (epoch =? 2)%Z; by split. }
    destruct (H01 _ eq_refl) as [H0 H1].
    split; [done|]. split; [done|].
    intros target Ht. by apply scale_within_target.
  - destruct (get_sl_cases _ _ Hsl) as [-> | ->].
    + generalize (base_sl self) as l.
      induction l as [|b l IH]; simpl; constructor; auto.
    + generalize (base_sl self) as l.
      induction l as [|b l IH]; constructor; auto.
  - intros Hbase. destruct (get_sl_cases _ _ Hsl) as [-> | ->]; clear Hsl.
    + induction Hbase as [|b l Hb Hl IH]; simpl; constructor; auto. by split.
    + induction Hbase as [|b l Hb Hl IH]; constructor; auto.
      split; [done|apply Qle_refl].
Qed.

Lemma schedules_within_target_witness :
  (∃ f, stepping_lambda 2 = Some f ∧
        f = (3 # 4)%Q ∧
        (0 <= f)%Q ∧ (f <= 1)%Q ∧
        ∀ target, (0 <= target)%Q → (0 <= target * f)%Q ∧ (target * f <= target)%Q) ∧
  Forall2 (λ x b, x = 0%Q ∨ x = b) [4 # 5] (base_sl (on_off_at 4)) ∧
  (Forall (λ b, (0 <= b)%Q) (base_sl (on_off_at 4)) →
   Forall2 (λ x b, (0 <= x)%Q ∧ (x <= b)%Q) [4 # 5] (base_sl (on_off_at 4))).
Proof.
  apply (schedules_within_target 2 (on_off_at 4) [4 # 5]); [lia | reflexivity].
Defined.

Lemma index_in_range {A} (l : list A) (i : nat) :
  i < length l → ∃ x, Py.index l (Z.of_nat i) = Some x ∧ l !! i = Some x.
Proof.
  intros Hi. apply lookup_lt_is_Some_2 in Hi as [x Hx].
  exists x. split; [|done]. unfold Py.index.
  rewrite (proj2 (Z.leb_le 0 _)) by lia. by rewrite Nat2Z.id.
Qed.

(** C10. [get_sl] reads [epoch_points] at 0, 1 and 2 without any check
    of its length.  When [epoch_points] has at least three elements every
    access is in range and the call returns: the four branches cover
    every value of [last_epoch], and the list returned has the length of
    [base_sl]. *)
Theorem get_sl_total (self : OnOffSchedulerSL) :
  3 ≤ length (epoch_points self) →
  ∃ e0 e1 e2 sl,
    Py.index (epoch_points self) 0 = Some e0 ∧
    Py.index (epoch_points self) 1 = Some e1 ∧
    Py.index (epoch_points self) 2 = Some e2 ∧
    get_sl self = Some sl ∧
    length sl = length (base_sl self) ∧
    sl = (if (last_epoch self <? e0)%Z then replicate (length (base_sl self)) 0%Q
          else if (e0 <=? last_epoch self)%Z && (last_epoch self <? e1)%Z then base_sl self
          else if (e1 <=? last_epoch self)%Z && (last_epoch self <? e2)%Z
               then replicate (length (base_sl self)) 0%Q
          else base_sl self).
Proof.
  intros Hlen.
  destruct (index_in_range (epoch_points self) 0) as (e0 & H0 & _); [lia|].
  destruct (index_in_range (epoch_points self) 1) as (e1 & H1 & _); [lia|].
  destruct (index_in_range (epoch_points self) 2) as (e2 & H2 & _); [lia|].
  change (Z.of_nat 0) with 0%Z in H0.
  change (Z.of_nat 1) with 1%Z in H1.
  change (Z.of_nat 2) with 2%Z in H2.
  exists e0, e1, e2.
  exists (if (last_epoch self <? e0)%Z then replicate (length (base_sl self)) 0%Q
          else if (e0 <=? last_epoch self)%Z && (last_epoch self <? e1)%Z then base_sl self
          else if (e1 <=? last_epoch self)%Z && (last_epoch self <? e2)%Z
               then replicate (length (base_sl self)) 0%Q
          else base_sl self).
  split; [done|]. split; [done|]. split; [done|].
  split; [|split; [|done]].
  - unfold get_sl, chain_le_lt. rewrite H0, H1, H2. simpl.
    destruct (last_epoch self <? e0)%Z; simpl; [done|].
    destruct (e0 <=? last_epoch self)%Z; simpl.
    + destruct (last_epoch self <? e1)%Z; simpl; [done|].
      by destruct (e1 <=? last_epoch self)%Z, (last_epoch self <? e2)%Z.
    + by destruct (e1 <=? last_epoch self)%Z, (last_epoch self <? e2)%Z.
  - repeat match goal with
           | |- context [if ?b then _ else _] => destruct b
           end; by rewrite ?length_replicate.
Qed.

Lemma get_sl_total_witness :
  ∃ e0 e1 e2 sl,
    Py.index (epoch_points (on_off_at 7)) 0 = Some e0 ∧
    Py.index (epoch_points (on_off_at 7)) 1 = Some e1 ∧
    Py.index (epoch_points (on_off_at 7)) 2 = Some e2 ∧
    get_sl (on_off_at 7) = Some sl ∧
    length sl = length (base_sl (on_off_at 7)) ∧
    sl = (if (last_epoch (on_off_at 7) <? e0)%Z
          then replicate (length (base_sl (on_off_at 7))) 0%Q
          else if (e0 <=? last_epoch (on_off_at 7))%Z && (last_epoch (on_off_at 7) <? e1)%Z
               then base_sl (on_off_at 7)
          else if (e1 <=? last_epoch (on_off_at 7))%Z && (last_epoch (on_off_at 7) <? e2)%Z
               then replicate (length (base_sl (on_off_at 7))) 0%Q
          else base_sl (on_off_at 7)).
Proof.
  apply (get_sl_total (on_off_at 7)). simpl. lia.
Defined.

(** The precondition of C10 cannot be dropped: with fewer than three
    epoch points some epoch makes [get_sl] raise. *)
Lemma get_sl_short_raises (points : list Z) (base : list Q) :
  length points < 3 → ∃ epoch, get_sl (mkOnOff epoch base points) = None.
Proof.
  intros Hlen.
  destruct points as [|a [|b [|c points]]]; simpl in Hlen; [| | |lia].
  - by exists 0%Z.
  - exists a. unfold get_sl, chain_le_lt. simpl.
    rewrite Z.ltb_irrefl. simpl. by rewrite Z.leb_refl.
  - exists (Z.max a b). unfold get_sl, chain_le_lt. simpl.
    rewrite (proj2 (Z.ltb_ge (Z.max a b) a)) by lia. simpl.
    rewrite (proj2 (Z.leb_le a (Z.max a b))) by lia. simpl.
    rewrite (proj2 (Z.ltb_ge (Z.max a b) b)) by lia. simpl.
    by rewrite (proj2 (Z.leb_le b (Z.max a b))) by lia.
Qed.

(** Positions 1 and 2 are read only when [last_epoch] has reached the
    first point: before it, one epoch point is enough. *)
Lemma get_sl_before_first_point (e0 epoch : Z) (points : list Z) (base : list Q) :
  (epoch < e0)%Z →
  get_sl (mkOnOff epoch base (e0 :: points)) = Some (replicate (length base) 0%Q).
Proof.
  intros Hlt. unfold get_sl. simpl.
  by rewrite (proj2 (Z.ltb_lt epoch e0) Hlt).
Qed.

(** The run recorded in the notebook: levels 0, 0, 0, 0.8, 0.8, 0.8, 0,
    0, 0, 0.8, ... as [last_epoch] goes 0, 1, 2, ... *)
Lemma get_sl_recorded_run :
  (λ e, get_sl (on_off_at e)) <$> [0; 1; 2; 3; 4; 5; 6; 7; 8; 9; 10]%Z
  = Some <$> [[0]; [0]; [0]; [4 # 5]; [4 # 5]; [4 # 5]; [0]; [0]; [0]; [4 # 5]; [4 # 5]]%Q.
Proof. reflexivity. Qed.

(** ** Submodules *)

Lemma get_linear_nil (m : module) (l : Linear) :
  get_linear m [] = Some l ↔ m = MLinear l.
Proof.
  unfold get_linear. simpl. split.
  - destruct m; congruence.
  - by intros ->.
Qed.

Lemma get_linear_cons (m : module) (i : nat) (p : fqn) (l : Linear) :
  get_linear m (i :: p) = Some l ↔
  ∃ cs c, m = MSequential cs ∧ cs !! i = Some c ∧ get_linear c p = Some l.
Proof.
  unfold get_linear. simpl. split.
  - destruct m as [| |cs]; try done.
    destruct (cs !! i) as [c|] eqn:Hc; [|done]. simpl.
    intros H. by exists cs, c.
  - intros (cs & c & -> & Hc & H). by rewrite Hc.
Qed.

Lemma get_linear_set_same (p : fqn) : ∀ m l l',
  get_linear m p = Some l →
  get_linear (set_submodule m p (MLinear l')) p = Some l'.
Proof.
  induction p as [|i p IH]; intros m l l' Hl; [done|].
  apply get_linear_cons in Hl as (cs & c & -> & Hc & Hl).
  simpl. rewrite Hc. apply get_linear_cons.
  eexists _, _. split; [done|]. split; [|by eapply IH].
  apply list_lookup_insert_eq. by eapply lookup_lt_Some.
Qed.

(** Two linear layers sit at unrelated positions: assigning to one does
    not move or change the other. *)
Lemma get_linear_set_other (p : fqn) : ∀ m q l l0 x,
  get_linear m p = Some l → get_linear m q = Some l0 → p ≠ q →
  get_linear (set_submodule m q x) p = Some l.
Proof.
  induction p as [|i p IH]; intros m q l l0 x Hp Hq Hne.
  - apply get_linear_nil in Hp as ->.
    destruct q as [|j q]; [done|].
    apply get_linear_cons in Hq as (? & ? & ? & _); done.
  - apply get_linear_cons in Hp as (cs & c & -> & Hc & Hp).
    destruct q as [|j q].
    { by apply get_linear_nil in Hq. }
    apply get_linear_cons in Hq as (cs' & c' & Heq & Hc' & Hq).
    injection Heq as <-.
    simpl. rewrite Hc'. apply get_linear_cons.
    destruct (decide (i = j)) as [->|Hij].
    + rewrite Hc in Hc'. injection Hc' as <-.
      eexists _, _. split; [done|]. split.
      * apply list_lookup_insert_eq. by eapply lookup_lt_Some.
      * eapply IH; eauto. congruence.
    + exists (<[j:=set_submodule c' q x]> cs), c. split; [done|]. split; [|done].
      by rewrite list_lookup_insert_ne.
Qed.

Lemma set_submodule_undo (p : fqn) : ∀ m l x,
  get_linear m p = Some l →
  set_submodule (set_submodule m p x) p (MLinear l) = m.
Proof.
  induction p as [|i p IH]; intros m l x Hl.
  - apply get_linear_nil in Hl as ->. done.
  - apply get_linear_cons in Hl as (cs & c & -> & Hc & Hl).
    simpl. rewrite Hc. simpl.
    rewrite list_lookup_insert_eq by (by eapply lookup_lt_Some).
    rewrite list_insert_insert_eq, (IH _ _ _ Hl).
    by rewrite list_insert_id.
Qed.

(** The converse of [get_linear_set_other]. *)
Lemma get_linear_set_other_inv (p q : fqn) (m : module) (l l0 l' : Linear) :
  get_linear (set_submodule m q (MLinear l')) p = Some l →
  get_linear m q = Some l0 → p ≠ q →
  get_linear m p = Some l.
Proof.
  intros Hp Hq Hne.
  rewrite <- (set_submodule_undo q m l0 (MLinear l') Hq).
  eapply get_linear_set_other; [done| |done].
  by eapply get_linear_set_same.
Qed.

(** Replacing a linear layer by one of the same dimensions leaves the
    structure of the model as it was. *)
Lemma structure_of_set (p : fqn) : ∀ m l l',
  get_linear m p = Some l →
  in_features l' = in_features l → out_features l' = out_features l →
  bias l' = bias l →
  structure_of (set_submodule m p (MLinear l')) = structure_of m.
Proof.
  induction p as [|i p IH]; intros m l l' Hl Hin Hout Hbias.
  - apply get_linear_nil in Hl as ->. simpl. by rewrite Hin, Hout, Hbias.
  - apply get_linear_cons in Hl as (cs & c & -> & Hc & Hl).
    simpl. rewrite Hc. simpl. f_equal.
    rewrite list_fmap_insert, (IH _ _ _ Hl) by done.
    apply list_insert_id. by rewrite list_lookup_fmap, Hc.
Qed.

(** ** Loops over the groups *)

Lemma filter_none {A} (P : A → Prop) `{∀ x, Decision (P x)} (l : list A) :
  (∀ x, x ∈ l → ¬ P x) → filter P l = [].
Proof.
  induction l as [|x l IH]; intros Hl; [done|].
  rewrite filter_cons_False by (apply Hl, list_elem_of_here).
  apply IH. intros y Hy. by apply Hl, list_elem_of_further.
Qed.

Section Loops.

Context {B : Type} (F : B → Linear → option Linear) (path : B → fqn).

Lemma for_each_group_cons (m : module) (g : B) (gs : list B) :
  for_each_group F path m (g :: gs) =
  m1 ← update_at (F g) m (path g); for_each_group F path m1 gs.
Proof. done. Qed.

Lemma update_at_Some (m m1 : module) (f : Linear → option Linear) (p : fqn) :
  update_at f m p = Some m1 ↔
  ∃ l l', get_linear m p = Some l ∧ f l = Some l' ∧
          m1 = set_submodule m p (MLinear l').
Proof.
  unfold update_at. split.
  - destruct (get_linear m p) as [l|]; [|done]. simpl.
    destruct (f l) as [l'|] eqn:Hf; [|done]. simpl.
    intros [= <-]. by exists l, l'.
  - intros (l & l' & -> & Hf & ->). simpl. by rewrite Hf.
Qed.

(** The loop on the model is, at every linear layer, the loop on that
    layer. *)
Lemma for_each_group_layer (gs : list B) : ∀ m m' p l,
  for_each_group F path m gs = Some m' →
  get_linear m p = Some l →
  ∃ l', get_linear m' p = Some l' ∧ on_layer F path p l gs = Some l'.
Proof.
  induction gs as [|g gs IH]; intros m m' p l Hloop Hl.
  - injection Hloop as <-. by exists l.
  - rewrite for_each_group_cons in Hloop.
    destruct (update_at (F g) m (path g)) as [m1|] eqn:Hm1; [|done].
    simpl in Hloop.
    apply update_at_Some in Hm1 as (l0 & l0' & Hl0 & HF & ->).
    unfold on_layer. rewrite filter_cons.
    destruct (decide (path g = p)) as [<-|Hne].
    + rewrite Hl in Hl0. injection Hl0 as <-.
      simpl. rewrite HF. simpl.
      apply (IH _ _ _ _ Hloop). by eapply get_linear_set_same.
    + apply (IH _ _ _ _ Hloop).
      eapply get_linear_set_other; eauto.
Qed.

(** A loop that returns went through linear layers only. *)
Lemma for_each_group_linear (gs : list B) : ∀ m m' g,
  for_each_group F path m gs = Some m' →
  g ∈ gs → is_Some (get_linear m (path g)).
Proof.
  induction gs as [|g0 gs IH]; intros m m' g Hloop Hg.
  - by apply not_elem_of_nil in Hg.
  - rewrite for_each_group_cons in Hloop.
    destruct (update_at (F g0) m (path g0)) as [m1|] eqn:Hm1; [|done].
    simpl in Hloop.
    apply update_at_Some in Hm1 as (l0 & l0' & Hl0 & HF & ->).
    apply elem_of_cons in Hg as [->|Hg]; [by eexists|].
    destruct (IH _ _ _ Hloop Hg) as [l Hl].
    destruct (decide (path g = path g0)) as [->|Hne]; [by eexists|].
    exists l. by eapply get_linear_set_other_inv.
Qed.

(** A layer that no group names is left alone. *)
Lemma on_layer_unnamed (gs : list B) (p : fqn) (l : Linear) :
  p ∉ path <$> gs → on_layer F path p l gs = Some l.
Proof.
  intros Hp. unfold on_layer.
  rewrite filter_none; [done|].
  intros g Hg <-. apply Hp. by apply list_elem_of_fmap_2.
Qed.

(** A layer that one group names goes through [F] once. *)
Lemma on_layer_once (gs : list B) (g : B) (l : Linear) :
  NoDup (path <$> gs) → g ∈ gs →
  on_layer F path (path g) l gs = F g l ≫= Some.
Proof.
  intros Hnd Hg. unfold on_layer.
  replace (filter (λ g', path g' = path g) gs) with [g]; [done|].
  induction gs as [|g0 gs IH]; [by apply not_elem_of_nil in Hg|].
  rewrite fmap_cons in Hnd. apply NoDup_cons in Hnd as [Hg0 Hnd].
  rewrite filter_cons. apply elem_of_cons in Hg as [->|Hg].
  - rewrite decide_True by done. f_equal.
    symmetry. apply filter_none.
    intros g' Hg' Heq. apply Hg0. rewrite <- Heq. by apply list_elem_of_fmap_2.
  - rewrite decide_False; [by apply IH|].
    intros Heq. apply Hg0. rewrite Heq. by apply list_elem_of_fmap_2.
Qed.

(** What every step keeps, the loop keeps. *)
Lemma on_layer_inv (P : Linear → Prop) (gs : list B) (p : fqn) (l l' : Linear) :
  (∀ g l1 l2, P l1 → F g l1 = Some l2 → P l2) →
  P l → on_layer F path p l gs = Some l' → P l'.
Proof.
  unfold on_layer. intros Hstep.
  generalize (filter (λ g, path g = p) gs) as gs'.
  intros gs'. revert l.
  induction gs' as [|g gs' IH]; intros l HP Hloop.
  - by injection Hloop as <-.
  - simpl in Hloop. destruct (F g l) as [l1|] eqn:HF; [|done].
    simpl in Hloop. apply (IH l1); [|done]. by eapply Hstep.
Qed.

(** A layer that some group names is, in the end, a result of [F], on
    a layer that has what every step keeps. *)
Lemma on_layer_last (P : Linear → Prop) (gs : list B) (p : fqn) (l l' : Linear) :
  (∀ g l1 l2, P l1 → F g l1 = Some l2 → P l2) →
  P l → p ∈ path <$> gs → on_layer F path p l gs = Some l' →
  ∃ g l1, g ∈ gs ∧ path g = p ∧ P l1 ∧ F g l1 = Some l'.
Proof.
  unfold on_layer. intros Hstep HP Hp.
  assert (Hne : filter (λ g, path g = p) gs ≠ []).
  { apply list_elem_of_fmap in Hp as (g & -> & Hg).
    intros Hnil. by apply (filter_nil_not_elem_of _ _ g Hnil). }
  assert (Hall : Forall (λ g, g ∈ gs ∧ path g = p) (filter (λ g, path g = p) gs)).
  { apply Forall_forall. intros g Hg. apply list_elem_of_filter in Hg. tauto. }
  revert Hne Hall. generalize (filter (λ g, path g = p) gs) as gs'.
  intros gs'. revert l HP.
  induction gs' as [|g gs' IH]; intros l HP Hne Hall Hloop; [done|].
  simpl in Hloop. destruct (F g l) as [l1|] eqn:HF; [|done]. simpl in Hloop.
  apply Forall_cons in Hall as [[Hg Hpg] Hall].
  destruct gs' as [|g' gs''].
  - injection Hloop as <-. by exists g, l.
  - apply (IH l1); [by eapply Hstep|done|done|done].
Qed.

(** A loop whose steps cannot fail returns when every group names a
    linear layer. *)
Lemma for_each_group_total (gs : list B) : ∀ m,
  (∀ g l, is_Some (F g l)) →
  (∀ g, g ∈ gs → is_Some (get_linear m (path g))) →
  is_Some (for_each_group F path m gs).
Proof.
  induction gs as [|g gs IH]; intros m Htot Hlin; [by eexists|].
  rewrite for_each_group_cons.
  destruct (Hlin g) as [l Hl]; [apply list_elem_of_here|].
  destruct (Htot g l) as [l' Hl'].
  rewrite (proj2 (update_at_Some m _ (F g) (path g))) by (by exists l, l').
  simpl. apply IH; [done|].
  intros g' Hg'.
  destruct (Hlin g') as [l0 Hl0]; [by apply list_elem_of_further|].
  destruct (decide (path g' = path g)) as [->|Hne].
  - exists l'. by eapply get_linear_set_same.
  - exists l0. by eapply get_linear_set_other.
Qed.

(** A loop over distinct layers returns when each of its steps, taken
    on the layer as it was before the loop, returns. *)
Lemma for_each_group_total_once (gs : list B) : ∀ m,
  NoDup (path <$> gs) →
  (∀ g, g ∈ gs → ∃ l, get_linear m (path g) = Some l ∧ is_Some (F g l)) →
  is_Some (for_each_group F path m gs).
Proof.
  induction gs as [|g gs IH]; intros m Hnd Hok; [by eexists|].
  rewrite fmap_cons in Hnd. apply NoDup_cons in Hnd as [Hg Hnd].
  rewrite for_each_group_cons.
  destruct (Hok g) as (l & Hl & [l' Hl']); [apply list_elem_of_here|].
  rewrite (proj2 (update_at_Some m _ (F g) (path g))) by (by exists l, l').
  simpl. apply IH; [done|].
  intros g' Hg'.
  destruct (Hok g') as (l0 & Hl0 & Hsome); [by apply list_elem_of_further|].
  exists l0. split; [|done].
  eapply get_linear_set_other; eauto.
  intros Heq. apply Hg. rewrite <- Heq. by apply list_elem_of_fmap_2.
Qed.

(** Steps that keep the dimensions keep the structure of the model. *)
Lemma for_each_group_structure (gs : list B) : ∀ m m',
  (∀ g l l', F g l = Some l' →
     in_features l' = in_features l ∧ out_features l' = out_features l ∧
     bias l' = bias l) →
  for_each_group F path m gs = Some m' →
  structure_of m' = structure_of m.
Proof.
  induction gs as [|g gs IH]; intros m m' Hdims Hloop.
  - by injection Hloop as <-.
  - rewrite for_each_group_cons in Hloop.
    destruct (update_at (F g) m (path g)) as [m1|] eqn:Hm1; [|done].
    simpl in Hloop.
    apply update_at_Some in Hm1 as (l0 & l0' & Hl0 & HF & ->).
    rewrite (IH _ _ Hdims Hloop).
    destruct (Hdims _ _ _ HF) as (? & ? & ?).
    by eapply structure_of_set.
Qed.

End Loops.

(** ** The life cycle: prepare, step, squash_mask *)

Lemma weight_squash_layer (l : Linear) : weight (squash_layer l) = weight l.
Proof. done. Qed.

Lemma squash_mask_inv (self : BaseSparsifier) (h h' : gmap objid module) :
  squash_mask self h = Some h' ↔
  ∃ m m', h !! model self = Some m ∧
    for_each_group (λ _ l, Some (squash_layer l)) group_fqn m (module_groups self) = Some m' ∧
    h' = <[model self := m']> h.
Proof.
  unfold squash_mask. split.
  - destruct (h !! model self) as [m|]; [|done]. simpl.
    destruct (for_each_group _ _ _ _) as [m'|] eqn:Hloop; [|done]. simpl.
    intros [= <-]. by exists m, m'.
  - intros (m & m' & -> & Hloop & ->). simpl. by rewrite Hloop.
Qed.

(** C3. [squash_mask] multiplies each layer's mask into its weight and
    removes the wrapper.  On a sparsifier whose groups name linear
    layers of its model, [squash_mask] returns; after it every such
    layer has no [parametrizations], its weight is what the
    parametrized weight was (the product of the mask and the original
    weight when one mask was attached), and its bias, [in_features] and
    [out_features] are unchanged; the structure of the model, the layers
    outside the groups and the other objects are unchanged too. *)
Theorem squash_mask_removes_wrappers
    (self : BaseSparsifier) (h : gmap objid module) (m : module) :
  h !! model self = Some m →
  (∀ g, g ∈ module_groups self → is_Some (get_linear m (group_fqn g))) →
  ∃ h' m',
    squash_mask self h = Some h' ∧
    h' !! model self = Some m' ∧
    structure_of m' = structure_of m ∧
    (∀ g, g ∈ module_groups self →
       ∃ l l', get_linear m (group_fqn g) = Some l ∧
               get_linear m' (group_fqn g) = Some l' ∧
               has_parametrizations l' = false ∧
               weight l' = weight l ∧
               (∀ mask, parametrizations l = [mask] → weight l' = mul mask (original l)) ∧
               bias l' = bias l ∧
               in_features l' = in_features l ∧
               out_features l' = out_features l) ∧
    (∀ p l, get_linear m p = Some l → p ∉ group_fqn <$> module_groups self →
            get_linear m' p = Some l) ∧
    (∀ o, o ≠ model self → h' !! o = h !! o).
Proof.
  intros Hm Hlin.
  set (F := λ (_ : group) (l : Linear), Some (squash_layer l)).
  assert (Hdims : ∀ g l l', F g l = Some l' →
            in_features l' = in_features l ∧ out_features l' = out_features l ∧
            bias l' = bias l).
  { by intros g l l' [= <-]. }
  destruct (for_each_group_total F group_fqn (module_groups self) m)
    as [m' Hloop]; [by eexists|done|].
  exists (<[model self := m']> h), m'.
  split; [apply squash_mask_inv; by exists m, m'|].
  split; [by rewrite lookup_insert_eq|].
  split; [by eapply for_each_group_structure|].
  split; [|split].
  - intros g Hg. destruct (Hlin g Hg) as [l Hl].
    destruct (for_each_group_layer _ _ _ _ _ _ _ Hloop Hl) as (l' & Hl' & Hon).
    exists l, l'. split; [done|]. split; [done|].
    assert (Hkeep : weight l' = weight l ∧ bias l' = bias l ∧
                    in_features l' = in_features l ∧ out_features l' = out_features l).
    { apply (on_layer_inv F group_fqn
               (λ l1, weight l1 = weight l ∧ bias l1 = bias l ∧
                      in_features l1 = in_features l ∧ out_features l1 = out_features l)
               (module_groups self) (group_fqn g) l l'); [|done|done].
      by intros g' l1 l2 HP [= <-]. }
    destruct Hkeep as (Hw & Hb & Hi & Ho).
    destruct (on_layer_last F group_fqn (λ _, True) _ _ l l' (λ _ _ _ _ _, I) I
                (list_elem_of_fmap_2 group_fqn _ _ Hg) Hon)
      as (g' & l1 & _ & _ & _ & [= <-]).
    split; [done|]. split; [done|]. split; [|done].
    intros mask Hmask. rewrite Hw. unfold weight. by rewrite Hmask.
  - intros p l Hl Hp.
    destruct (for_each_group_layer _ _ _ _ _ _ _ Hloop Hl) as (l' & Hl' & Hon).
    rewrite on_layer_unnamed in Hon by done. congruence.
  - intros o Ho. by rewrite lookup_insert_ne.
Qed.

(** On the stepped example: the first layer ends with weight
    [[0, 0, 0, 6]] and no wrapper. *)
Lemma squash_mask_stepped_model :
  (h ← squash_mask stepped_sparsifier {[ 0 := stepped_model ]};
   m ← h !! 0; get_linear m [0])
  = Some (mkLinear 4 1 (Some (Tensor [1] [0%Q]))
            (mul (Tensor [1; 4] [0; 0; 0; 1]%Q) (Tensor [1; 4] [1; 2; 3; 6]%Q)) []).
Proof. reflexivity. Qed.

Lemma squash_mask_removes_wrappers_witness :
  ∃ h' m',
    squash_mask stepped_sparsifier {[ 0 := stepped_model ]} = Some h' ∧
    h' !! model stepped_sparsifier = Some m' ∧
    structure_of m' = structure_of stepped_model ∧
    (∀ g, g ∈ module_groups stepped_sparsifier →
       ∃ l l', get_linear stepped_model (group_fqn g) = Some l ∧
               get_linear m' (group_fqn g) = Some l' ∧
               has_parametrizations l' = false ∧
               weight l' = weight l ∧
               (∀ mask, parametrizations l = [mask] → weight l' = mul mask (original l)) ∧
               bias l' = bias l ∧
               in_features l' = in_features l ∧
               out_features l' = out_features l) ∧
    (∀ p l, get_linear stepped_model p = Some l →
            p ∉ group_fqn <$> module_groups stepped_sparsifier →
            get_linear m' p = Some l) ∧
    (∀ o, o ≠ model stepped_sparsifier →
          h' !! o = ({[ 0 := stepped_model ]} : gmap objid module) !! o).
Proof.
  apply (squash_mask_removes_wrappers stepped_sparsifier {[ 0 := stepped_model ]}
           stepped_model).
  - reflexivity.
  - intros g Hg. apply list_elem_of_singleton in Hg as ->. by eexists.
Defined.

Lemma group_fqn_make_group (dflt : gmap string value) (config : list config_entry) :
  group_fqn <$> (make_group dflt <$> config) = config_module <$> config.
Proof.
  rewrite <- list_fmap_compose. apply list_fmap_ext.
  by intros _ [p args|p] _.
Qed.

Lemma prepare_inv dflt (h h' : gmap objid module) model config (self : BaseSparsifier) :
  prepare dflt h model config = Some (self, h') ↔
  ∃ m m', h !! model = Some m ∧
    for_each_group (λ _ l, Some (attach_mask l)) group_fqn m
      (make_group dflt <$> config_list m config) = Some m' ∧
    self = mkSparsifier dflt model (make_group dflt <$> config_list m config) ∧
    h' = <[model := m']> h.
Proof.
  unfold prepare. split.
  - destruct (h !! model) as [m|]; [|done]. simpl.
    destruct (for_each_group _ _ _ _) as [m'|] eqn:Hloop; [|done]. simpl.
    intros [= <- <-]. by exists m, m'.
  - intros (m & m' & -> & Hloop & -> & ->). simpl. by rewrite Hloop.
Qed.

(** [prepare] returns when every entry names a linear layer of the
    model. *)
Lemma prepare_total dflt (h : gmap objid module) model config (m : module) :
  h !! model = Some m →
  (∀ c, c ∈ config_list m config → is_Some (get_linear m (config_module c))) →
  is_Some (prepare dflt h model config).
Proof.
  intros Hm Hlin.
  destruct (for_each_group_total (λ (_ : group) l, Some (attach_mask l)) group_fqn
              (make_group dflt <$> config_list m config) m) as [m' Hloop].
  - by eexists.
  - intros g Hg. apply list_elem_of_fmap in Hg as (c & -> & Hc).
    destruct c; by apply (Hlin _ Hc).
  - eexists (_, _). apply prepare_inv. by exists m, m'.
Qed.

Lemma deepcopy_spec (h0 h : gmap objid module) (o c : objid) :
  deepcopy h0 o = Some (c, h) →
  c ≠ o ∧ h !! c = h0 !! o ∧ h !! o = h0 !! o.
Proof.
  unfold deepcopy. destruct (h0 !! o) as [m|] eqn:Hm; [|done]. simpl.
  intros [= <- <-].
  assert (Hne : fresh (dom h0) ≠ o).
  { intros Heq. apply (is_fresh (dom h0)). rewrite Heq.
    apply elem_of_dom. by eexists. }
  split; [done|]. split; [by rewrite lookup_insert_eq|].
  by rewrite lookup_insert_ne.
Qed.

(** C7. [prepare] changes the model in place.  After a call that
    returns, the object [model] itself holds the prepared model: every
    configured layer is a linear layer with a wrapper attached and with
    its dimensions, bias and stored weight as before; the structure of
    the model is unchanged, and so are the layers that are not
    configured and all other objects.  The model as it was is not kept
    under [model] (when at least one layer is configured); it is kept
    only in a deep copy made before the call. *)
Theorem prepare_in_place dflt (h h' : gmap objid module) (model : objid)
    (config : option (list config_entry)) (self : BaseSparsifier) (m : module) :
  h !! model = Some m →
  prepare dflt h model config = Some (self, h') →
  ∃ m',
    h' !! model = Some m' ∧
    structure_of m' = structure_of m ∧
    group_fqn <$> module_groups self = config_module <$> config_list m config ∧
    (∀ p, p ∈ config_module <$> config_list m config →
       ∃ l l', get_linear m p = Some l ∧
               get_linear m' p = Some l' ∧
               has_parametrizations l' = true ∧
               in_features l' = in_features l ∧
               out_features l' = out_features l ∧
               bias l' = bias l ∧
               original l' = original l) ∧
    (∀ p l, get_linear m p = Some l → p ∉ config_module <$> config_list m config →
            get_linear m' p = Some l) ∧
    (∀ o, o ≠ model → h' !! o = h !! o) ∧
    (config_list m config ≠ [] → m' ≠ m) ∧
    (∀ h0 c, deepcopy h0 model = Some (c, h) → h' !! c = Some m).
Proof.
  intros Hm Hprep.
  apply prepare_inv in Hprep as (m0 & m' & Hm0 & Hloop & -> & ->).
  rewrite Hm in Hm0. injection Hm0 as <-.
  set (F := λ (_ : group) (l : Linear), Some (attach_mask l)) in *.
  set (groups := make_group dflt <$> config_list m config) in *.
  assert (Hpaths : group_fqn <$> groups = config_module <$> config_list m config)
    by apply group_fqn_make_group.
  assert (Hdims : ∀ g l l', F g l = Some l' →
            in_features l' = in_features l ∧ out_features l' = out_features l ∧
            bias l' = bias l).
  { by intros g l l' [= <-]. }
  assert (Hnamed : ∀ p, p ∈ config_module <$> config_list m config →
       ∃ l l', get_linear m p = Some l ∧ get_linear m' p = Some l' ∧
               has_parametrizations l' = true ∧
               in_features l' = in_features l ∧ out_features l' = out_features l ∧
               bias l' = bias l ∧ original l' = original l ∧
               length (parametrizations l) < length (parametrizations l')).
  { intros p Hp. rewrite <- Hpaths in Hp.
    pose proof Hp as Hp'.
    apply list_elem_of_fmap in Hp' as (g & -> & Hg).
    destruct (for_each_group_linear _ _ _ _ _ _ Hloop Hg) as [l Hl].
    destruct (for_each_group_layer _ _ _ _ _ _ _ Hloop Hl) as (l' & Hl' & Hon).
    exists l, l'. split; [done|]. split; [done|].
    destruct (on_layer_last F group_fqn (λ l2,
               in_features l2 = in_features l ∧ out_features l2 = out_features l ∧
               bias l2 = bias l ∧ original l2 = original l ∧
               length (parametrizations l) ≤ length (parametrizations l2))
               groups (group_fqn g) l l')
      as (g' & l1 & _ & _ & (Hi & Ho & Hb & Hor & Hlen) & [= <-]); [|done|done|done|].
    { intros g0 l2 l3 (? & ? & ? & ? & ?) [= <-]. simpl.
      rewrite length_app. simpl. repeat split; try done. lia. }
    simpl. rewrite length_app. simpl.
    repeat split; try done; [|lia].
    unfold has_parametrizations. simpl. by destruct (parametrizations l1). }
  exists m'.
  split; [by rewrite lookup_insert_eq|].
  split; [by eapply for_each_group_structure|].
  split; [done|].
  split; [|split; [|split; [|split]]].
  - intros p Hp. destruct (Hnamed p Hp) as (l & l' & ? & ? & ? & ? & ? & ? & ? & _).
    by exists l, l'.
  - intros p l Hl Hp. rewrite <- Hpaths in Hp.
    destruct (for_each_group_layer _ _ _ _ _ _ _ Hloop Hl) as (l' & Hl' & Hon).
    rewrite on_layer_unnamed in Hon by done. congruence.
  - intros o Ho. by rewrite lookup_insert_ne.
  - intros Hne Heq. subst m'.
    destruct (config_list m config) as [|c cs] eqn:Hcfg; [done|].
    destruct (Hnamed (config_module c)) as (l & l' & Hl & Hl' & _ & _ & _ & _ & _ & Hlen).
    { rewrite fmap_cons. apply list_elem_of_here. }
    rewrite Hl in Hl'. injection Hl' as <-. lia.
  - intros h0 c Hcopy.
    apply deepcopy_spec in Hcopy as (Hne & Hc & Ho).
    rewrite lookup_insert_ne by done. by rewrite Hc, <- Ho.
Qed.

Lemma prepare_in_place_witness :
  ∃ self h',
    prepare (closest_to_mean_defaults (3 # 4)) {[ 0 := two_layers ]} 0 (Some first_layer_only)
      = Some (self, h') ∧
    ∃ m',
    h' !! 0 = Some m' ∧
    structure_of m' = structure_of two_layers ∧
    group_fqn <$> module_groups self
      = config_module <$> config_list two_layers (Some first_layer_only) ∧
    (∀ p, p ∈ config_module <$> config_list two_layers (Some first_layer_only) →
       ∃ l l', get_linear two_layers p = Some l ∧
               get_linear m' p = Some l' ∧
               has_parametrizations l' = true ∧
               in_features l' = in_features l ∧
               out_features l' = out_features l ∧
               bias l' = bias l ∧
               original l' = original l) ∧
    (∀ p l, get_linear two_layers p = Some l →
            p ∉ config_module <$> config_list two_layers (Some first_layer_only) →
            get_linear m' p = Some l) ∧
    (∀ o, o ≠ 0 → h' !! o = ({[ 0 := two_layers ]} : gmap objid module) !! o) ∧
    (config_list two_layers (Some first_layer_only) ≠ [] → m' ≠ two_layers) ∧
    (∀ h0 c, deepcopy h0 0 = Some (c, {[ 0 := two_layers ]}) → h' !! c = Some two_layers).
Proof.
  eexists _, _. split; [reflexivity|].
  apply (prepare_in_place (closest_to_mean_defaults (3 # 4)) {[ 0 := two_layers ]} _ 0
           (Some first_layer_only)); reflexivity.
Defined.

Lemma Qmult_1_l_eq (x : Q) : (1 * x)%Q = x.
Proof. destruct x as [[|n|n] d]; reflexivity. Qed.

Lemma mul_ones_like (t : tensor) : tensor_wf t → mul (ones_like t) t = t.
Proof.
  destruct t as [sh d]. unfold tensor_wf, mul, ones_like, numel. simpl.
  intros <-. f_equal.
  induction d as [|x d IH]; [done|].
  simpl. by rewrite Qmult_1_l_eq, IH.
Qed.

(** Masks of ones change nothing: the parametrized weight is the stored
    weight. *)
Lemma weight_all_ones (l : Linear) :
  tensor_wf (original l) →
  Forall (λ mask, mask = ones_like (original l)) (parametrizations l) →
  weight l = original l.
Proof.
  unfold weight. intros Hwf Hall.
  induction Hall as [|mask masks -> _ IH]; [done|].
  simpl. by rewrite mul_ones_like.
Qed.

Lemma sparsity_of_dense (t : tensor) :
  count_zeros (data t) = 0 → (sparsity_of t == 0)%Q.
Proof.
  unfold sparsity_of. intros ->. unfold Qdiv. apply Qmult_0_l.
Qed.

(** C4. After [prepare] on a model without wrappers, and before any
    [step], every mask of every prepared layer is all ones and has the
    shape of the weight; the parametrized weight is the stored weight,
    entry for entry: the parametrization zeroes nothing, and the
    observed sparsity is that of the stored weight - zero when the
    stored weight has no zero entry. *)
Theorem prepare_masks_all_ones dflt (h h' : gmap objid module) (model : objid)
    (config : option (list config_entry)) (self : BaseSparsifier) (m : module) :
  h !! model = Some m →
  (∀ p l, get_linear m p = Some l → parametrizations l = [] ∧ tensor_wf (original l)) →
  prepare dflt h model config = Some (self, h') →
  ∃ m',
    h' !! model = Some m' ∧
    ∀ g, g ∈ module_groups self →
      ∃ l l' mask rest,
        get_linear m (group_fqn g) = Some l ∧
        get_linear m' (group_fqn g) = Some l' ∧
        parametrizations l' = mask :: rest ∧
        Forall (λ mk, shape mk = shape (original l) ∧
                      data mk = replicate (numel (original l)) 1%Q) (mask :: rest) ∧
        weight l' = original l ∧
        sparsity_of (weight l') = sparsity_of (original l) ∧
        (count_zeros (data (original l)) = 0 → (sparsity_of (weight l') == 0)%Q).
Proof.
  intros Hm Hfresh Hprep.
  apply prepare_inv in Hprep as (m0 & m' & Hm0 & Hloop & -> & ->).
  rewrite Hm in Hm0. injection Hm0 as <-.
  set (F := λ (_ : group) (l : Linear), Some (attach_mask l)) in *.
  exists m'. split; [by rewrite lookup_insert_eq|].
  simpl. intros g Hg.
  destruct (for_each_group_linear _ _ _ _ _ _ Hloop Hg) as [l Hl].
  destruct (for_each_group_layer _ _ _ _ _ _ _ Hloop Hl) as (l' & Hl' & Hon).
  destruct (Hfresh _ _ Hl) as [Hnone Hwf].
  set (P := λ l2 : Linear, original l2 = original l ∧
              Forall (λ mask, mask = ones_like (original l2)) (parametrizations l2)).
  assert (Hstep : ∀ (g0 : group) l1 l2, P l1 → F g0 l1 = Some l2 → P l2).
  { intros g0 l1 l2 [Hor Hones] [= <-]. split; [done|]. simpl.
    apply Forall_app. split; [done|].
    apply Forall_singleton. rewrite weight_all_ones; [done| |done].
    by rewrite Hor. }
  destruct (on_layer_last F group_fqn P (make_group dflt <$> config_list m config)
              (group_fqn g) l l' Hstep)
    as (g' & l1 & _ & _ & HP1 & HF); [|by apply list_elem_of_fmap_2|done|].
  { split; [done|]. rewrite Hnone. constructor. }
  destruct (Hstep g' l1 l' HP1 HF) as [Hor Hones].
  injection HF as HF.
  assert (Hw : weight l' = original l).
  { rewrite <- Hor. apply weight_all_ones; [by rewrite Hor|done]. }
  destruct (parametrizations l') as [|mask rest] eqn:Hps.
  { rewrite <- HF in Hps. simpl in Hps. by destruct (parametrizations l1). }
  exists l, l', mask, rest.
  split; [done|]. split; [done|]. split; [done|].
  split; [|split; [done|split]].
  - eapply Forall_impl; [exact Hones|].
    intros mk ->. by rewrite Hor.
  - by rewrite Hw.
  - intros Hdense. rewrite Hw. by apply sparsity_of_dense.
Qed.

Lemma prepare_masks_all_ones_witness :
  ∃ self h',
    prepare (closest_to_mean_defaults (3 # 4)) {[ 0 := two_layers ]} 0 (Some first_layer_only)
      = Some (self, h') ∧
    ∃ m',
    h' !! 0 = Some m' ∧
    ∀ g, g ∈ module_groups self →
      ∃ l l' mask rest,
        get_linear two_layers (group_fqn g) = Some l ∧
        get_linear m' (group_fqn g) = Some l' ∧
        parametrizations l' = mask :: rest ∧
        Forall (λ mk, shape mk = shape (original l) ∧
                      data mk = replicate (numel (original l)) 1%Q) (mask :: rest) ∧
        weight l' = original l ∧
        sparsity_of (weight l') = sparsity_of (original l) ∧
        (count_zeros (data (original l)) = 0 → (sparsity_of (weight l') == 0)%Q).
Proof.
  eexists _, _. split; [reflexivity|].
  apply (prepare_masks_all_ones (closest_to_mean_defaults (3 # 4)) {[ 0 := two_layers ]} _ 0
           (Some first_layer_only)); [reflexivity| |reflexivity].
  intros p l Hl.
  destruct p as [|[|[|[|i]]] [|j p]]; try discriminate Hl;
    injection Hl as <-; by split.
Defined.

(** ** Zero entries of a masked weight *)

Lemma count_zeros_cons (x : Q) (v : list Q) :
  count_zeros (x :: v) = (if is_zero x then 1 else 0) + count_zeros v.
Proof.
  unfold count_zeros. rewrite filter_cons.
  destruct (is_zero x); by rewrite ?decide_True, ?decide_False by done.
Qed.

Lemma is_zero_mul_0 (x : Q) : is_zero (0 * x) = true.
Proof. by destruct x as [n d]. Qed.

(** A 0/1 mask zeroes at least the entries it masks ... *)
Lemma count_zeros_masked_ge (v : list Q) : ∀ w,
  Forall (λ x, x = 0%Q ∨ x = 1%Q) v → length v = length w →
  count_zeros v ≤ count_zeros (zip_with Qmult v w).
Proof.
  induction v as [|x v IH]; intros [|y w] Hv Hlen; try done.
  apply Forall_cons in Hv as [Hx Hv]. injection Hlen as Hlen.
  specialize (IH w Hv Hlen).
  change (zip_with Qmult (x :: v) (y :: w)) with ((x * y)%Q :: zip_with Qmult v w).
  rewrite !count_zeros_cons.
  destruct Hx as [-> | ->].
  - rewrite is_zero_mul_0. change (is_zero 0) with true. cbv iota. lia.
  - change (is_zero 1) with false. cbv iota. lia.
Qed.

(** ... and exactly those when the weight has no zero entry. *)
Lemma count_zeros_masked_dense (v : list Q) : ∀ w,
  Forall (λ x, x = 0%Q ∨ x = 1%Q) v → length v = length w →
  count_zeros w = 0 →
  count_zeros (zip_with Qmult v w) = count_zeros v.
Proof.
  induction v as [|x v IH]; intros [|y w] Hv Hlen Hw; try done.
  apply Forall_cons in Hv as [Hx Hv]. injection Hlen as Hlen.
  rewrite count_zeros_cons in Hw.
  destruct (is_zero y) eqn:Hy; [lia|]. simpl in Hw.
  specialize (IH w Hv Hlen Hw).
  change (zip_with Qmult (x :: v) (y :: w)) with ((x * y)%Q :: zip_with Qmult v w).
  rewrite !count_zeros_cons, IH.
  destruct Hx as [-> | ->].
  - by rewrite is_zero_mul_0.
  - by rewrite Qmult_1_l_eq, Hy.
Qed.

Lemma binary_of_lookup (v : list Q) :
  (∀ i, i < length v → v !! i = Some 0%Q ∨ v !! i = Some 1%Q) →
  Forall (λ x, x = 0%Q ∨ x = 1%Q) v.
Proof.
  intros Hv. apply Forall_lookup. intros i x Hx.
  destruct (Hv i) as [H|H]; [by eapply lookup_lt_Some| |]; rewrite Hx in H;
    injection H as ->; auto.
Qed.

(** One layer through [update_mask] and then the squash: the wrapper is
    gone, and of the n entries of the weight at least the threshold
    int(round(s * n)) are zero - exactly that many when the original
    weight has no zero entry. *)
Lemma update_then_squash (torch_mean : list Q → Q) (torch_sort : list Q → list Q * list nat)
    (layer : Linear) (mask : tensor) (s : Q) :
  let d := distance_to_mean torch_mean (data (original layer)) in
  let n := length (data (original layer)) in
  parametrizations layer = [mask] →
  numel mask = n →
  is_sort_of d (torch_sort d) = true →
  (0 <= s)%Q → (s <= 1)%Q →
  (Z.of_nat n ≤ 2 ^ 53)%Z →
  ∃ l1 k,
    update_mask torch_mean torch_sort layer s = Some l1 ∧
    threshold_idx s n = Some k ∧
    has_parametrizations (squash_layer l1) = false ∧
    length (data (weight (squash_layer l1))) = n ∧
    (k ≤ Z.of_nat (count_zeros (data (weight (squash_layer l1)))))%Z ∧
    (count_zeros (data (original layer)) = 0 →
     Z.of_nat (count_zeros (data (weight (squash_layer l1)))) = k).
Proof.
  intros d n Hp Hnum Hsort H0 H1 Hn.
  destruct (update_mask_sorted torch_mean torch_sort layer mask [] s Hp Hnum Hsort H0 H1 Hn)
    as (v & k & Hupd & Hk & Hkn & Hlen & Hcount & Hbin & _).
  fold n in Hk, Hkn, Hlen, Hbin.
  exists (set_mask layer (Tensor (shape mask) v)), (Z.of_nat k).
  split; [done|]. split; [done|]. split; [done|].
  assert (Hw : data (weight (squash_layer (set_mask layer (Tensor (shape mask) v))))
               = zip_with Qmult v (data (original layer))).
  { rewrite weight_squash_layer. unfold weight, set_mask. simpl. by rewrite Hp. }
  assert (Hv : Forall (λ x, x = 0%Q ∨ x = 1%Q) v).
  { apply binary_of_lookup. by rewrite Hlen. }
  rewrite Hw.
  split; [|split].
  - rewrite length_zip_with. fold n. lia.
  - apply inj_le. rewrite <- Hcount. by apply count_zeros_masked_ge.
  - intros Hdense. f_equal. rewrite <- Hcount.
    by apply count_zeros_masked_dense.
Qed.

Lemma step_inv (update : Linear → gmap string value → option Linear)
    (self : BaseSparsifier) (h h' : gmap objid module) :
  step update self h = Some h' ↔
  ∃ m m', h !! model self = Some m ∧
    for_each_group (λ g l, update l (group_args g)) group_fqn m (module_groups self) = Some m' ∧
    h' = <[model self := m']> h.
Proof.
  unfold step. split.
  - destruct (h !! model self) as [m|]; [|done]. simpl.
    destruct (for_each_group _ _ _ _) as [m'|] eqn:Hloop; [|done]. simpl.
    intros [= <-]. by exists m, m'.
  - intros (m & m' & -> & Hloop & ->). simpl. by rewrite Hloop.
Qed.

Lemma sparsity_of_count (t : tensor) (z : Z) :
  Z.of_nat (count_zeros (data t)) = z →
  (sparsity_of t == inject_Z z / inject_Z (Z.of_nat (length (data t))))%Q.
Proof. intros <-. reflexivity. Qed.

(** C1 (amended). For a [ClosestToMeanSparsifier] whose groups name
    distinct prepared layers with levels in [0, 1], [step] and then
    [squash_mask] return, and every such layer, with n weight entries
    and level s, ends without wrapper and with at least
    int(round(s * n)) zero entries, the product being the float product
    of the code - exactly int(round(s * n)) when its original weight has
    no zero entry, which is the fraction s when s, as a float, times n
    is an integer. *)
Theorem step_squash_zero_count (torch_mean : list Q → Q) (torch_sort : list Q → list Q * list nat)
    (self : BaseSparsifier) (h : gmap objid module) (m : module) :
  h !! model self = Some m →
  NoDup (group_fqn <$> module_groups self) →
  (∀ g, g ∈ module_groups self → group_ready torch_mean torch_sort m g) →
  ∃ h1 h2 m2,
    step (closest_to_mean_update torch_mean torch_sort) self h = Some h1 ∧
    squash_mask self h1 = Some h2 ∧
    h2 !! model self = Some m2 ∧
    ∀ g l s,
      g ∈ module_groups self →
      get_linear m (group_fqn g) = Some l →
      group_args g !! "sparsity_level" = Some (VFloat s) →
      ∃ l2 k,
        get_linear m2 (group_fqn g) = Some l2 ∧
        has_parametrizations l2 = false ∧
        length (data (weight l2)) = length (data (original l)) ∧
        threshold_idx s (length (data (original l))) = Some k ∧
        (k ≤ Z.of_nat (count_zeros (data (weight l2))))%Z ∧
        (count_zeros (data (original l)) = 0 →
         Z.of_nat (count_zeros (data (weight l2))) = k ∧
         ∀ s' z, fl64 s = Some s' →
              (s' * inject_Z (Z.of_nat (length (data (original l)))) == inject_Z z)%Q →
              0 < length (data (original l)) →
              (sparsity_of (weight l2) == s')%Q).
Proof.
  intros Hm Hnd Hready.
  set (F := λ (g : group) (l : Linear),
              closest_to_mean_update torch_mean torch_sort l (group_args g)).
  set (G := λ (_ : group) (l : Linear), Some (squash_layer l)).
  assert (Hupd : ∀ g l s, g ∈ module_groups self →
            get_linear m (group_fqn g) = Some l →
            group_args g !! "sparsity_level" = Some (VFloat s) →
            F g l = update_mask torch_mean torch_sort l s ∧
            ∃ mask, parametrizations l = [mask] ∧
              numel mask = length (data (original l)) ∧
              is_sort_of (distance_to_mean torch_mean (data (original l)))
                (torch_sort (distance_to_mean torch_mean (data (original l)))) = true ∧
              (0 <= s)%Q ∧ (s <= 1)%Q ∧
              (Z.of_nat (length (data (original l))) ≤ 2 ^ 53)%Z).
  { intros g l s Hg Hl Hs.
    destruct (Hready g Hg)
      as (l' & mask & s' & Hl' & Hp & Hnum & Hs' & H0 & H1 & Hsort & Hn).
    rewrite Hl in Hl'. injection Hl' as <-.
    rewrite Hs in Hs'. injection Hs' as <-.
    split; [|by exists mask].
    unfold F, closest_to_mean_update. by rewrite Hs. }
  destruct (for_each_group_total_once F group_fqn (module_groups self) m Hnd)
    as [m1 Hstep].
  { intros g Hg.
    destruct (Hready g Hg) as (l & mask & s & Hl & _ & _ & Hs & _).
    destruct (Hupd g l s Hg Hl Hs) as (HF & mask' & Hp & Hnum & Hsort & H0 & H1 & Hn).
    exists l. split; [done|]. rewrite HF.
    destruct (update_then_squash torch_mean torch_sort l mask' s Hp Hnum Hsort H0 H1 Hn)
      as (l1 & k & -> & _). by eexists. }
  destruct (for_each_group_total G group_fqn (module_groups self) m1) as [m2 Hsquash].
  { by eexists. }
  { intros g Hg.
    destruct (Hready g Hg) as (l & _ & _ & Hl & _).
    destruct (for_each_group_layer _ _ _ _ _ _ _ Hstep Hl) as (l1 & Hl1 & _).
    by eexists. }
  exists (<[model self := m1]> h), (<[model self := m2]> (<[model self := m1]> h)), m2.
  split; [apply step_inv; by exists m, m1|].
  split; [apply squash_mask_inv; exists m1, m2; by rewrite lookup_insert_eq|].
  split; [by rewrite lookup_insert_eq|].
  intros g l s Hg Hl Hs.
  destruct (Hupd g l s Hg Hl Hs) as (HF & mask & Hp & Hnum & Hsort & H0 & H1 & Hn).
  destruct (for_each_group_layer _ _ _ _ _ _ _ Hstep Hl) as (l1 & Hl1 & Hon1).
  destruct (for_each_group_layer _ _ _ _ _ _ _ Hsquash Hl1) as (l2 & Hl2 & Hon2).
  rewrite (on_layer_once F group_fqn _ g l Hnd Hg), HF in Hon1.
  rewrite (on_layer_once G group_fqn _ g l1 Hnd Hg) in Hon2.
  injection Hon2 as <-.
  destruct (update_then_squash torch_mean torch_sort l mask s Hp Hnum Hsort H0 H1 Hn)
    as (l1' & k & Hl1' & Hk & Hnone & Hlen & Hge & Hdense).
  rewrite Hl1' in Hon1. injection Hon1 as ->.
  exists (squash_layer l1), k.
  split; [done|]. split; [done|]. split; [done|]. split; [done|]. split; [done|].
  intros Hd. split; [by apply Hdense|].
  intros s' z Hs' Hz Hpos.
  pose proof (Hdense Hd) as Hcount.
  set (n := length (data (original l))) in *.
  assert (Hn0 : (0 < inject_Z (Z.of_nat n))%Q).
  { change 0%Q with (inject_Z 0). rewrite <- Zlt_Qlt. lia. }
  destruct (fl64_bounds s 1 H0 H1 ltac:(done)) as (y & Hy & Hy0 & Hy1).
  rewrite Hs' in Hy. injection Hy as <-.
  assert (Hz0 : (0 ≤ z ≤ Z.of_nat n)%Z).
  { split.
    - rewrite Zle_Qle, <- Hz. apply Qmult_le_0_compat; [done|by apply Qlt_le_weak].
    - rewrite Zle_Qle, <- Hz.
      apply Qle_trans with (1 * inject_Z (Z.of_nat n))%Q.
      + apply Qmult_le_compat_r; [done|by apply Qlt_le_weak].
      + rewrite Qmult_1_l. apply Qle_refl. }
  rewrite (threshold_idx_exact s s' n z Hn Hz0 Hs' Hz) in Hk. injection Hk as <-.
  rewrite (sparsity_of_count _ _ Hcount), Hlen. fold n. rewrite <- Hz.
  apply Qdiv_mult_l.
  intros Hc. rewrite Hc in Hn0. by apply Qlt_irrefl in Hn0.
Qed.

Lemma step_squash_zero_count_witness :
  ∃ h1 h2 m2,
    step (closest_to_mean_update sequential_mean stable_sort) stepped_sparsifier
         {[ 0 := stepped_model ]}
      = Some h1 ∧
    squash_mask stepped_sparsifier h1 = Some h2 ∧
    h2 !! model stepped_sparsifier = Some m2 ∧
    ∀ g l s,
      g ∈ module_groups stepped_sparsifier →
      get_linear stepped_model (group_fqn g) = Some l →
      group_args g !! "sparsity_level" = Some (VFloat s) →
      ∃ l2 k,
        get_linear m2 (group_fqn g) = Some l2 ∧
        has_parametrizations l2 = false ∧
        length (data (weight l2)) = length (data (original l)) ∧
        threshold_idx s (length (data (original l))) = Some k ∧
        (k ≤ Z.of_nat (count_zeros (data (weight l2))))%Z ∧
        (count_zeros (data (original l)) = 0 →
         Z.of_nat (count_zeros (data (weight l2))) = k ∧
         ∀ s' z, fl64 s = Some s' →
              (s' * inject_Z (Z.of_nat (length (data (original l)))) == inject_Z z)%Q →
              0 < length (data (original l)) →
              (sparsity_of (weight l2) == s')%Q).
Proof.
  apply (step_squash_zero_count sequential_mean stable_sort stepped_sparsifier
           {[ 0 := stepped_model ]} stepped_model).
  - reflexivity.
  - apply NoDup_singleton.
  - intros g Hg. apply list_elem_of_singleton in Hg as ->.
    eexists _, _, (3 # 4)%Q.
    split; [reflexivity|]. split; [reflexivity|]. split; [reflexivity|].
    split; [reflexivity|]. split; [discriminate|]. split; [discriminate|].
    split; [vm_compute; reflexivity|vm_compute; discriminate].
Defined.

(** C1 as stated fails: a [ClosestToMeanSparsifier] with level 1/2 on a
    fresh [Linear(3, 1)] with weight [[1, 2, 6]] zeroes
    int(round(1.5)) = 2 of the 3 entries; after [step] and
    [squash_mask] the fraction of zero entries is 2/3, not 1/2. *)
Lemma sparsity_after_squash_is_not_the_level :
  (h ← prepare_step_squash sequential_mean stable_sort (1 # 2) {[ 0 := one_layer ]} 0 None;
   layer_sparsity h 0 [0]) = Some (2 # 3)%Q
  ∧ ¬ (2 # 3 == 1 # 2)%Q.
Proof. split; [reflexivity | discriminate]. Qed.

(** Zero entries of the original weight count as well: at level 1/2 on
    the four entries [[0, 1, 5, 6]], two entries are masked and a third
    is zero already, so the fraction is 3/4 although 1/2 * 4 is an
    integer. *)
Lemma sparsity_counts_zeros_of_the_original :
  (h ← prepare_step_squash sequential_mean stable_sort (1 # 2)
         {[ 0 := MSequential [MLinear (linear 4 1 [0; 1; 5; 6]%Q)] ]} 0 None;
   layer_sparsity h 0 [0]) = Some (3 # 4)%Q.
Proof. reflexivity. Qed.

(** ** Which layers get a group *)

Lemma elem_of_named_sequential (cs : list module) (p : fqn) :
  p ∈ named_linears (MSequential cs) ↔
  ∃ i c r, p = i :: r ∧ cs !! i = Some c ∧ r ∈ named_linears c.
Proof.
  simpl. rewrite list_elem_of_join. split.
  - intros (names & Hp & Hnames).
    apply elem_of_lookup_zip_with in Hnames as (i & j & ns & -> & Hj & Hns).
    apply lookup_seq in Hj as [-> _].
    rewrite list_lookup_fmap in Hns.
    destruct (cs !! i) as [c|] eqn:Hc; [|done]. injection Hns as <-.
    apply list_elem_of_fmap in Hp as (r & -> & Hr).
    by exists i, c, r.
  - intros (i & c & r & -> & Hc & Hr).
    exists (cons i <$> named_linears c). split; [by apply list_elem_of_fmap_2|].
    apply elem_of_lookup_zip_with.
    exists i, i, (named_linears c). split; [done|]. split.
    + apply lookup_seq. split; [done|]. by eapply lookup_lt_Some.
    + by rewrite list_lookup_fmap, Hc.
Qed.

(** [named_linears] lists the linear layers, all of them and nothing
    else. *)
Lemma named_linears_spec (p : fqn) : ∀ m,
  p ∈ named_linears m ↔ is_Some (get_linear m p).
Proof.
  induction p as [|i p IH]; intros m.
  - destruct m as [l| |cs].
    + split; [by eexists|]. intros _. apply list_elem_of_here.
    + split; [by intros ?%not_elem_of_nil|by intros [? ?]].
    + rewrite elem_of_named_sequential. split.
      * by intros (? & ? & ? & ? & _).
      * by intros [? ?].
  - destruct m as [l| |cs].
    + split; [by intros ?%list_elem_of_singleton|by intros [? ?]].
    + split; [by intros ?%not_elem_of_nil|by intros [? ?]].
    + rewrite elem_of_named_sequential. split.
      * intros (j & c & r & [= <- <-] & Hc & Hr).
        apply IH in Hr as [l Hl]. exists l.
        apply get_linear_cons. by exists cs, c.
      * intros [l Hl].
        apply get_linear_cons in Hl as (cs' & c & [= <-] & Hc & Hl).
        exists i, c, p. split; [done|]. split; [done|].
        apply IH. by eexists.
Qed.

(** With [config=None], [prepare] returns. *)
Lemma prepare_None_total dflt (h : gmap objid module) (model : objid) (m : module) :
  h !! model = Some m → is_Some (prepare dflt h model None).
Proof.
  intros Hm. apply (prepare_total _ _ _ _ m Hm).
  intros c Hc. apply list_elem_of_fmap in Hc as (p & -> & Hp).
  by apply named_linears_spec.
Qed.

(** C2 (amended). The default group goes to the linear layers that the
    configuration lists as bare layers and, with [config=None], to every
    linear layer of the model; an entry with parameters of its own takes
    the defaults for the keys it does not set.  A linear layer that the
    configuration does not list gets no group: [prepare], [step] and
    [squash_mask] leave it as it was. *)
Theorem prepare_default_groups (update : Linear → gmap string value → option Linear)
    dflt (h h1 : gmap objid module) (model : objid)
    (config : option (list config_entry)) (self : BaseSparsifier) (m : module) :
  h !! model = Some m →
  prepare dflt h model config = Some (self, h1) →
  module_groups self = make_group dflt <$> config_list m config ∧
  (∀ p, ConfigModule p ∈ config_list m config → mkGroup p dflt ∈ module_groups self) ∧
  (∀ p args, ConfigDict p args ∈ config_list m config →
     ∃ g, g ∈ module_groups self ∧ group_fqn g = p ∧
          ∀ k, group_args g !! k
               = match args !! k with Some v => Some v | None => dflt !! k end) ∧
  (config = None → ∀ p l, get_linear m p = Some l → mkGroup p dflt ∈ module_groups self) ∧
  (∀ p l, get_linear m p = Some l → p ∉ config_module <$> config_list m config →
     (∀ g, g ∈ module_groups self → group_fqn g ≠ p) ∧
     ∃ m1, h1 !! model = Some m1 ∧ get_linear m1 p = Some l ∧
       ∀ h2 h3, step update self h1 = Some h2 → squash_mask self h2 = Some h3 →
         ∃ m2 m3, h2 !! model = Some m2 ∧ h3 !! model = Some m3 ∧
                  get_linear m2 p = Some l ∧ get_linear m3 p = Some l).
Proof.
  intros Hm Hprep.
  apply prepare_inv in Hprep as (m0 & m1 & Hm0 & Hloop & -> & ->).
  rewrite Hm in Hm0. injection Hm0 as <-. simpl.
  split; [done|]. split; [|split; [|split]].
  - intros p Hp. by apply (list_elem_of_fmap_2 (make_group dflt)) in Hp.
  - intros p args Hp. apply (list_elem_of_fmap_2 (make_group dflt)) in Hp.
    eexists. split; [exact Hp|]. split; [done|].
    intros k. simpl. rewrite lookup_union.
    by destruct (args !! k), (dflt !! k).
  - intros -> p l Hl. simpl.
    apply (list_elem_of_fmap_2 (make_group dflt) _ (ConfigModule p)).
    apply list_elem_of_fmap_2, named_linears_spec. by eexists.
  - intros p l Hl Hp.
    rewrite <- (group_fqn_make_group dflt) in Hp.
    split.
    { intros g Hg <-. apply Hp. by apply list_elem_of_fmap_2. }
    destruct (for_each_group_layer _ _ _ _ _ _ _ Hloop Hl) as (l1 & Hl1 & Hon1).
    rewrite on_layer_unnamed in Hon1 by done. injection Hon1 as <-.
    exists m1. split; [by rewrite lookup_insert_eq|]. split; [done|].
    intros h2 h3 Hstep Hsquash.
    apply step_inv in Hstep as (m1' & m2 & Hm1' & Hloop2 & ->). simpl in *.
    rewrite lookup_insert_eq in Hm1'. injection Hm1' as <-.
    apply squash_mask_inv in Hsquash as (m2' & m3 & Hm2' & Hloop3 & ->). simpl in *.
    rewrite lookup_insert_eq in Hm2'. injection Hm2' as <-.
    destruct (for_each_group_layer _ _ _ _ _ _ _ Hloop2 Hl1) as (l2 & Hl2 & Hon2).
    rewrite on_layer_unnamed in Hon2 by done. injection Hon2 as <-.
    destruct (for_each_group_layer _ _ _ _ _ _ _ Hloop3 Hl2) as (l3 & Hl3 & Hon3).
    rewrite on_layer_unnamed in Hon3 by done. injection Hon3 as <-.
    exists m2, m3. by rewrite !lookup_insert_eq.
Qed.

Lemma prepare_default_groups_witness :
  ∃ self h1,
    prepare (closest_to_mean_defaults (1 # 2)) {[ 0 := four_layers ]} 0 (Some three_of_four)
      = Some (self, h1) ∧
    module_groups self
      = make_group (closest_to_mean_defaults (1 # 2))
          <$> config_list four_layers (Some three_of_four) ∧
    (∀ p, ConfigModule p ∈ config_list four_layers (Some three_of_four) →
          mkGroup p (closest_to_mean_defaults (1 # 2)) ∈ module_groups self) ∧
    (∀ p args, ConfigDict p args ∈ config_list four_layers (Some three_of_four) →
       ∃ g, g ∈ module_groups self ∧ group_fqn g = p ∧
            ∀ k, group_args g !! k
                 = match args !! k with
                   | Some v => Some v
                   | None => closest_to_mean_defaults (1 # 2) !! k
                   end) ∧
    (Some three_of_four = None → ∀ p l, get_linear four_layers p = Some l →
       mkGroup p (closest_to_mean_defaults (1 # 2)) ∈ module_groups self) ∧
    (∀ p l, get_linear four_layers p = Some l →
       p ∉ config_module <$> config_list four_layers (Some three_of_four) →
       (∀ g, g ∈ module_groups self → group_fqn g ≠ p) ∧
       ∃ m1, h1 !! 0 = Some m1 ∧ get_linear m1 p = Some l ∧
         ∀ h2 h3, step (closest_to_mean_update sequential_mean stable_sort) self h1 = Some h2 →
                  squash_mask self h2 = Some h3 →
           ∃ m2 m3, h2 !! 0 = Some m2 ∧ h3 !! 0 = Some m3 ∧
                    get_linear m2 p = Some l ∧ get_linear m3 p = Some l).
Proof.
  eexists _, _. split; [reflexivity|].
  apply (prepare_default_groups (closest_to_mean_update sequential_mean stable_sort)
           (closest_to_mean_defaults (1 # 2)) {[ 0 := four_layers ]} _ 0
           (Some three_of_four)); reflexivity.
Defined.

(** C2 as stated fails.  In the small copy of the notebook's model the
    configuration lists the first three linear layers; the fourth is a
    linear layer that the configuration does not list.  After [prepare],
    [step] and [squash_mask] the listed layers are at 3/4, 1/4 and the
    default 1/2 (here 2/4); the fourth has no zero entry at all: it did
    not get the default group. *)
Lemma unlisted_layer_stays_dense :
  get_linear four_layers [6] = Some (linear 1 4 [1; 2; 6; 7]%Q) ∧
  ([6] ∉ config_module <$> three_of_four) ∧
  ((λ h, (λ p, layer_sparsity h 0 p) <$> named_linears four_layers)
     <$> prepare_step_squash sequential_mean stable_sort (1 # 2) {[ 0 := four_layers ]} 0 (Some three_of_four))
  = Some [Some (3 # 4); Some (1 # 4); Some (2 # 4); Some (0 # 4)]%Q ∧
  ¬ (0 # 4 == 1 # 2)%Q.
Proof.
  split; [reflexivity|]. split; [|split; [reflexivity|discriminate]].
  intros H. repeat (apply elem_of_cons in H as [H|H]; [discriminate H|]).
  by apply not_elem_of_nil in H.
Qed.

(** The model of [prepare] against the run that the notebook records:
    the layers printed with a sparsity other than 0.00% are the layers
    that get a group, and the layer printed at 0.00% is the one the
    configuration leaves out. *)
Lemma recorded_run_agrees :
  Forall (λ pq : fqn * Q,
            (pq.2 == 0)%Q ↔
            pq.1 ∉ group_fqn <$> (make_group recorded_defaults <$> recorded_config))
         recorded_sparsity.
Proof.
  rewrite group_fqn_make_group.
  change (config_module <$> recorded_config) with [[0]; [2]; [4]].
  unfold recorded_sparsity.
  repeat (apply Forall_cons; split); try (by apply Forall_nil); cbn [fst snd].
  - split; [discriminate|]. intros H. exfalso. apply H. set_solver.
  - split; [discriminate|]. intros H. exfalso. apply H. set_solver.
  - split; [discriminate|]. intros H. exfalso. apply H. set_solver.
  - split; [|reflexivity]. intros _ H.
    repeat (apply elem_of_cons in H as [H|H]; [discriminate H|]).
    by apply not_elem_of_nil in H.
Qed.


(** * Further properties of the repository's code *)

(** ** update_mask at every level *)

Lemma slice_to_length {A} (l : list A) (t : Z) :
  length (Py.slice_to l t)
  = if (0 <=? t)%Z then Z.to_nat t `min` length l else length l - Z.to_nat (- t).
Proof.
  unfold Py.slice_to. destruct (0 <=? t)%Z; rewrite length_take; lia.
Qed.

(** X1. Whatever the level, also outside [0, 1]: when the threshold
    int(round(s * n)) cannot be computed, because the float product is
    infinite, [update_mask] raises; when it is computed, as t, and lies
    in [-2**62, 2**63), [update_mask] returns on a prepared layer, and
    the number of zeros of the new 0/1 mask is the length of
    the slice [sorted_idx[:t]]: a threshold t >= 0 zeroes min(t, n)
    entries, a negative threshold zeroes n - |t| entries (none when
    |t| >= n), counting from the end as Python slices do. *)
Theorem update_mask_any_level (torch_mean : list Q → Q) (torch_sort : list Q → list Q * list nat)
    (layer : Linear) (mask : tensor) (rest : list tensor) (s : Q) :
  let d := distance_to_mean torch_mean (data (original layer)) in
  let n := length (data (original layer)) in
  parametrizations layer = mask :: rest →
  numel mask = n →
  is_sort_of d (torch_sort d) = true →
  (threshold_idx s n = None → update_mask torch_mean torch_sort layer s = None) ∧
  (∀ t, threshold_idx s n = Some t → (- 2 ^ 62 ≤ t < 2 ^ 63)%Z →
     ∃ new_mask,
       update_mask torch_mean torch_sort layer s = Some (set_mask layer new_mask) ∧
       shape new_mask = shape mask ∧
       length (data new_mask) = n ∧
       binary_mask new_mask ∧
       count_zeros (data new_mask)
       = if (0 <=? t)%Z then Z.to_nat t `min` n else n - Z.to_nat (- t)).
Proof.
  intros d n Hp Hnum Hsort.
  destruct (sorted_idx_length torch_mean torch_sort layer Hsort) as [_ Hidx].
  fold d n in Hidx.
  split.
  - intros Hnone. apply update_mask_no_selection.
    unfold selected_idx, flatten. fold d. by rewrite Hidx, Hnone.
  - intros t Ht [Hlow _].
    destruct (update_mask_selected torch_mean torch_sort layer mask rest s t
                Hp Hnum Hsort Ht Hlow)
      as (v & Hupd & Hlen & Hlook & Hcount).
    exists (Tensor (shape mask) v). cbn [data shape].
    split; [done|]. split; [done|]. split; [done|]. split.
    + unfold binary_mask. cbn [data].
      apply binary_of_lookup. intros i Hi. rewrite Hlen in Hi.
      rewrite (Hlook i Hi). case_decide; auto.
    + rewrite Hcount, slice_to_length. fold d. by rewrite Hidx.
Qed.

Lemma update_mask_any_level_witness :
  ∃ new_mask,
    update_mask sequential_mean stable_sort layer_1x4 (- 1 # 4)
      = Some (set_mask layer_1x4 new_mask) ∧
    shape new_mask = [1; 4] ∧
    length (data new_mask) = 4 ∧
    binary_mask new_mask ∧
    count_zeros (data new_mask) = 3.
Proof.
  destruct (update_mask_any_level sequential_mean stable_sort layer_1x4
              (Tensor [1; 4] [1; 1; 1; 1]%Q) [] (- 1 # 4)) as [_ H];
    [reflexivity | reflexivity | vm_compute; reflexivity |].
  apply (H (-1)%Z); [vm_compute; reflexivity | split; vm_compute; [discriminate|reflexivity]].
Defined.

(** X2. Level 0 switches the sparsity off: on any layer with a wrapper,
    whatever the old mask and whatever the sort returns, [update_mask]
    returns and the new mask is all ones; with a single wrapper of the
    weight's shape the layer's weight is the original weight again. *)
Theorem update_mask_level_zero (torch_mean : list Q → Q) (torch_sort : list Q → list Q * list nat)
    (layer : Linear) (mask : tensor) (rest : list tensor) :
  parametrizations layer = mask :: rest →
  update_mask torch_mean torch_sort layer 0 = Some (set_mask layer (ones_like mask)) ∧
  (rest = [] → shape mask = shape (original layer) → tensor_wf (original layer) →
   weight (set_mask layer (ones_like mask)) = original layer).
Proof.
  intros Hp. split.
  - apply (update_mask_intro torch_mean torch_sort layer 0 mask rest []); [done| |done].
    apply selected_idx_Some. exists 0%Z.
    split; [apply threshold_idx_zero|]. split; [done|].
    by rewrite slice_to_take.
  - intros -> Hshape Hwf.
    apply (weight_all_ones (set_mask layer (ones_like mask))); [done|].
    unfold set_mask. simpl. rewrite Hp. simpl.
    apply Forall_singleton. unfold ones_like, numel. by rewrite Hshape.
Qed.

Lemma update_mask_level_zero_witness :
  update_mask sequential_mean stable_sort (set_mask layer_1x4 (Tensor [1; 4] [0; 0; 0; 1]%Q)) 0
  = Some (set_mask (set_mask layer_1x4 (Tensor [1; 4] [0; 0; 0; 1]%Q))
            (ones_like (Tensor [1; 4] [0; 0; 0; 1]%Q))) ∧
  (([] : list tensor) = [] →
   [1; 4] = shape (original (set_mask layer_1x4 (Tensor [1; 4] [0; 0; 0; 1]%Q))) →
   tensor_wf (original (set_mask layer_1x4 (Tensor [1; 4] [0; 0; 0; 1]%Q))) →
   weight (set_mask (set_mask layer_1x4 (Tensor [1; 4] [0; 0; 0; 1]%Q))
             (ones_like (Tensor [1; 4] [0; 0; 0; 1]%Q)))
   = original (set_mask layer_1x4 (Tensor [1; 4] [0; 0; 0; 1]%Q))).
Proof.
  apply (update_mask_level_zero sequential_mean stable_sort
           (set_mask layer_1x4 (Tensor [1; 4] [0; 0; 0; 1]%Q))
           (Tensor [1; 4] [0; 0; 0; 1]%Q) []).
  reflexivity.
Defined.

(** X3. A level of 1 or more zeroes the whole mask: on a weight of at
    most 2**53 entries, whenever the threshold is computed and is below
    2**63, every entry of the new mask is 0, and every entry of the
    layer's weight is zero. *)
Theorem update_mask_level_one (torch_mean : list Q → Q) (torch_sort : list Q → list Q * list nat)
    (layer : Linear) (mask : tensor) (rest : list tensor) (s : Q) (k : Z) :
  let d := distance_to_mean torch_mean (data (original layer)) in
  let n := length (data (original layer)) in
  parametrizations layer = mask :: rest →
  numel mask = n →
  is_sort_of d (torch_sort d) = true →
  (1 <= s)%Q →
  (Z.of_nat n ≤ 2 ^ 53)%Z →
  threshold_idx s n = Some k →
  (k < 2 ^ 63)%Z →
  update_mask torch_mean torch_sort layer s
  = Some (set_mask layer (Tensor (shape mask) (replicate n 0%Q))) ∧
  (rest = [] →
   Forall (λ x, (x == 0)%Q)
     (data (weight (set_mask layer (Tensor (shape mask) (replicate n 0%Q)))))).
Proof.
  intros d n Hp Hnum Hsort Hs Hn Hk _.
  pose proof (threshold_idx_at_least s n k Hs Hn Hk) as Hkn.
  destruct (sorted_idx_length torch_mean torch_sort layer Hsort) as [Hdn Hidx].
  fold d n in Hdn, Hidx.
  destruct (update_mask_selected torch_mean torch_sort layer mask rest s k
              Hp Hnum Hsort Hk ltac:(lia))
    as (v & Hupd & Hlen & Hlook & _).
  fold d n in Hlook.
  apply is_sort_of_spec in Hsort as [Hperm _]. rewrite Hdn in Hperm.
  assert (Hall : Py.slice_to (torch_sort d).2 k = (torch_sort d).2).
  { rewrite slice_to_take by lia. apply take_ge. lia. }
  rewrite Hall in Hlook.
  assert (Hv : v = replicate n 0%Q).
  { apply list_eq. intros i.
    destruct (decide (i < n)) as [Hi|Hi].
    - rewrite (Hlook i Hi), lookup_replicate_2 by done.
      rewrite decide_True; [done|].
      rewrite Hperm, elem_of_seq. lia.
    - rewrite !lookup_ge_None_2; [done| |]; rewrite ?length_replicate; lia. }
  rewrite <- Hv. split; [done|].
  intros ->. unfold weight, set_mask. rewrite Hp. simpl.
  rewrite Hv. apply Forall_forall. intros x Hx.
  apply elem_of_lookup_zip_with in Hx as (i & a & b & -> & Ha & _).
  apply lookup_replicate in Ha as [-> _]. apply Qmult_0_l.
Qed.

Lemma update_mask_level_one_witness :
  update_mask sequential_mean stable_sort layer_1x4 (3 # 2)
  = Some (set_mask layer_1x4 (Tensor [1; 4] (replicate 4 0%Q))) ∧
  (([] : list tensor) = [] →
   Forall (λ x, (x == 0)%Q)
     (data (weight (set_mask layer_1x4 (Tensor [1; 4] (replicate 4 0%Q)))))).
Proof.
  apply (update_mask_level_one sequential_mean stable_sort layer_1x4
           (Tensor [1; 4] [1; 1; 1; 1]%Q) [] (3 # 2) 6);
    [reflexivity | reflexivity | vm_compute; reflexivity | discriminate
    | vm_compute; discriminate | vm_compute; reflexivity | vm_compute; reflexivity].
Defined.

(** X4. [update_mask] forgets the old mask: only its shape is read.
    Replacing the current mask by any mask of the same shape before the
    call changes nothing of what the call returns; the masks of
    successive steps do not accumulate. *)
Theorem update_mask_forgets_old_mask (torch_mean : list Q → Q) (torch_sort : list Q → list Q * list nat)
    (layer : Linear) (mask other : tensor) (rest : list tensor) (s : Q) :
  parametrizations layer = mask :: rest →
  shape other = shape mask →
  update_mask torch_mean torch_sort (set_mask layer other) s = update_mask torch_mean torch_sort layer s.
Proof.
  intros Hp Hshape.
  assert (Hp' : parametrizations (set_mask layer other) = other :: rest).
  { unfold set_mask. simpl. by rewrite Hp. }
  assert (Hnum : numel other = numel mask) by (unfold numel; by rewrite Hshape).
  assert (Hset : ∀ v, set_mask (set_mask layer other) (Tensor (shape other) v)
                      = set_mask layer (Tensor (shape mask) v)).
  { intros v. unfold set_mask. simpl. by rewrite Hp, Hshape. }
  destruct (update_mask torch_mean torch_sort layer s) as [l'|] eqn:Hupd.
  - apply update_mask_inv in Hupd as (mask' & rest' & selected & v & Hp0 & Hsel & Hv & _ & ->).
    rewrite Hp in Hp0. injection Hp0 as <- <-.
    rewrite <- Hset. apply (update_mask_intro _ _ _ _ _ rest selected); [done|done|].
    by rewrite Hnum.
  - destruct (update_mask torch_mean torch_sort (set_mask layer other) s) as [l'|] eqn:Hupd';
      [|done].
    apply update_mask_inv in Hupd' as (mask' & rest' & selected & v & Hp0 & Hsel & Hv & _ & _).
    rewrite Hp' in Hp0. injection Hp0 as <- <-.
    rewrite Hnum in Hv.
    by rewrite (update_mask_intro torch_mean torch_sort layer s mask rest selected v
                  Hp Hsel Hv) in Hupd.
Qed.

Lemma update_mask_forgets_old_mask_witness :
  update_mask sequential_mean stable_sort (set_mask layer_1x4 (Tensor [1; 4] [0; 1; 0; 1]%Q)) (1 # 2)
  = update_mask sequential_mean stable_sort layer_1x4 (1 # 2).
Proof.
  apply (update_mask_forgets_old_mask sequential_mean stable_sort layer_1x4
           (Tensor [1; 4] [1; 1; 1; 1]%Q) _ []); reflexivity.
Defined.

(** X5. [update_mask] writes the first mask and nothing else, and through
    the mask it only removes: on a layer with one wrapper, every entry
    of the weight after the call is the original entry, unchanged, or
    zero. *)
Theorem update_mask_keeps_or_zeroes (torch_mean : list Q → Q) (torch_sort : list Q → list Q * list nat)
    (layer layer' : Linear) (mask : tensor) (s : Q) :
  parametrizations layer = [mask] →
  numel mask = length (data (original layer)) →
  update_mask torch_mean torch_sort layer s = Some layer' →
  in_features layer' = in_features layer ∧
  out_features layer' = out_features layer ∧
  bias layer' = bias layer ∧
  original layer' = original layer ∧
  length (data (weight layer')) = length (data (original layer)) ∧
  ∀ i w, data (original layer) !! i = Some w →
    data (weight layer') !! i = Some w ∨
    ∃ z, data (weight layer') !! i = Some z ∧ (z == 0)%Q.
Proof.
  intros Hp Hnum Hupd.
  apply update_mask_inv in Hupd as (mask' & rest & selected & v & Hp' & _ & Hv & Hlen & ->).
  rewrite Hp in Hp'. injection Hp' as <- <-.
  assert (Hbin : Forall (λ x, x = 0%Q ∨ x = 1%Q) v).
  { apply (index_put_zero_binary _ _ _ Hv), Forall_replicate. auto. }
  assert (Hw : data (weight (set_mask layer (Tensor (shape mask) v)))
               = zip_with Qmult v (data (original layer))).
  { unfold weight, set_mask. simpl. by rewrite Hp. }
  rewrite Hw. repeat (split; [done|]). split.
  - rewrite length_zip_with. lia.
  - intros i w Hi.
    destruct (lookup_lt_is_Some_2 v i) as [x Hx].
    { rewrite Hlen, Hnum. by eapply lookup_lt_Some. }
    rewrite lookup_zip_with, Hx, Hi. simpl.
    rewrite Forall_lookup in Hbin.
    destruct (Hbin i x Hx) as [-> | ->].
    + right. eexists. split; [done|]. apply Qmult_0_l.
    + left. by rewrite Qmult_1_l_eq.
Qed.

Lemma update_mask_keeps_or_zeroes_witness :
  in_features (set_mask layer_1x4 (Tensor [1; 4] [0; 0; 0; 1]%Q)) = in_features layer_1x4 ∧
  out_features (set_mask layer_1x4 (Tensor [1; 4] [0; 0; 0; 1]%Q)) = out_features layer_1x4 ∧
  bias (set_mask layer_1x4 (Tensor [1; 4] [0; 0; 0; 1]%Q)) = bias layer_1x4 ∧
  original (set_mask layer_1x4 (Tensor [1; 4] [0; 0; 0; 1]%Q)) = original layer_1x4 ∧
  length (data (weight (set_mask layer_1x4 (Tensor [1; 4] [0; 0; 0; 1]%Q))))
  = length (data (original layer_1x4)) ∧
  ∀ i w, data (original layer_1x4) !! i = Some w →
    data (weight (set_mask layer_1x4 (Tensor [1; 4] [0; 0; 0; 1]%Q))) !! i = Some w ∨
    ∃ z, data (weight (set_mask layer_1x4 (Tensor [1; 4] [0; 0; 0; 1]%Q))) !! i = Some z
         ∧ (z == 0)%Q.
Proof.
  apply (update_mask_keeps_or_zeroes sequential_mean stable_sort layer_1x4 _
           (Tensor [1; 4] [1; 1; 1; 1]%Q) (3 # 4)); reflexivity.
Defined.

Lemma count_zeros_pos (v : list Q) :
  0 < count_zeros v → ∃ i x, v !! i = Some x ∧ is_zero x = true.
Proof.
  induction v as [|y v IH]; [by intros ?%Nat.lt_irrefl|].
  rewrite count_zeros_cons. destruct (is_zero y) eqn:Hy.
  - intros _. by exists 0, y.
  - intros Hv. destruct (IH Hv) as (i & x & Hx & Hz). by exists (S i), x.
Qed.

Lemma count_zeros_not_all (v : list Q) :
  count_zeros v < length v → ∃ i x, v !! i = Some x ∧ is_zero x = false.
Proof.
  induction v as [|y v IH]; [by intros ?%Nat.lt_irrefl|].
  rewrite count_zeros_cons. destruct (is_zero y) eqn:Hy.
  - simpl. intros Hv. destruct IH as (i & x & Hx & Hz); [lia|]. by exists (S i), x.
  - intros _. by exists 0, y.
Qed.

(** X6. Which entries go first.  For a level in [0, 1] on a weight of
    at most 2**53 entries, with threshold k = int(round(s * n)): an entry
    whose distance to the mean is strictly smaller than that of every
    other entry is zeroed as soon as k >= 1, and an entry whose distance
    is strictly larger than that of every other entry is kept as long as
    k < n.  The distances are the code's: the float32 differences to the
    mean that [mean()] returned, without their signs.  (The notebook's
    text speaks of removing the furthest entries; the code removes the
    closest.) *)
Theorem update_mask_closest_first (torch_mean : list Q → Q) (torch_sort : list Q → list Q * list nat)
    (layer : Linear) (mask : tensor) (rest : list tensor) (s : Q) (i : nat) :
  let w := flatten (original layer) in
  let n := length w in
  let dist := λ j, Qabs (fl32 (entry w j - torch_mean w)) in
  parametrizations layer = mask :: rest →
  numel mask = n →
  is_sort_of (distance_to_mean torch_mean w) (torch_sort (distance_to_mean torch_mean w)) = true →
  (0 <= s)%Q → (s <= 1)%Q →
  (Z.of_nat n ≤ 2 ^ 53)%Z →
  i < n →
  ∃ new_mask k,
    update_mask torch_mean torch_sort layer s = Some (set_mask layer new_mask) ∧
    threshold_idx s n = Some k ∧
    ((∀ j, j < n → j ≠ i → (dist i < dist j)%Q) →
     (1 ≤ k)%Z → data new_mask !! i = Some 0%Q) ∧
    ((∀ j, j < n → j ≠ i → (dist j < dist i)%Q) →
     (k < Z.of_nat n)%Z → data new_mask !! i = Some 1%Q).
Proof.
  intros w n dist Hp Hnum Hsort H0 H1 Hn Hi.
  destruct (update_mask_sorted torch_mean torch_sort layer mask rest s Hp Hnum Hsort H0 H1 Hn)
    as (v & k & Hupd & Hk & Hkn & Hlen & Hcount & Hbin & Hord).
  change (length (data (original layer))) with n in Hk, Hkn, Hlen, Hbin.
  change (data (original layer)) with w in Hord.
  assert (Hdist : ∀ a b, v !! a = Some 0%Q → v !! b = Some 1%Q → (dist a <= dist b)%Q).
  { intros a b Ha Hb. unfold dist. rewrite <- !distance_entry.
    - by apply Hord.
    - apply lookup_lt_Some in Hb. rewrite Hlen in Hb. exact Hb.
    - apply lookup_lt_Some in Ha. rewrite Hlen in Ha. exact Ha. }
  exists (Tensor (shape mask) v), (Z.of_nat k). cbn [data].
  split; [done|]. split; [done|]. split.
  - intros Hclosest Hk1.
    destruct (Hbin i Hi) as [Hvi|Hvi]; [done|]. exfalso.
    destruct (count_zeros_pos v) as (j & x & Hj & Hz); [lia|].
    assert (Hjn : j < n).
    { apply lookup_lt_Some in Hj. rewrite Hlen in Hj. exact Hj. }
    destruct (Hbin j Hjn) as [Hj0|Hj1].
    + assert (j ≠ i) by (intros ->; congruence).
      apply (Qlt_not_le _ _ (Hclosest j Hjn ltac:(done))). by apply Hdist.
    + rewrite Hj in Hj1. by injection Hj1 as ->.
  - intros Hfarthest Hkn'.
    destruct (Hbin i Hi) as [Hvi|Hvi]; [|done]. exfalso.
    destruct (count_zeros_not_all v) as (j & x & Hj & Hz); [lia|].
    assert (Hjn : j < n).
    { apply lookup_lt_Some in Hj. rewrite Hlen in Hj. exact Hj. }
    destruct (Hbin j Hjn) as [Hj0|Hj1].
    + rewrite Hj in Hj0. by injection Hj0 as ->.
    + assert (j ≠ i) by (intros ->; congruence).
      apply (Qlt_not_le _ _ (Hfarthest j Hjn ltac:(done))). by apply Hdist.
Qed.

Lemma update_mask_closest_first_witness :
  ∃ new_mask k,
    update_mask sequential_mean stable_sort layer_1x4 (1 # 2)
      = Some (set_mask layer_1x4 new_mask) ∧
    threshold_idx (1 # 2) 4 = Some k ∧
    ((∀ j, j < 4 → j ≠ 3 →
        (Qabs (fl32 (entry [1; 2; 3; 6] 3 - sequential_mean [1; 2; 3; 6]))
         < Qabs (fl32 (entry [1; 2; 3; 6] j - sequential_mean [1; 2; 3; 6])))%Q) →
     (1 ≤ k)%Z → data new_mask !! 3 = Some 0%Q) ∧
    ((∀ j, j < 4 → j ≠ 3 →
        (Qabs (fl32 (entry [1; 2; 3; 6] j - sequential_mean [1; 2; 3; 6]))
         < Qabs (fl32 (entry [1; 2; 3; 6] 3 - sequential_mean [1; 2; 3; 6])))%Q) →
     (k < Z.of_nat 4)%Z → data new_mask !! 3 = Some 1%Q).
Proof.
  apply (update_mask_closest_first sequential_mean stable_sort layer_1x4
           (Tensor [1; 4] [1; 1; 1; 1]%Q) [] (1 # 2) 3);
    [reflexivity | reflexivity | vm_compute; reflexivity | discriminate | discriminate
    | vm_compute; discriminate | simpl; lia].
Defined.

(** X7. A mask with fewer entries than the weight makes the index
    assignment fail: at a level of 1 or more on a weight of at most
    2**53 entries, where every index is selected, [update_mask] raises
    (IndexError, or the error of a threshold that cannot be computed)
    and assigns nothing. *)
Theorem update_mask_short_mask_raises (torch_mean : list Q → Q) (torch_sort : list Q → list Q * list nat)
    (layer : Linear) (mask : tensor) (rest : list tensor) (s : Q) :
  let d := distance_to_mean torch_mean (data (original layer)) in
  let n := length (data (original layer)) in
  parametrizations layer = mask :: rest →
  numel mask < n →
  is_sort_of d (torch_sort d) = true →
  (1 <= s)%Q →
  (Z.of_nat n ≤ 2 ^ 53)%Z →
  update_mask torch_mean torch_sort layer s = None.
Proof.
  intros d n Hp Hnum Hsort Hs Hn.
  destruct (sorted_idx_length torch_mean torch_sort layer Hsort) as [Hdn Hidx].
  fold d n in Hdn, Hidx.
  apply is_sort_of_spec in Hsort as [Hperm _]. rewrite Hdn in Hperm.
  destruct (update_mask torch_mean torch_sort layer s) as [l'|] eqn:Hupd; [|done]. exfalso.
  apply update_mask_inv in Hupd as (mask' & rest' & selected & v & Hp' & Hsel & Hv & _ & _).
  rewrite Hp in Hp'. injection Hp' as <- <-.
  apply selected_idx_Some in Hsel as (t & Ht & _ & ->).
  fold d in Ht. rewrite Hidx in Ht. fold d in Hv.
  pose proof (threshold_idx_at_least s n t Hs Hn Ht) as Htn.
  assert (Hall : Py.slice_to (torch_sort d).2 t = (torch_sort d).2).
  { rewrite slice_to_take by lia. apply take_ge. lia. }
  rewrite Hall in Hv.
  apply index_put_zero_in_range in Hv.
  rewrite Forall_forall in Hv.
  specialize (Hv (numel mask)). rewrite length_replicate in Hv.
  apply (Nat.lt_irrefl (numel mask)), Hv.
  rewrite Hperm, elem_of_seq. lia.
Qed.

Lemma update_mask_short_mask_raises_witness :
  update_mask sequential_mean stable_sort layer_short_mask 1 = None.
Proof.
  apply (update_mask_short_mask_raises sequential_mean stable_sort layer_short_mask
           (Tensor [3] [1; 1; 1]%Q) []);
    [reflexivity | unfold numel; simpl; lia | vm_compute; reflexivity | discriminate
    | vm_compute; discriminate].
Defined.

(** ** get_sl on every list of epoch points *)

(** X8. When [get_sl] raises.  With no epoch point it always raises; with
    one point it raises from that point on; with two points it raises
    once [last_epoch] has reached both; with three or more it never
    raises. *)
Theorem get_sl_raises_iff (self : OnOffSchedulerSL) :
  get_sl self = None ↔
  match epoch_points self with
  | [] => True
  | [e0] => (e0 ≤ last_epoch self)%Z
  | [e0; e1] => (e0 ≤ last_epoch self)%Z ∧ (e1 ≤ last_epoch self)%Z
  | _ => False
  end.
Proof.
  destruct self as [last base points]. unfold get_sl, chain_le_lt. simpl.
  destruct points as [|e0 [|e1 [|e2 points]]]; simpl.
  - done.
  - destruct (Z.ltb_spec last e0); simpl; [split; [done|lia]|].
    rewrite (proj2 (Z.leb_le e0 last)) by done. simpl. done.
  - destruct (Z.ltb_spec last e0); simpl; [split; [done|lia]|].
    rewrite (proj2 (Z.leb_le e0 last)) by done. simpl.
    destruct (Z.ltb_spec last e1); simpl; [split; [done|lia]|].
    rewrite (proj2 (Z.leb_le e1 last)) by done. simpl. done.
  - split; [|done].
    destruct (last <? e0)%Z; simpl; [done|].
    destruct (e0 <=? last)%Z; simpl.
    + destruct (last <? e1)%Z; simpl; [done|].
      by destruct (e1 <=? last)%Z, (last <? e2)%Z.
    + by destruct (e1 <=? last)%Z, (last <? e2)%Z.
Qed.

(** X9. With three epoch points in any order, the schedule is off, all
    levels 0, exactly when [last_epoch < e0] or [e1 <= last_epoch < e2],
    and on, at the base levels, otherwise: it starts off before [e0],
    it ends on for good once [last_epoch] has reached [e1] and [e2], and
    the switch points themselves belong to the phase they open.  When
    [e1 <= e0] the first on-phase is empty. *)
Theorem get_sl_off_exactly (last e0 e1 e2 : Z) (points : list Z) (base : list Q) :
  let self := mkOnOff last base (e0 :: e1 :: e2 :: points) in
  let zeros := replicate (length base) 0%Q in
  get_sl self
  = Some (if (last <? e0)%Z || ((e1 <=? last)%Z && (last <? e2)%Z) then zeros else base) ∧
  ((last < e0)%Z → get_sl self = Some zeros) ∧
  ((e0 ≤ last)%Z → (e1 ≤ last)%Z → (e2 ≤ last)%Z → get_sl self = Some base) ∧
  ((e1 ≤ e0)%Z → (last < e2)%Z → get_sl self = Some zeros).
Proof.
  intros self zeros.
  assert (Hsl : get_sl self
    = Some (if (last <? e0)%Z || ((e1 <=? last)%Z && (last <? e2)%Z) then zeros else base)).
  { unfold get_sl, chain_le_lt, self. simpl. fold zeros.
    destruct (Z.ltb_spec last e0); simpl; [done|].
    rewrite (proj2 (Z.leb_le e0 last)) by done. simpl.
    destruct (Z.ltb_spec last e1); simpl.
    - by rewrite (proj2 (Z.leb_gt e1 last)) by done.
    - rewrite (proj2 (Z.leb_le e1 last)) by done. simpl.
      by destruct (last <? e2)%Z. }
  rewrite Hsl. split; [done|]. split; [|split].
  - intros Hlt. by rewrite (proj2 (Z.ltb_lt last e0) Hlt).
  - intros H0 H1 H2.
    rewrite (proj2 (Z.ltb_ge last e0)), (proj2 (Z.ltb_ge last e2)) by done.
    by rewrite andb_false_r.
  - intros H10 Hlt.
    destruct (Z.ltb_spec last e0); [done|]. simpl.
    rewrite (proj2 (Z.leb_le e1 last)) by lia.
    by rewrite (proj2 (Z.ltb_lt last e2)).
Qed.

(** ** stepping_lambda on every epoch *)

(** X10. [stepping_lambda] raises exactly for epochs below -4.  From -4
    to -1 the index wraps around, so that epoch -1 gives the factor 1 and
    epoch -4 the factor 0; every factor it returns, at whatever epoch,
    is in [0, 1]. *)
Theorem stepping_lambda_raises_iff (epoch : Z) :
  (stepping_lambda epoch = None ↔ (epoch < -4)%Z) ∧
  ((-4 ≤ epoch < 0)%Z → stepping_lambda epoch = stepping_lambda (epoch + 4)) ∧
  (∀ f, stepping_lambda epoch = Some f → (0 <= f)%Q ∧ (f <= 1)%Q).
Proof.
  assert (Hcases : (epoch < -4 ∨ epoch = -4 ∨ epoch = -3 ∨ epoch = -2 ∨ epoch = -1
                    ∨ epoch = 0 ∨ epoch = 1 ∨ epoch = 2 ∨ epoch = 3 ∨ 4 ≤ epoch)%Z) by lia.
  assert (Hlow : (epoch < -4)%Z → stepping_lambda epoch = None).
  { intros Hlt.
    change (stepping_lambda epoch)
      with (if (4 <=? epoch)%Z then Some 1%Q
            else if (0 <=? epoch)%Z then [0; 1 # 2; 3 # 4; 1]%Q !! Z.to_nat epoch
            else if (-4 <=? epoch)%Z then [0; 1 # 2; 3 # 4; 1]%Q !! Z.to_nat (4 + epoch)
            else None).
    by rewrite (proj2 (Z.leb_gt 4 epoch)), (proj2 (Z.leb_gt 0 epoch)),
      (proj2 (Z.leb_gt (-4) epoch)) by lia. }
  assert (Hhigh : (4 ≤ epoch)%Z → stepping_lambda epoch = Some 1%Q).
  { intros Hge.
    change (stepping_lambda epoch)
      with (if (4 <=? epoch)%Z then Some 1%Q
            else Py.index [0; 1 # 2; 3 # 4; 1]%Q epoch).
    by rewrite (proj2 (Z.leb_le 4 epoch)). }
  split; [|split].
  - destruct Hcases as [H|[->|[->|[->|[->|[->|[->|[->|[->|H]]]]]]]]];
      try (split; [discriminate|lia]).
    + by split.
    + rewrite Hhigh by done. split; [discriminate|lia].
  - intros Hneg.
    destruct Hcases as [H|[->|[->|[->|[->|H]]]]]; try done; lia.
  - intros f Hf.
    destruct Hcases as [H|[->|[->|[->|[->|[->|[->|[->|[->|H]]]]]]]]];
      try (injection Hf as <-; by split).
    + by rewrite Hlow in Hf.
    + rewrite Hhigh in Hf by done. injection Hf as <-. by split.
Qed.

(** X11. From epoch 0 on [stepping_lambda] never decreases: a later epoch
    gets a factor at least as large, so the level only ramps up. *)
Theorem stepping_lambda_monotone (a b : Z) (fa fb : Q) :
  (0 ≤ a)%Z → (a ≤ b)%Z →
  stepping_lambda a = Some fa → stepping_lambda b = Some fb →
  (fa <= fb)%Q.
Proof.
  intros Ha Hab.
  rewrite !stepping_lambda_values by lia.
  intros [= <-] [= <-].
  destruct (Z.eqb_spec a 0), (Z.eqb_spec a 1), (Z.eqb_spec a 2),
    (Z.eqb_spec b 0), (Z.eqb_spec b 1), (Z.eqb_spec b 2);
    try lia; discriminate.
Qed.

Lemma stepping_lambda_monotone_witness : (1 # 2 <= 3 # 4)%Q.
Proof.
  apply (stepping_lambda_monotone 1 2 (1 # 2) (3 # 4)); [lia | lia | reflexivity | reflexivity].
Defined.

(** ** The reports *)

Lemma count_zeros_le_length (v : list Q) : count_zeros v ≤ length v.
Proof.
  induction v as [|x v IH]; [done|].
  rewrite count_zeros_cons. simpl. destruct (is_zero x); lia.
Qed.

(** X12. The observed sparsity [(t == 0).float().mean()] of a tensor
    with at least one entry is a fraction between 0 and 1; it is 0
    exactly when no entry is zero and 1 exactly when every entry is. *)
Theorem sparsity_of_bounds (t : tensor) :
  0 < length (data t) →
  (0 <= sparsity_of t)%Q ∧ (sparsity_of t <= 1)%Q ∧
  ((sparsity_of t == 0)%Q ↔ count_zeros (data t) = 0) ∧
  ((sparsity_of t == 1)%Q ↔ count_zeros (data t) = length (data t)).
Proof.
  intros Hpos. unfold sparsity_of.
  pose proof (count_zeros_le_length (data t)) as Hle.
  set (c := count_zeros (data t)) in *. set (n := length (data t)) in *.
  assert (Hn : (0 < inject_Z (Z.of_nat n))%Q).
  { change 0%Q with (inject_Z 0). rewrite <- Zlt_Qlt. lia. }
  assert (Hn0 : ¬ (inject_Z (Z.of_nat n) == 0)%Q).
  { intros H. rewrite H in Hn. by apply Qlt_irrefl in Hn. }
  assert (Heq : ∀ z : Z,
            (inject_Z (Z.of_nat c) / inject_Z (Z.of_nat n) == inject_Z z)%Q
            ↔ Z.of_nat c = (z * Z.of_nat n)%Z).
  { intros z. split.
    - intros H. apply inject_Z_injective.
      rewrite inject_Z_mult, <- H.
      rewrite Qmult_comm. symmetry. by apply Qmult_div_r.
    - intros H. rewrite H, inject_Z_mult. by apply Qdiv_mult_l. }
  split; [|split; [|split]].
  - apply Qle_shift_div_l; [done|]. rewrite Qmult_0_l.
    change 0%Q with (inject_Z 0). rewrite <- Zle_Qle. lia.
  - apply Qle_shift_div_r; [done|]. rewrite Qmult_1_l.
    rewrite <- Zle_Qle. lia.
  - change 0%Q with (inject_Z 0). rewrite Heq. lia.
  - change 1%Q with (inject_Z 1). rewrite Heq. lia.
Qed.

Lemma sparsity_of_bounds_witness :
  (0 <= sparsity_of weight_after_step)%Q ∧
  (sparsity_of weight_after_step <= 1)%Q ∧
  ((sparsity_of weight_after_step == 0)%Q ↔ count_zeros (data weight_after_step) = 0) ∧
  ((sparsity_of weight_after_step == 1)%Q
   ↔ count_zeros (data weight_after_step) = length (data weight_after_step)).
Proof.
  apply (sparsity_of_bounds weight_after_step). simpl. lia.
Defined.

(** X13. The target lookup of the report.  It raises for a name that no
    group carries (IndexError), and for a name one of whose groups has
    no level (KeyError), even when an earlier group of that name has
    one; otherwise it is the level of the first group of that name. *)
Theorem sparsity_target_first (module_groups : list group) (name : fqn) :
  (name ∉ group_fqn <$> module_groups → sparsity_target module_groups name = None) ∧
  (∀ mg, mg ∈ module_groups → group_fqn mg = name →
         group_args mg !! "sparsity_level" = None →
         sparsity_target module_groups name = None) ∧
  (∀ before mg after,
     module_groups = before ++ mg :: after →
     name ∉ group_fqn <$> before →
     group_fqn mg = name →
     (∀ mg', mg' ∈ after → group_fqn mg' = name →
             is_Some (group_args mg' !! "sparsity_level")) →
     sparsity_target module_groups name = group_args mg !! "sparsity_level").
Proof.
  unfold sparsity_target. split; [|split].
  - intros Hname. rewrite filter_none; [done|].
    intros mg Hmg <-. apply Hname. by apply list_elem_of_fmap_2.
  - intros mg Hmg Hfqn Hkey.
    rewrite (mapM_None_2 (λ mg, group_args mg !! "sparsity_level")); [done|].
    apply Exists_exists. exists mg. split; [|done].
    by apply list_elem_of_filter.
  - intros before mg after -> Hbefore Hfqn Hafter.
    rewrite filter_app, filter_cons_True by done.
    rewrite (filter_none _ before).
    2:{ intros mg' Hmg' <-. apply Hbefore. by apply list_elem_of_fmap_2. }
    simpl. destruct (group_args mg !! "sparsity_level") as [v|]; [|done]. simpl.
    destruct (mapM_is_Some_2 (λ mg, group_args mg !! "sparsity_level")
                (filter (λ mg0, group_fqn mg0 = name) after)) as [vs Hvs].
    { apply Forall_forall. intros mg' Hmg'.
      apply list_elem_of_filter in Hmg' as [Hfqn' Hmg']. by apply Hafter. }
    by rewrite Hvs.
Qed.

(** On the example: the name [[0]] has a second group without a level,
    so the lookup raises although the first group has one; the name
    [[2]] is found; the name [[4]] has no group. *)
Lemma sparsity_target_examples :
  sparsity_target groups_with_a_gap [0] = None ∧
  sparsity_target groups_with_a_gap [2] = Some (VFloat (1 # 2)) ∧
  sparsity_target groups_with_a_gap [4] = None ∧
  sparsity_target (take 1 groups_with_a_gap) [0] = Some (VFloat (3 # 4)).
Proof. repeat split; reflexivity. Qed.

(** ** Whole models *)

Lemma module_ind_nested (P : module → Prop) :
  (∀ l, P (MLinear l)) →
  (∀ kind, P (MActivation kind)) →
  (∀ children, Forall P children → P (MSequential children)) →
  ∀ m, P m.
Proof.
  intros HL HA HS. fix IH 1. intros [l|kind|children].
  - apply HL.
  - apply HA.
  - apply HS. induction children as [|c children IHc]; constructor.
    + apply IH.
    + apply IHc.
Qed.

(** A model is its structure and its linear layers. *)
Lemma module_ext (m : module) : ∀ m',
  structure_of m = structure_of m' →
  (∀ p, get_linear m p = get_linear m' p) →
  m = m'.
Proof.
  induction m as [l|kind|children IH] using module_ind_nested; intros m' Hs Hl.
  - specialize (Hl []). destruct m'; try done.
    unfold get_linear in Hl. simpl in Hl. congruence.
  - destruct m'; try done. simpl in Hs. congruence.
  - destruct m' as [| |children']; try done.
    simpl in Hs. injection Hs as Hs. f_equal.
    revert children' Hs Hl.
    induction IH as [|c children Hc _ IHcs]; intros [|c' children'] Hs Hl; try done.
    rewrite !fmap_cons in Hs. injection Hs as Hc' Hs. f_equal.
    + apply Hc; [done|]. intros p. specialize (Hl (0 :: p)).
      unfold get_linear in *. simpl in Hl. exact Hl.
    + apply IHcs; [done|]. intros [|i p].
      * done.
      * specialize (Hl (S i :: p)). unfold get_linear in *. simpl in *. exact Hl.
Qed.

Lemma set_submodule_id (p : fqn) : ∀ m l,
  get_linear m p = Some l → set_submodule m p (MLinear l) = m.
Proof.
  induction p as [|i p IH]; intros m l Hl.
  - by apply get_linear_nil in Hl as ->.
  - apply get_linear_cons in Hl as (cs & c & -> & Hc & Hl).
    simpl. rewrite Hc, (IH _ _ Hl). by rewrite list_insert_id.
Qed.

(** The names of the linear layers are distinct. *)
Lemma named_linears_NoDup (m : module) : NoDup (named_linears m).
Proof.
  induction m as [l|kind|children IH] using module_ind_nested.
  - apply NoDup_singleton.
  - apply NoDup_nil_2.
  - simpl.
    assert (Hgo : ∀ k,
      NoDup (mjoin (zip_with (λ i names, cons i <$> names)
                      (seq k (length children)) (named_linears <$> children))) ∧
      ∀ p, p ∈ mjoin (zip_with (λ i names, cons i <$> names)
                        (seq k (length children)) (named_linears <$> children)) →
           ∃ i r, p = i :: r ∧ k ≤ i).
    { induction IH as [|c children Hc _ IHcs]; intros k.
      - split; [apply NoDup_nil_2|]. by intros p ?%not_elem_of_nil.
      - simpl. destruct (IHcs (S k)) as [Hnd Hhd]. split.
        + apply NoDup_app. split; [|split; [|done]].
          * apply (NoDup_fmap_2 _), Hc.
          * intros p Hp Hp'.
            apply list_elem_of_fmap in Hp as (r & -> & _).
            destruct (Hhd _ Hp') as (i & r' & [= <- _] & Hle). lia.
        + intros p Hp. apply elem_of_app in Hp as [Hp|Hp].
          * apply list_elem_of_fmap in Hp as (r & -> & _). by exists k, r.
          * destruct (Hhd _ Hp) as (i & r & -> & Hle). exists i, r. split; [done|lia]. }
    apply Hgo.
Qed.

(** A loop that returns does not create linear layers. *)
Lemma for_each_group_layer_inv {B} (F : B → Linear → option Linear) (path : B → fqn)
    (gs : list B) : ∀ m m' p l',
  for_each_group F path m gs = Some m' →
  get_linear m' p = Some l' →
  is_Some (get_linear m p).
Proof.
  induction gs as [|g gs IH]; intros m m' p l' Hloop Hl'.
  - injection Hloop as <-. by eexists.
  - rewrite for_each_group_cons in Hloop.
    destruct (update_at (F g) m (path g)) as [m1|] eqn:Hm1; [|done].
    simpl in Hloop.
    apply update_at_Some in Hm1 as (l0 & l0' & Hl0 & HF & ->).
    destruct (IH _ _ _ _ Hloop Hl') as [l1 Hl1].
    destruct (decide (p = path g)) as [->|Hne]; [by eexists|].
    exists l1. by eapply get_linear_set_other_inv.
Qed.

(** A loop each of whose steps finds its layer as the step leaves it
    returns the model it started with. *)
Lemma for_each_group_fixed {B} (F : B → Linear → option Linear) (path : B → fqn)
    (gs : list B) (m : module) :
  (∀ g, g ∈ gs → ∃ l, get_linear m (path g) = Some l ∧ F g l = Some l) →
  for_each_group F path m gs = Some m.
Proof.
  induction gs as [|g gs IH]; intros Hfix; [done|].
  rewrite for_each_group_cons.
  destruct (Hfix g) as (l & Hl & HF); [apply list_elem_of_here|].
  rewrite (proj2 (update_at_Some m (set_submodule m (path g) (MLinear l)) (F g) (path g)))
    by (by exists l, l).
  simpl. rewrite (set_submodule_id _ _ _ Hl).
  apply IH. intros g' Hg'. apply Hfix. by apply list_elem_of_further.
Qed.

Lemma closest_to_mean_update_again (torch_mean : list Q → Q) (torch_sort : list Q → list Q * list nat)
    (layer layer' : Linear) (kwargs : gmap string value) :
  closest_to_mean_update torch_mean torch_sort layer kwargs = Some layer' →
  closest_to_mean_update torch_mean torch_sort layer' kwargs = Some layer'.
Proof.
  unfold closest_to_mean_update.
  destruct (kwargs !! "sparsity_level") as [[s| |]|]; try done.
  intros Hupd.
  apply update_mask_inv in Hupd as (mask & rest & selected & v & Hp & Hsel & Hv & Hlen & ->).
  rewrite (update_mask_intro torch_mean torch_sort _ s (Tensor (shape mask) v) rest
             selected v).
  - unfold set_mask. simpl. by rewrite Hp.
  - simpl. by rewrite Hp.
  - exact Hsel.
  - simpl. exact Hv.
Qed.

Lemma closest_to_mean_update_dims (torch_mean : list Q → Q) (torch_sort : list Q → list Q * list nat)
    (layer layer' : Linear) (kwargs : gmap string value) :
  closest_to_mean_update torch_mean torch_sort layer kwargs = Some layer' →
  in_features layer' = in_features layer ∧ out_features layer' = out_features layer ∧
  bias layer' = bias layer.
Proof.
  unfold closest_to_mean_update.
  destruct (kwargs !! "sparsity_level") as [[s| |]|]; try done.
  intros Hupd.
  by apply update_mask_inv in Hupd as (mask & rest & selected & v & _ & _ & _ & _ & ->).
Qed.

(** ** The life cycle, composed *)

(** X14. Steps repeat: when each layer is in one group, a second [step]
    of a [ClosestToMeanSparsifier] right after a first one returns and
    leaves the whole store as the first one left it - weights that do
    not change between two steps keep their masks. *)
Theorem step_twice (torch_mean : list Q → Q) (torch_sort : list Q → list Q * list nat)
    (self : BaseSparsifier) (h h1 : gmap objid module) :
  NoDup (group_fqn <$> module_groups self) →
  step (closest_to_mean_update torch_mean torch_sort) self h = Some h1 →
  step (closest_to_mean_update torch_mean torch_sort) self h1 = Some h1.
Proof.
  intros Hnd Hstep.
  apply step_inv in Hstep as (m & m1 & Hm & Hloop & ->).
  apply step_inv. exists m1, m1.
  split; [by rewrite lookup_insert_eq|]. split; [|by rewrite insert_insert_eq].
  apply for_each_group_fixed. intros g Hg.
  destruct (for_each_group_linear _ _ _ _ _ _ Hloop Hg) as [l Hl].
  destruct (for_each_group_layer _ _ _ _ _ _ _ Hloop Hl) as (l1 & Hl1 & Hon).
  rewrite (on_layer_once _ group_fqn _ g l Hnd Hg) in Hon.
  destruct (closest_to_mean_update torch_mean torch_sort l (group_args g)) as [l1'|] eqn:Hupd;
    [|done].
  injection Hon as ->.
  exists l1. split; [done|]. by eapply closest_to_mean_update_again.
Qed.

Lemma step_twice_witness :
  step (closest_to_mean_update sequential_mean stable_sort) stepped_sparsifier {[ 0 := stepped_model ]}
  = Some {[ 0 := stepped_model ]}.
Proof.
  apply (step_twice sequential_mean stable_sort stepped_sparsifier
           {[ 0 := MSequential [MLinear (attach_mask (linear 4 1 [1; 2; 3; 6]%Q));
                                MActivation "ReLU";
                                MLinear (linear 1 4 [1; 2; 6; 7]%Q)] ]}).
  - apply NoDup_singleton.
  - reflexivity.
Defined.

(** [prepare] and then [squash_mask], without a step in between, give
    the store back as it was: on a model without wrappers the masks are
    all ones, and squashing them restores every layer, whatever the
    configuration. *)
Theorem prepare_then_squash_mask dflt (h h1 : gmap objid module) (model : objid)
    (config : option (list config_entry)) (self : BaseSparsifier) (m : module) :
  h !! model = Some m →
  (∀ p l, get_linear m p = Some l → parametrizations l = [] ∧ tensor_wf (original l)) →
  prepare dflt h model config = Some (self, h1) →
  squash_mask self h1 = Some h.
Proof.
  intros Hm Hfresh Hprep.
  apply prepare_inv in Hprep as (m0 & m1 & Hm0 & Hloop & -> & ->).
  rewrite Hm in Hm0. injection Hm0 as <-.
  set (groups := make_group dflt <$> config_list m config) in *.
  set (F := λ (_ : group) (l : Linear), Some (attach_mask l)) in *.
  set (G := λ (_ : group) (l : Linear), Some (squash_layer l)).
  assert (Hdims : ∀ (K : group → Linear → option Linear),
            K = F ∨ K = G → ∀ g l l', K g l = Some l' →
            in_features l' = in_features l ∧ out_features l' = out_features l ∧
            bias l' = bias l).
  { by intros K [-> | ->] g l l' [= <-]. }
  destruct (for_each_group_total G group_fqn groups m1) as [m2 Hloop2].
  { by eexists. }
  { intros g Hg.
    destruct (for_each_group_linear _ _ _ _ _ _ Hloop Hg) as [l Hl].
    destruct (for_each_group_layer _ _ _ _ _ _ _ Hloop Hl) as (l1 & Hl1 & _).
    by eexists. }
  apply squash_mask_inv. exists m1, m2. simpl.
  split; [by rewrite lookup_insert_eq|]. split; [done|].
  rewrite insert_insert_eq.
  assert (Hback : m2 = m); [|by rewrite Hback, insert_id].
  apply module_ext.
  { rewrite (for_each_group_structure G group_fqn groups m1 m2 (Hdims G (or_intror eq_refl)) Hloop2).
    by rewrite (for_each_group_structure F group_fqn groups m m1 (Hdims F (or_introl eq_refl)) Hloop). }
  intros p.
  destruct (get_linear m p) as [l|] eqn:Hl.
  - destruct (for_each_group_layer _ _ _ _ _ _ _ Hloop Hl) as (l1 & Hl1 & Hon1).
    destruct (for_each_group_layer _ _ _ _ _ _ _ Hloop2 Hl1) as (l2 & Hl2 & Hon2).
    rewrite Hl2. f_equal.
    destruct (Hfresh _ _ Hl) as [Hnone Hwf].
    destruct (decide (p ∈ group_fqn <$> groups)) as [Hp|Hp].
    + set (P := λ l1 : Linear,
                  in_features l1 = in_features l ∧ out_features l1 = out_features l ∧
                  bias l1 = bias l ∧ original l1 = original l ∧
                  Forall (λ mask, mask = ones_like (original l1)) (parametrizations l1)).
      assert (HP1 : P l1).
      { apply (on_layer_inv F group_fqn P groups p l l1); [| |done].
        - intros g0 la lb (? & ? & ? & Hor & Hones) [= <-].
          repeat (split; [done|]). simpl.
          apply Forall_app. split; [done|].
          apply Forall_singleton. rewrite weight_all_ones; [done| |done].
          by rewrite Hor.
        - unfold P. rewrite Hnone. repeat (split; [done|]). constructor. }
      destruct HP1 as (Hi1 & Ho1 & Hb1 & Hor1 & Hones1).
      set (R := λ l2 : Linear,
                  in_features l2 = in_features l ∧ out_features l2 = out_features l ∧
                  bias l2 = bias l ∧ weight l2 = original l).
      destruct (on_layer_last G group_fqn R groups p l1 l2)
        as (g' & la & _ & _ & (Hi2 & Ho2 & Hb2 & Hw2) & [= <-]); [| |done|done|].
      { by intros g0 la lb HR [= <-]. }
      { repeat (split; [done|]). rewrite <- Hor1.
        apply weight_all_ones; [by rewrite Hor1|done]. }
      unfold squash_layer. rewrite Hi2, Ho2, Hb2, Hw2.
      destruct l. simpl in *. by rewrite Hnone.
    + rewrite on_layer_unnamed in Hon1 by done. injection Hon1 as <-.
      rewrite on_layer_unnamed in Hon2 by done. by injection Hon2 as <-.
  - destruct (get_linear m2 p) as [l2|] eqn:Hl2; [|done].
    destruct (for_each_group_layer_inv _ _ _ _ _ _ _ Hloop2 Hl2) as [l1 Hl1].
    destruct (for_each_group_layer_inv _ _ _ _ _ _ _ Hloop Hl1) as [l0 Hl0].
    congruence.
Qed.

Lemma prepare_then_squash_mask_witness :
  ∃ self h1,
    prepare (closest_to_mean_defaults (1 # 2)) {[ 0 := four_layers ]} 0 (Some three_of_four)
      = Some (self, h1) ∧
    squash_mask self h1 = Some {[ 0 := four_layers ]}.
Proof.
  eexists _, _. split; [reflexivity|].
  apply (prepare_then_squash_mask (closest_to_mean_defaults (1 # 2)) {[ 0 := four_layers ]}
           _ 0 (Some three_of_four) _ four_layers); [reflexivity| |reflexivity].
  intros p l Hl.
  destruct p as [|[|[|[|[|[|[|[|i]]]]]]] [|j p]]; try discriminate Hl;
    injection Hl as <-; by split.
Defined.

Lemma groups_of_None dflt (m : module) :
  make_group dflt <$> config_list m None = (λ p, mkGroup p dflt) <$> named_linears m.
Proof. simpl. by rewrite <- list_fmap_compose. Qed.

(** X15. The life cycle of the notebook, on any model: a
    [ClosestToMeanSparsifier] with a level s in [0, 1], [prepare] with
    [config=None] on a model without wrappers whose weights have at
    most 2**53 entries, one [step] and [squash_mask] never raise;
    afterwards the model has the structure it had, no other object has
    changed, and every linear layer, of n weight entries, is without
    wrapper, has its bias, and has at least int(round(s * n)) zero
    entries, the product being the float product of the code - exactly
    that many when its weight had none. *)
Theorem closest_to_mean_life_cycle (torch_mean : list Q → Q) (torch_sort : list Q → list Q * list nat)
    (s : Q) (h : gmap objid module) (model : objid) (m : module) :
  (∀ v, is_sort_of v (torch_sort v) = true) →
  (0 <= s)%Q → (s <= 1)%Q →
  h !! model = Some m →
  (∀ p l, get_linear m p = Some l →
     parametrizations l = [] ∧ tensor_wf (original l) ∧
     (Z.of_nat (length (data (original l))) ≤ 2 ^ 53)%Z) →
  ∃ h' m',
    prepare_step_squash torch_mean torch_sort s h model None = Some h' ∧
    h' !! model = Some m' ∧
    structure_of m' = structure_of m ∧
    (∀ o, o ≠ model → h' !! o = h !! o) ∧
    ∀ p l, get_linear m p = Some l →
      ∃ l' k, get_linear m' p = Some l' ∧
        has_parametrizations l' = false ∧
        bias l' = bias l ∧
        length (data (weight l')) = length (data (original l)) ∧
        threshold_idx s (length (data (original l))) = Some k ∧
        (k ≤ Z.of_nat (count_zeros (data (weight l'))))%Z ∧
        (count_zeros (data (original l)) = 0 →
         Z.of_nat (count_zeros (data (weight l'))) = k).
Proof.
  intros Hsort H0 H1 Hm Hfresh.
  set (dflt := closest_to_mean_defaults s).
  set (groups := (λ p, mkGroup p dflt) <$> named_linears m).
  set (F := λ (_ : group) (l : Linear), Some (attach_mask l)).
  set (U := λ (g : group) (l : Linear), closest_to_mean_update torch_mean torch_sort l (group_args g)).
  set (G := λ (_ : group) (l : Linear), Some (squash_layer l)).
  assert (Hpaths : group_fqn <$> groups = named_linears m).
  { unfold groups. rewrite <- list_fmap_compose. apply list_fmap_id. }
  assert (Hnd : NoDup (group_fqn <$> groups)).
  { rewrite Hpaths. apply named_linears_NoDup. }
  assert (Hnamed : ∀ g, g ∈ groups →
            group_args g = dflt ∧ ∃ l, get_linear m (group_fqn g) = Some l).
  { intros g Hg. apply list_elem_of_fmap in Hg as (p & -> & Hp).
    split; [done|]. by apply named_linears_spec in Hp as [l Hl]; exists l. }
  assert (Hin : ∀ p l, get_linear m p = Some l → mkGroup p dflt ∈ groups).
  { intros p l Hl. apply (list_elem_of_fmap_2 (λ p, mkGroup p dflt)).
    apply named_linears_spec. by eexists. }
  (* prepare *)
  destruct (for_each_group_total F group_fqn groups m) as [m1 Hloop1].
  { by eexists. }
  { intros g Hg. by destruct (Hnamed g Hg) as [_ [l ->]]. }
  assert (Hl1 : ∀ p l, get_linear m p = Some l → get_linear m1 p = Some (attach_mask l)).
  { intros p l Hl.
    destruct (for_each_group_layer _ _ _ _ _ _ _ Hloop1 Hl) as (l1 & Hl1 & Hon).
    pose proof (on_layer_once F group_fqn groups (mkGroup p dflt) l Hnd (Hin p l Hl))
      as Honce.
    cbn [group_fqn] in Honce. rewrite Honce in Hon.
    by injection Hon as <-. }
  (* what one layer goes through *)
  assert (Hlayer : ∀ l, parametrizations l = [] → tensor_wf (original l) →
            (Z.of_nat (length (data (original l))) ≤ 2 ^ 53)%Z →
            ∃ l2 k, update_mask torch_mean torch_sort (attach_mask l) s = Some l2 ∧
              has_parametrizations (squash_layer l2) = false ∧
              bias (squash_layer l2) = bias l ∧
              length (data (weight (squash_layer l2))) = length (data (original l)) ∧
              threshold_idx s (length (data (original l))) = Some k ∧
              (k ≤ Z.of_nat (count_zeros (data (weight (squash_layer l2)))))%Z ∧
              (count_zeros (data (original l)) = 0 →
               Z.of_nat (count_zeros (data (weight (squash_layer l2)))) = k)).
  { intros l Hnone Hwf Hn.
    destruct (update_then_squash torch_mean torch_sort (attach_mask l)
                (ones_like (original l)) s)
      as (l2 & k & Hupd & Hk & Hnone2 & Hlen & Hge & Hdense);
      [| |apply Hsort|exact H0|exact H1|exact Hn|].
    - simpl. rewrite Hnone. simpl. unfold weight. by rewrite Hnone.
    - symmetry. exact Hwf.
    - cbn [attach_mask original] in *.
      exists l2, k. split; [done|]. split; [done|]. split; [|done].
      by apply update_mask_inv in Hupd as (? & ? & ? & ? & _ & _ & _ & _ & ->). }
  assert (HU : ∀ p l, get_linear m p = Some l →
            U (mkGroup p dflt) (attach_mask l) = update_mask torch_mean torch_sort (attach_mask l) s).
  { intros p l Hl. unfold U, closest_to_mean_update, dflt, closest_to_mean_defaults.
    simpl. by rewrite lookup_singleton_eq. }
  (* step *)
  destruct (for_each_group_total_once U group_fqn groups m1 Hnd) as [m2 Hloop2].
  { intros g Hg. destruct (Hnamed g Hg) as [Hargs [l Hl]].
    exists (attach_mask l). split; [by apply Hl1|].
    destruct g as [p args]. simpl in *. subst args.
    rewrite (HU p l Hl).
    destruct (Hfresh _ _ Hl) as (Hnone & Hwf & Hn).
    destruct (Hlayer l Hnone Hwf Hn) as (l2 & k & -> & _). by eexists. }
  (* squash_mask *)
  destruct (for_each_group_total G group_fqn groups m2) as [m3 Hloop3].
  { by eexists. }
  { intros g Hg. destruct (Hnamed g Hg) as [_ [l Hl]].
    destruct (for_each_group_layer _ _ _ _ _ _ _ Hloop2 (Hl1 _ _ Hl)) as (l2 & Hl2 & _).
    by eexists. }
  exists (<[model := m3]> (<[model := m2]> (<[model := m1]> h))), m3.
  split; [|split; [by rewrite lookup_insert_eq|split; [|split]]].
  - assert (Hprep : prepare (closest_to_mean_defaults s) h model None
                    = Some (mkSparsifier dflt model groups, <[model := m1]> h)).
    { apply prepare_inv. exists m, m1. rewrite groups_of_None. by fold groups. }
    assert (Hstep : step (closest_to_mean_update torch_mean torch_sort)
                      (mkSparsifier dflt model groups) (<[model := m1]> h)
                    = Some (<[model := m2]> (<[model := m1]> h))).
    { apply step_inv. exists m1, m2. simpl. by rewrite lookup_insert_eq. }
    unfold prepare_step_squash. rewrite Hprep. simpl. rewrite Hstep. simpl.
    apply squash_mask_inv. exists m2, m3. simpl. by rewrite lookup_insert_eq.
  - rewrite (for_each_group_structure G group_fqn groups m2 m3); [|by intros ??? [= <-]|done].
    rewrite (for_each_group_structure U group_fqn groups m1 m2);
      [|intros ???; apply closest_to_mean_update_dims|done].
    by rewrite (for_each_group_structure F group_fqn groups m m1); [|by intros ??? [= <-]|].
  - intros o Ho. by rewrite !lookup_insert_ne.
  - intros p l Hl.
    destruct (Hfresh _ _ Hl) as (Hnone & Hwf & Hn).
    destruct (Hlayer l Hnone Hwf Hn) as (l2 & k & Hupd & Hrest).
    destruct (for_each_group_layer _ _ _ _ _ _ _ Hloop2 (Hl1 _ _ Hl)) as (l2' & Hl2 & Hon2).
    pose proof (on_layer_once U group_fqn groups (mkGroup p dflt) (attach_mask l) Hnd
                  (Hin p l Hl)) as Honce2.
    cbn [group_fqn] in Honce2. rewrite Honce2, (HU p l Hl), Hupd in Hon2.
    injection Hon2 as <-.
    destruct (for_each_group_layer _ _ _ _ _ _ _ Hloop3 Hl2) as (l3 & Hl3 & Hon3).
    pose proof (on_layer_once G group_fqn groups (mkGroup p dflt) l2 Hnd (Hin p l Hl))
      as Honce3.
    cbn [group_fqn] in Honce3. rewrite Honce3 in Hon3.
    injection Hon3 as <-.
    by exists (squash_layer l2), k.
Qed.

Lemma closest_to_mean_life_cycle_witness :
  ∃ h' m',
    prepare_step_squash sequential_mean stable_sort (1 # 2) {[ 0 := four_layers ]} 0 None
      = Some h' ∧
    h' !! 0 = Some m' ∧
    structure_of m' = structure_of four_layers ∧
    (∀ o, o ≠ 0 → h' !! o = ({[ 0 := four_layers ]} : gmap objid module) !! o) ∧
    ∀ p l, get_linear four_layers p = Some l →
      ∃ l' k, get_linear m' p = Some l' ∧
        has_parametrizations l' = false ∧
        bias l' = bias l ∧
        length (data (weight l')) = length (data (original l)) ∧
        threshold_idx (1 # 2) (length (data (original l))) = Some k ∧
        (k ≤ Z.of_nat (count_zeros (data (weight l'))))%Z ∧
        (count_zeros (data (original l)) = 0 →
         Z.of_nat (count_zeros (data (weight l'))) = k).
Proof.
  apply (closest_to_mean_life_cycle sequential_mean stable_sort (1 # 2)
           {[ 0 := four_layers ]} 0 four_layers).
  - exact stable_sort_is_sort.
  - discriminate.
  - discriminate.
  - reflexivity.
  - intros p l Hl.
    destruct p as [|[|[|[|[|[|[|[|i]]]]]]] [|j p]]; try discriminate Hl;
      injection Hl as <-; (split; [done|split; [done|vm_compute; discriminate]]).
Defined.
